(** * SpinLab: the GLB reader, the geometry pipeline and the morph scheduler

    A shallow embedding of [src/App.js] (component [MorphingGLBScene]):
    [loadGLB], the de-indexing loop and the loading part of [init],
    [normalizeGeometry], [expandToMaxVertices], [generateFallbackShape],
    the text and morphing parts of [animate], [handleButtonClick] and
    [handleScrollButtonClick], followed by the properties of these
    functions.

    Conventions of the embedding.
    - A JavaScript number is a rational or one of the three special values
      NaN, +Infinity, -Infinity (type [num]); the sign of a zero is not
      kept.
    - The functions that compute with numbers are given twice.  The first
      versions compute with exact rationals.  They serve the properties
      that rounding does not touch: which elements are read and written,
      lengths, exceptions, the control flow of the scheduler, and what
      becomes of NaN and the infinities.  The versions of module [IEEE]
      round the result of every arithmetic operation to binary64 and
      every store into a [Float32Array] to binary32, to the nearest
      number and to the even one of two, as the program does; the
      properties of the numbers computed (the box of a normalized mesh,
      the ends and the course of a morph) are stated of these.
    - A typed array is a list.  Reading past the end yields [undefined],
      which every use in this program turns into NaN (arithmetic, [Math.min],
      a store into a [Float32Array]); writing past the end is ignored.
    - Exceptions are values of [exn]; a throwing computation returns [Throw].
    - Rendering, camera, lighting, the rotation of the mesh by dragging and
      the drawing of the text textures are not part of the embedding. *)

From Stdlib Require Import QArith Qminmax Qabs Qpower Qround Lqa Lia ZArith String.
From Stdlib Require SpecFloat.
From stdpp Require Import base option list gmap.

Local Open Scope nat_scope.

(** ** JavaScript numbers *)

Inductive num : Type :=
  | NaN
  | NegInf
  | Fin (q : Q)
  | PosInf.

Definition Qsgn (q : Q) : Z := Z.sgn (Qnum q).

(** Sign of a number that is not NaN: -1, 0 or 1. *)
Definition nsign (x : num) : Z :=
  match x with
  | NaN => 0
  | NegInf => (-1)
  | Fin q => Qsgn q
  | PosInf => 1
  end.

Definition of_sign (s : Z) : num :=
  match s with
  | Z0 => NaN
  | Zpos _ => PosInf
  | Zneg _ => NegInf
  end.

Definition nneg (x : num) : num :=
  match x with
  | NaN => NaN
  | NegInf => PosInf
  | Fin q => Fin (- q)
  | PosInf => NegInf
  end.

Definition nadd (x y : num) : num :=
  match x, y with
  | NaN, _ | _, NaN => NaN
  | Fin a, Fin b => Fin (a + b)
  | PosInf, NegInf | NegInf, PosInf => NaN
  | PosInf, _ | _, PosInf => PosInf
  | NegInf, _ | _, NegInf => NegInf
  end.

Definition nsub (x y : num) : num := nadd x (nneg y).

Definition nmul (x y : num) : num :=
  match x, y with
  | NaN, _ | _, NaN => NaN
  | Fin a, Fin b => Fin (a * b)
  | _, _ => of_sign (nsign x * nsign y)
  end.

(** Division; a zero divisor is taken as +0, which is what [a - a] gives. *)
Definition ndiv (x y : num) : num :=
  match x, y with
  | NaN, _ | _, NaN => NaN
  | Fin a, Fin b => if Qeq_bool b 0 then of_sign (Qsgn a) else Fin (a / b)
  | Fin _, _ => Fin 0
  | _, Fin b => if Qle_bool 0 b then x else nneg x
  | _, _ => NaN
  end.

(** [Math.min] and [Math.max]: NaN as soon as one argument is NaN. *)
Definition Math_min (x y : num) : num :=
  match x, y with
  | NaN, _ | _, NaN => NaN
  | NegInf, _ | _, NegInf => NegInf
  | PosInf, z | z, PosInf => z
  | Fin a, Fin b => Fin (Qmin a b)
  end.

Definition Math_max (x y : num) : num :=
  match x, y with
  | NaN, _ | _, NaN => NaN
  | PosInf, _ | _, PosInf => PosInf
  | NegInf, z | z, NegInf => z
  | Fin a, Fin b => Fin (Qmax a b)
  end.

(** [Math.pow(x, 2)]. *)
Definition Math_pow2 (x : num) : num := nmul x x.

(** The comparisons [<] and [>=]; both are false when NaN is involved. *)
Definition nltb (x y : num) : bool :=
  match x, y with
  | NaN, _ | _, NaN => false
  | _, NegInf | PosInf, _ => false
  | NegInf, _ | _, PosInf => true
  | Fin a, Fin b => negb (Qle_bool b a)
  end.

Definition ngeb (x y : num) : bool :=
  match x, y with
  | NaN, _ | _, NaN => false
  | _, NegInf | PosInf, _ => true
  | NegInf, _ | _, PosInf => false
  | Fin a, Fin b => Qle_bool b a
  end.

Definition ngtb (x y : num) : bool := nltb y x.

(** Equality of numbers as values: rationals are compared by [Qeq]. *)
Definition num_eq (x y : num) : Prop :=
  match x, y with
  | NaN, NaN | NegInf, NegInf | PosInf, PosInf => True
  | Fin a, Fin b => (a == b)%Q
  | _, _ => False
  end.

Infix "=n=" := num_eq (at level 70, no associativity).

Declare Scope num_scope.
Delimit Scope num_scope with num.
Bind Scope num_scope with num.
Infix "+" := nadd : num_scope.
Infix "-" := nsub : num_scope.
Infix "*" := nmul : num_scope.
Infix "/" := ndiv : num_scope.

(** ** Typed arrays *)

(** [a[i]] used as a number. *)
Definition get (a : list num) (i : nat) : num := default NaN (a !! i).

(** [new Float32Array(n)]. *)
Definition new_Float32Array (n : nat) : list num := replicate n (Fin 0).

(** The vertex stored at index [i] of a flat position sequence. *)
Definition vertex (a : list num) (i : nat) : option (num * num * num) :=
  match a !! (3 * i), a !! (3 * i + 1), a !! (3 * i + 2) with
  | Some x, Some y, Some z => Some (x, y, z)
  | _, _, _ => None
  end.

(** A flat sequence of (x, y, z) triples. *)
Definition flat_triples (a : list num) : Prop := length a mod 3 = 0.

(** ** Exceptions *)

Inductive exn : Type :=
  | Error (message : string)
  | RangeError
  | TypeError
  | SyntaxError.

Inductive result (A : Type) : Type :=
  | Ok (a : A)
  | Throw (e : exn).

Arguments Ok {A} a.
Arguments Throw {A} e.

#[global] Instance result_ret : MRet result := fun A a => Ok a.

#[global] Instance result_bind : MBind result := fun A B k r =>
  match r with
  | Ok a => k a
  | Throw e => Throw e
  end.

(** An access to a property of [undefined] throws a TypeError. *)
Definition defined {A : Type} (o : option A) : result A :=
  match o with
  | Some a => Ok a
  | None => Throw TypeError
  end.

(** ** Models *)

(** The objects [{ positions }] and [{ positions, vertexCount }] that the
    geometry pipeline passes around; a property that is absent is [None]. *)
Record model : Type := Model {
  positions : list num;
  vertexCount : option nat
}.

(** ** [expandToMaxVertices] *)

(** [Math.max(...counts)]; on an empty list JavaScript gives -Infinity, and
    the only use below then maps over no model at all. *)
Definition Math_max_of (counts : list nat) : nat := foldr Nat.max 0 counts.

(** The three stores of one loop iteration. *)
Definition copy_vertex (src : list num) (srcIdx dstIdx : nat) (dst : list num)
  : list num :=
  <[dstIdx + 2 := get src (srcIdx + 2)]>
    (<[dstIdx + 1 := get src (srcIdx + 1)]>
      (<[dstIdx := get src srcIdx]> dst)).

(** The callback of [models.map].  [positions.length / 3] is an exact
    division on the flat triple sequences this program builds.  When
    [currentCount] is 0, [i % currentCount] is NaN in JavaScript and the
    read yields [undefined]; here [i mod 0 = i] and the read is past the
    end of the empty source: NaN is stored in both. *)
Definition expandModel (maxVertices : nat) (m : model) : model :=
  let currentCount := length (positions m) / 3 in
  if currentCount =? maxVertices then
    Model (positions m) (Some currentCount)
  else
    let expandedPositions := new_Float32Array (maxVertices * 3) in
    let expandedPositions :=
      foldl (fun a i => copy_vertex (positions m) (i * 3) (i * 3) a)
        expandedPositions (seq 0 currentCount) in
    let expandedPositions :=
      foldl (fun a i =>
               copy_vertex (positions m) ((i mod currentCount) * 3) (i * 3) a)
        expandedPositions (seq currentCount (maxVertices - currentCount)) in
    Model expandedPositions (Some currentCount).

Definition expandToMaxVertices (models : list model) : list model :=
  let maxVertices :=
    Math_max_of ((fun m => length (positions m) / 3) <$> models) in
  expandModel maxVertices <$> models.

(** ** De-indexing (the loop over [meshes] in [init]) *)

(** What [loadGLB] returns for one primitive. *)
Record meshData : Type := MeshData {
  md_positions : list num;
  md_indices : option (list nat)
}.

(** One pass of the outer loop: the values pushed on [allPositions]. *)
Definition pushMesh (allPositions : list num) (md : meshData) : list num :=
  match md_indices md with
  | Some indices =>
      foldl (fun acc i =>
               let idx := i * 3 in
               acc ++ [get (md_positions md) idx;
                       get (md_positions md) (idx + 1);
                       get (md_positions md) (idx + 2)])
        allPositions indices
  | None => allPositions ++ md_positions md
  end.

(** [new Float32Array(allPositions)] after the loop. *)
Definition flattenMeshes (meshes : list meshData) : list num :=
  foldl pushMesh [] meshes.

(** ** [normalizeGeometry] *)

(** The indices visited by [for (let i = 0; i < n; i += 3)]. *)
Definition stride3 (n : nat) : list nat :=
  (fun k => 3 * k) <$> seq 0 ((n + 2) / 3).

Record bbox : Type := BBox {
  minX : num; maxX : num;
  minY : num; maxY : num;
  minZ : num; maxZ : num
}.

Definition bbox_init : bbox := BBox PosInf NegInf PosInf NegInf PosInf NegInf.

Definition bbox_step (pos : list num) (b : bbox) (i : nat) : bbox :=
  BBox (Math_min (minX b) (get pos i)) (Math_max (maxX b) (get pos i))
       (Math_min (minY b) (get pos (i + 1))) (Math_max (maxY b) (get pos (i + 1)))
       (Math_min (minZ b) (get pos (i + 2))) (Math_max (maxZ b) (get pos (i + 2))).

(** First loop: the axis-aligned bounding box. *)
Definition bounds (pos : list num) : bbox :=
  foldl (bbox_step pos) bbox_init (stride3 (length pos)).

Definition two : num := Fin 2.

Definition centerX (b : bbox) : num := ((minX b + maxX b) / two)%num.
Definition centerY (b : bbox) : num := ((minY b + maxY b) / two)%num.
Definition centerZ (b : bbox) : num := ((minZ b + maxZ b) / two)%num.

Definition extentX (b : bbox) : num := (maxX b - minX b)%num.
Definition extentY (b : bbox) : num := (maxY b - minY b)%num.
Definition extentZ (b : bbox) : num := (maxZ b - minZ b)%num.

(** [Math.max(maxX - minX, maxY - minY, maxZ - minZ)]. *)
Definition bbox_scale (b : bbox) : num :=
  Math_max (Math_max (extentX b) (extentY b)) (extentZ b).

Definition normalize_step (pos : list num) (b : bbox) (size : num)
    (normalized : list num) (i : nat) : list num :=
  let scale := bbox_scale b in
  <[i + 2 := (((get pos (i + 2) - centerZ b) / scale) * size)%num]>
    (<[i + 1 := (((get pos (i + 1) - centerY b) / scale) * size)%num]>
      (<[i := (((get pos i - centerX b) / scale) * size)%num]> normalized)).

Definition normalizeGeometry (pos : list num) (size : num) : list num :=
  let b := bounds pos in
  let normalized := new_Float32Array (length pos) in
  foldl (normalize_step pos b size) normalized (stride3 (length pos)).

(** ** [loadGLB] *)

Definition byte_val (b : Byte.byte) : Z := Z.of_N (Byte.to_N b).

(** Little-endian value of a run of bytes. *)
Definition le_word (bytes : list Byte.byte) : Z :=
  foldr (fun b acc => (byte_val b + 256 * acc)%Z) 0%Z bytes.

(** [dataView.getUint32(off, true)]. *)
Definition getUint32 (buffer : list Byte.byte) (off : nat) : result Z :=
  if off + 4 <=? length buffer
  then Ok (le_word (take 4 (drop off buffer)))
  else Throw RangeError.

(** [new T(buffer, byteOffset, len)] for a typed array [T] whose elements
    take [size] bytes: the offset must be aligned and the view must fit. *)
Definition typed_array {A : Type} (size : nat) (decode : Z -> A)
    (buffer : list Byte.byte) (byteOffset len : nat) : result (list A) :=
  if negb (byteOffset mod size =? 0) then Throw RangeError
  else if length buffer <? byteOffset + len * size then Throw RangeError
  else Ok ((fun i =>
              decode (le_word (take size (drop (byteOffset + i * size) buffer))))
             <$> seq 0 len).

(** The number an IEEE binary32 bit pattern stands for. *)
Definition float32_of_bits (w : Z) : num :=
  let sign := Z.testbit w 31 in
  let e := Z.land (Z.shiftr w 23) 255 in
  let m := Z.land w (Z.ones 23) in
  if (e =? 255)%Z then
    if (m =? 0)%Z then (if sign then NegInf else PosInf) else NaN
  else
    let mag :=
      if (e =? 0)%Z then (inject_Z m * Qpower 2 (-149))%Q
      else (inject_Z (2 ^ 23 + m) * Qpower 2 (e - 150))%Q in
    Fin (Qred (if sign then (- mag)%Q else mag)).

Definition Uint8Array := typed_array 1 (fun w => w).
Definition Uint16Array := typed_array 2 Z.to_nat.
Definition Uint32Array := typed_array 4 Z.to_nat.
Definition Float32Array := typed_array 4 float32_of_bits.

(** The part of the glTF document that [loadGLB] reads.  An absent
    property is [None]. *)
Record accessor : Type := Accessor {
  acc_bufferView : option nat;
  acc_byteOffset : option nat;
  acc_count : nat;
  acc_componentType : Z
}.

Record bufferView : Type := BufferView {
  bv_byteOffset : option nat
}.

Record primitive : Type := Primitive {
  attributes_POSITION : option nat;
  prim_indices : option nat
}.

Record mesh : Type := Mesh {
  primitives : list primitive
}.

Record gltf : Type := Gltf {
  meshes : option (list mesh);
  accessors : list accessor;
  bufferViews : list bufferView
}.

Definition GLB_MAGIC : Z := 0x46546C67.
Definition JSON_CHUNK : Z := 0x4E4F534A.
Definition UNSIGNED_SHORT : Z := 5123.
Definition UNSIGNED_INT : Z := 5125.

(** [gltf.bufferViews[a.bufferView]]. *)
Definition bufferViewOf (g : gltf) (a : accessor) : result bufferView :=
  defined (acc_bufferView a ≫= (fun k => bufferViews g !! k)).

(** "Get indices if they exist": [binaryOffset] is [binaryData.byteOffset]. *)
Definition loadIndices (g : gltf) (buffer : list Byte.byte)
    (binaryOffset : nat) (p : primitive) : result (option (list nat)) :=
  match prim_indices p with
  | None => Ok None
  | Some k =>
      indAccessor ← defined (accessors g !! k);
      indBufferView ← bufferViewOf g indAccessor;
      let indByteOffset :=
        default 0 (bv_byteOffset indBufferView)
        + default 0 (acc_byteOffset indAccessor) in
      if (acc_componentType indAccessor =? UNSIGNED_SHORT)%Z then
        indices ← Uint16Array buffer (binaryOffset + indByteOffset)
                    (acc_count indAccessor);
        Ok (Some indices)
      else if (acc_componentType indAccessor =? UNSIGNED_INT)%Z then
        indices ← Uint32Array buffer (binaryOffset + indByteOffset)
                    (acc_count indAccessor);
        Ok (Some indices)
      else Ok None
  end.

(** The body of the loop over [mesh.primitives]. *)
Definition loadPrimitive (g : gltf) (buffer : list Byte.byte)
    (binaryOffset : nat) (p : primitive) : result meshData :=
  posAccessor ← defined (attributes_POSITION p ≫= (fun k => accessors g !! k));
  posBufferView ← bufferViewOf g posAccessor;
  let count := acc_count posAccessor in
  let byteOffset :=
    default 0 (bv_byteOffset posBufferView)
    + default 0 (acc_byteOffset posAccessor) in
  posData ← Float32Array buffer (binaryOffset + byteOffset) (count * 3);
  indices ← loadIndices g buffer binaryOffset p;
  Ok (MeshData posData indices).

(** "Extract all mesh data". *)
Definition extractMeshes (g : gltf) (buffer : list Byte.byte)
    (binaryOffset : nat) : result (list meshData) :=
  match meshes g with
  | Some ms =>
      mapM (loadPrimitive g buffer binaryOffset) (concat (primitives <$> ms))
  | None => Ok []
  end.

Section Loader.

(** [JSON.parse(new TextDecoder().decode(jsonData))], read as a glTF
    document; it throws on text that is not JSON. *)
Variable JSON_parse : list Z -> result gltf.

(** [loadGLB], from the fetched [arrayBuffer] on.  The [catch] block logs
    the exception and throws it again. *)
Definition loadGLB (arrayBuffer : list Byte.byte) : result (list meshData) :=
  magic ← getUint32 arrayBuffer 0;
  if negb (magic =? GLB_MAGIC)%Z then Throw (Error "Not a valid GLB file")
  else
    jsonChunkLength ← getUint32 arrayBuffer 12;
    jsonChunkType ← getUint32 arrayBuffer 16;
    if negb (jsonChunkType =? JSON_CHUNK)%Z then
      Throw (Error "Invalid GLB format")
    else
      let jsonChunkLength := Z.to_nat jsonChunkLength in
      jsonData ← Uint8Array arrayBuffer 20 jsonChunkLength;
      g ← JSON_parse jsonData;
      binaryChunkLength ← getUint32 arrayBuffer (20 + jsonChunkLength);
      binaryData ← Uint8Array arrayBuffer (28 + jsonChunkLength)
                     (Z.to_nat binaryChunkLength);
      extractMeshes g arrayBuffer (28 + jsonChunkLength).

End Loader.

(** ** The morph scheduler (the animation variables of [init] and the
       morphing part of [animate]) *)

Inductive viewMode : Type := objects | about | projects | CV | icons.

#[global] Instance viewMode_eq_dec : EqDecision viewMode.
Proof. solve_decision. Defined.

(** The three position buffers of the geometry, the dirty flag of the
    position attribute and the animation variables. *)
Record sched : Type := Sched {
  position_array : list num;
  targetPosition_array : list num;
  originalPosition_array : list num;
  needsUpdate : bool;
  morphProgress : num;
  ripplePhase : num;
  frameCount : nat;
  localCurrentShape : nat;
  isMorphing : bool;
  lastViewMode : viewMode;
  viewMorphProgress : num;
  isViewMorphing : bool;
  currentShape : nat
}.

(** What a frame reads and does not write: [viewModeRef.current],
    [modelDataRef.current] and [scrollModelRef.current]. *)
Record refs : Type := Refs {
  viewModeRef : viewMode;
  modelDataRef : list model;
  scrollModelRef : model
}.

Definition morphDuration : num := Fin 120.
Definition shapeChangeInterval : nat := 300.
Definition one : num := Fin 1.
Definition zero : num := Fin 0.
Definition half : num := Fin (1 # 2).

(** The easing of both morph blocks. *)
Definition eased (p : num) : num :=
  if nltb p half then (two * p * p)%num
  else (one - Math_pow2 (nneg two * p + two) / two)%num.

(** One pass of [for (let i = 0; i < positions.length; i += 3)] in a morph
    block. *)
Definition interpolate_step (orig target : list num) (e : num)
    (pos : list num) (i : nat) : list num :=
  <[i + 2 := (get orig (i + 2) + (get target (i + 2) - get orig (i + 2)) * e)%num]>
    (<[i + 1 := (get orig (i + 1) + (get target (i + 1) - get orig (i + 1)) * e)%num]>
      (<[i := (get orig i + (get target i - get orig i) * e)%num]> pos)).

Definition interpolate (pos orig target : list num) (e : num) : list num :=
  foldl (interpolate_step orig target e) pos (stride3 (length pos)).

(** [dst.set(src)] on typed arrays. *)
Definition array_set (dst src : list num) : result (list num) :=
  if length dst <? length src then Throw RangeError
  else Ok (src ++ drop (length src) dst).

(** "Handle view mode morphing". *)
Definition viewMorphStep (s : sched) : sched :=
  if isViewMorphing s && nltb (viewMorphProgress s) one then
    let p := (viewMorphProgress s + one / morphDuration)%num in
    Sched (interpolate (position_array s) (originalPosition_array s)
             (targetPosition_array s) (eased p))
          (targetPosition_array s) (originalPosition_array s) true
          (morphProgress s) (ripplePhase s) (frameCount s)
          (localCurrentShape s) (isMorphing s) (lastViewMode s)
          p (if ngeb p one then false else isViewMorphing s)
          (currentShape s)
  else s.

(** The assignments shared by all five branches of the trigger:
    [morphProgress = 0; isMorphing = true]. *)
Definition resetMorph (s : sched) : sched :=
  Sched (position_array s) (targetPosition_array s) (originalPosition_array s)
        (needsUpdate s) zero (ripplePhase s) (frameCount s)
        (localCurrentShape s) true (lastViewMode s)
        (viewMorphProgress s) (isViewMorphing s) (currentShape s).

(** [targetPosition.array.set(nextModel.positions);
     originalPosition.array.set(positions)], then the bookkeeping
    assignments; an exception leaves the state as it is at the throw. *)
Definition retarget (nextModel : model) (shape : nat) (mode : viewMode)
    (s : sched) : sched * option exn :=
  match array_set (targetPosition_array s) (positions nextModel) with
  | Throw e => (s, Some e)
  | Ok target =>
      match array_set (originalPosition_array s) (position_array s) with
      | Throw e =>
          (Sched (position_array s) target (originalPosition_array s)
             (needsUpdate s) (morphProgress s) (ripplePhase s) (frameCount s)
             (localCurrentShape s) (isMorphing s) (lastViewMode s)
             (viewMorphProgress s) (isViewMorphing s) (currentShape s),
           Some e)
      | Ok original =>
          (Sched (position_array s) target original
             (needsUpdate s) (morphProgress s) (ripplePhase s) (frameCount s)
             shape (isMorphing s) mode
             (viewMorphProgress s) (isViewMorphing s) (currentShape s),
           None)
      end
  end.

Definition setCurrentShape (n : nat) (s : sched) : sched :=
  Sched (position_array s) (targetPosition_array s) (originalPosition_array s)
        (needsUpdate s) (morphProgress s) (ripplePhase s) (frameCount s)
        (localCurrentShape s) (isMorphing s) (lastViewMode s)
        (viewMorphProgress s) (isViewMorphing s) n.

(** "Trigger morph": the chain of [if / else if] on the view mode. *)
Definition triggerStep (r : refs) (s : sched) : sched * option exn :=
  if bool_decide (viewModeRef r = objects)
     && (frameCount s mod shapeChangeInterval =? 0)
     && (1 <? length (modelDataRef r))
     && negb (isViewMorphing s)
  then
    let nextShape := (localCurrentShape s + 1) mod length (modelDataRef r) in
    let s := setCurrentShape nextShape (resetMorph s) in
    match modelDataRef r !! nextShape with
    | Some nextModel => retarget nextModel nextShape objects s
    | None => (s, Some TypeError)
    end
  else if bool_decide (viewModeRef r = about)
          && negb (bool_decide (lastViewMode s = about))
  then retarget (scrollModelRef r) (localCurrentShape s) about (resetMorph s)
  else if bool_decide (viewModeRef r = projects)
          && negb (bool_decide (lastViewMode s = projects))
  then retarget (scrollModelRef r) (localCurrentShape s) projects (resetMorph s)
  else if bool_decide (viewModeRef r = CV)
          && negb (bool_decide (lastViewMode s = CV))
  then retarget (scrollModelRef r) (localCurrentShape s) CV (resetMorph s)
  else if bool_decide (viewModeRef r = icons)
          && negb (bool_decide (lastViewMode s = icons))
  then retarget (scrollModelRef r) (localCurrentShape s) icons (resetMorph s)
  else (s, None).

(** "Morphing animation (only when not view morphing)". *)
Definition morphStep (s : sched) : sched :=
  if isMorphing s && nltb (morphProgress s) one && negb (isViewMorphing s) then
    let p := (morphProgress s + one / morphDuration)%num in
    Sched (interpolate (position_array s) (originalPosition_array s)
             (targetPosition_array s) (eased p))
          (targetPosition_array s) (originalPosition_array s) true
          p (ripplePhase s) (frameCount s)
          (localCurrentShape s) (if ngeb p one then false else isMorphing s)
          (lastViewMode s) (viewMorphProgress s) (isViewMorphing s)
          (currentShape s)
  else s.

(** The guard of the ripple loop and the progress it uses. *)
Definition rippleActive (s : sched) : bool :=
  (ngtb (morphProgress s) zero && nltb (morphProgress s) one
   && negb (isViewMorphing s))
  || (isViewMorphing s && ngtb (viewMorphProgress s) zero
      && nltb (viewMorphProgress s) one).

Definition activeProgress (s : sched) : num :=
  if isViewMorphing s then viewMorphProgress s else morphProgress s.

Section Ripple.

(** [Math.sin] and [Math.sqrt] of the host. *)
Variables Math_sin Math_sqrt : num -> num.

Definition ripple_step (phase progress : num) (pos : list num) (i : nat)
  : list num :=
  let x := get pos i in
  let y := get pos (i + 1) in
  let z := get pos (i + 2) in
  let dist := Math_sqrt (x * x + y * y + z * z)%num in
  let ripple :=
    (Math_sin (dist * Fin 5 - phase * Fin 3) * Fin (5 # 100)
     * (one - progress))%num in
  <[i + 2 := (get pos (i + 2) + z * ripple)%num]>
    (<[i + 1 := (get pos (i + 1) + y * ripple)%num]>
      (<[i := (get pos i + x * ripple)%num]> pos)).

(** "Ripple effect". *)
Definition rippleStep (s : sched) : sched :=
  let phase := (ripplePhase s + Fin (5 # 100))%num in
  if rippleActive s then
    Sched (foldl (ripple_step phase (activeProgress s)) (position_array s)
             (stride3 (length (position_array s))))
          (targetPosition_array s) (originalPosition_array s) true
          (morphProgress s) phase (frameCount s)
          (localCurrentShape s) (isMorphing s) (lastViewMode s)
          (viewMorphProgress s) (isViewMorphing s) (currentShape s)
  else
    Sched (position_array s) (targetPosition_array s)
          (originalPosition_array s) (needsUpdate s)
          (morphProgress s) phase (frameCount s)
          (localCurrentShape s) (isMorphing s) (lastViewMode s)
          (viewMorphProgress s) (isViewMorphing s) (currentShape s).

Definition countFrame (s : sched) : sched :=
  Sched (position_array s) (targetPosition_array s)
        (originalPosition_array s) (needsUpdate s)
        (morphProgress s) (ripplePhase s) (S (frameCount s))
        (localCurrentShape s) (isMorphing s) (lastViewMode s)
        (viewMorphProgress s) (isViewMorphing s) (currentShape s).

(** One call of [animate], from [frameCount++] to the ripple; an
    exception thrown by the trigger ends the frame. *)
Definition animate (r : refs) (s : sched) : sched * option exn :=
  match triggerStep r (viewMorphStep (countFrame s)) with
  | (s', Some e) => (s', Some e)
  | (s', None) => (rippleStep (morphStep s'), None)
  end.

End Ripple.

(** [handleButtonClick]: the mode the button leaves in [viewModeRef]. *)
Definition handleButtonClick (mode : viewMode) (r : refs) : refs :=
  if bool_decide (viewModeRef r = mode) && negb (bool_decide (mode = objects))
  then Refs objects (modelDataRef r) (scrollModelRef r)
  else Refs mode (modelDataRef r) (scrollModelRef r).

(** ** [normalizeGeometry] on the store of typed arrays

    The same function with its arrays held in a store, addressed by
    location: [positions] is a reference to an array of the caller and
    [normalized] is allocated by the call. *)

Definition loc : Type := positive.

Definition deref (h : gmap loc (list num)) (l : loc) : list num :=
  default [] (h !! l).

Definition alloc (h : gmap loc (list num)) (a : list num)
  : loc * gmap loc (list num) :=
  let l := fresh (dom h) in (l, <[l := a]> h).

(** One pass of the second loop: three reads through [positions], three
    writes through [normalized]. *)
Definition normalize_step_st (positions normalized : loc) (b : bbox)
    (size : num) (h : gmap loc (list num)) (i : nat) : gmap loc (list num) :=
  alter (fun a => normalize_step (deref h positions) b size a i) normalized h.

Definition normalizeGeometry_st (h : gmap loc (list num)) (positions : loc)
    (size : num) : loc * gmap loc (list num) :=
  let n := length (deref h positions) in
  let b := foldl (fun b i => bbox_step (deref h positions) b i) bbox_init
             (stride3 n) in
  let '(normalized, h) := alloc h (new_Float32Array n) in
  (normalized,
   foldl (normalize_step_st positions normalized b size) h (stride3 n)).

(** ** Auxiliary definitions of the proofs *)

(** Number of vertices of a flat position sequence. *)
Definition vertices (a : list num) : nat := length a / 3.

(** The shape shared by the loop bodies: three stores at [i], [i + 1] and
    [i + 2] of values that depend on the index written only. *)
Definition write3 (g : nat -> num) (a : list num) (i : nat) : list num :=
  <[i + 2 := g (i + 2)]> (<[i + 1 := g (i + 1)]> (<[i := g i]> a)).

(** Equality of buffers as sequences of values. *)
Definition buf_eq (a b : list num) : Prop := Forall2 num_eq a b.

Infix "=b=" := buf_eq (at level 70, no associativity).

(** The index of the source element that ends at index [k] of an array
    expanded from [c] vertices. *)
Definition source_index (c k : nat) : nat :=
  if decide (k < 3 * c) then k else (k / 3) mod c * 3 + k mod 3.

(** Sample data. *)
Definition q (z : Z) : num := Fin (inject_Z z).

Definition two_meshes : list model :=
  [Model [q 0; q 0; q 0] None;
   Model [q 0; q 0; q 0; q 1; q 1; q 1] None].

Definition same_count_meshes : list model :=
  [Model [q 0; q 1; q 2] None; Model [q 3; q 4; q 5] (Some 1)].

(** Two triangles that share an edge: four vertices, six indices. *)
Definition quad : meshData :=
  MeshData [q 0; q 0; q 0;  q 1; q 0; q 0;  q 0; q 1; q 0;  q 1; q 1; q 0]
           (Some [0; 1; 2; 2; 1; 3]).

(** The [j]-th coordinate of every vertex of a flat position sequence. *)
Definition column (pos : list num) (j : nat) : list num :=
  (fun v => get pos (3 * v + j)) <$> seq 0 (vertices pos).

Definition axis_center (b : bbox) (j : nat) : num :=
  match j with
  | 0 => centerX b
  | 1 => centerY b
  | _ => centerZ b
  end.

(** The value [normalizeGeometry] stores at index [k]. *)
Definition normalized_at (pos : list num) (size : num) (k : nat) : num :=
  (((get pos k - axis_center (bounds pos) (k mod 3))
    / bbox_scale (bounds pos)) * size)%num.

(** The same on a sequence of rationals. *)
Definition qcolumn (qs : list Q) (j : nat) : list Q :=
  (fun v => default 0%Q (qs !! (3 * v + j))) <$> seq 0 (length qs / 3).

Definition axis_min (b : bbox) (j : nat) : num :=
  match j with
  | 0 => minX b
  | 1 => minY b
  | _ => minZ b
  end.

Definition axis_max (b : bbox) (j : nat) : num :=
  match j with
  | 0 => maxX b
  | 1 => maxY b
  | _ => maxZ b
  end.

(** A triangle, and a segment along the x axis. *)
Definition triangle : list Q := [0; 0; 0;  1; 0; 0;  0; 1; 0]%Q.

Definition segment : list Q := [0; 0; 0;  1; 0; 0]%Q.

(** A store with two arrays. *)
Definition sample_store : gmap loc (list num) :=
  <[1%positive := Fin <$> triangle]> (<[2%positive := [q 7]]> ∅).

(** The two exceptions [loadGLB] throws on a container it does not
    recognise. *)
Definition FormatError (e : exn) : Prop :=
  e = Error "Not a valid GLB file" \/ e = Error "Invalid GLB format".

(** The index accessor of a primitive and the byte offset of its data. *)
Definition indexOffset (binaryOffset : nat) (bv : bufferView) (acc : accessor)
  : nat :=
  binaryOffset + (default 0 (bv_byteOffset bv) + default 0 (acc_byteOffset acc)).

(** A document with one primitive: one vertex, and three indices whose
    accessor has component type 5121 (unsigned byte). *)
Definition byte_indexed_gltf : gltf :=
  Gltf (Some [Mesh [Primitive (Some 0) (Some 1)]])
       [Accessor (Some 0) None 1 5126; Accessor (Some 1) None 3 5121]
       [BufferView (Some 0); BufferView (Some 12)].

(** A container around it: header, a JSON chunk of four bytes, a binary
    chunk of fifteen bytes (one vertex at the origin, three byte indices). *)
Definition byte_indexed_glb : list Byte.byte :=
  let z := Byte.x00 in
  [Byte.x67; Byte.x6c; Byte.x54; Byte.x46;  Byte.x02; z; z; z;
   Byte.x2f; z; z; z;
   Byte.x04; z; z; z;  Byte.x4a; Byte.x53; Byte.x4f; Byte.x4e;
   Byte.x7b; Byte.x7d; Byte.x20; Byte.x20;
   Byte.x0f; z; z; z;  Byte.x42; Byte.x49; Byte.x4e; z;
   z; z; z; z;  z; z; z; z;  z; z; z; z;
   z; z; z].

Definition bad_magic : list Byte.byte :=
  [Byte.x67; Byte.x6c; Byte.x54; Byte.x47].

(** The same state with other values of [morphProgress] and [isMorphing]. *)
Definition with_morph (p : num) (b : bool) (s : sched) : sched :=
  Sched (position_array s) (targetPosition_array s) (originalPosition_array s)
        (needsUpdate s) p (ripplePhase s) (frameCount s)
        (localCurrentShape s) b (lastViewMode s)
        (viewMorphProgress s) (isViewMorphing s) (currentShape s).

(** A shape morph half way, and the "about" button pressed. *)
Definition mid_morph : sched :=
  Sched [q 1; q 2; q 3] [q 2; q 4; q 6] [q 0; q 0; q 0] true
        half zero 60 1 true objects zero false 1.

Definition about_pressed : refs :=
  Refs about [Model [q 0; q 0; q 0] (Some 1); Model [q 2; q 4; q 6] (Some 1)]
       (Model [q 9; q 9; q 9] (Some 1)).

(** The quad as a document and as a container: four vertices as float32
    triples, then six 16-bit indices at byte offset 48 of the binary chunk. *)
Definition quad_gltf : gltf :=
  Gltf (Some [Mesh [Primitive (Some 0) (Some 1)]])
       [Accessor (Some 0) None 4 5126; Accessor (Some 1) None 6 5123]
       [BufferView None; BufferView (Some 48)].

Definition quad_glb : list Byte.byte :=
  let z := Byte.x00 in
  let f0 := [z; z; z; z] in
  let f1 := [z; z; Byte.x80; Byte.x3f] in
  [Byte.x67; Byte.x6c; Byte.x54; Byte.x46;  Byte.x02; z; z; z;
   Byte.x5c; z; z; z;
   Byte.x04; z; z; z;  Byte.x4a; Byte.x53; Byte.x4f; Byte.x4e;
   Byte.x7b; Byte.x7d; Byte.x20; Byte.x20;
   Byte.x3c; z; z; z;  Byte.x42; Byte.x49; Byte.x4e; z]
  ++ f0 ++ f0 ++ f0 ++ f1 ++ f0 ++ f0 ++ f0 ++ f1 ++ f0 ++ f1 ++ f1 ++ f0
  ++ [z; z;  Byte.x01; z;  Byte.x02; z;  Byte.x02; z;  Byte.x01; z;
      Byte.x03; z].

(** A document whose second primitive names an accessor that does not
    exist. *)
Definition broken_gltf : gltf :=
  Gltf (Some [Mesh [Primitive (Some 0) (Some 1); Primitive (Some 7) None]])
       [Accessor (Some 0) None 4 5126; Accessor (Some 1) None 6 5123]
       [BufferView None; BufferView (Some 48)].

(** Number of vertices a primitive contributes to the combined model. *)
Definition mesh_vertices (md : meshData) : nat :=
  match md_indices md with
  | Some indices => length indices
  | None => vertices (md_positions md)
  end.

(** A triangle whose last index is out of range. *)
Definition stray_index : meshData :=
  MeshData [q 0; q 0; q 0;  q 1; q 0; q 0;  q 0; q 1; q 0] (Some [0; 1; 5]).

(** Three coincident vertices. *)
Definition point3 : list Q := [1; 2; 3;  1; 2; 3;  1; 2; 3]%Q.
(** A mesh without vertices beside a triangle. *)
Definition with_empty_mesh : list model :=
  [Model [] None; Model (Fin <$> triangle) None].

(** ** [generateFallbackShape] and the loading part of [init] *)

Definition segments : nat := 32.

Definition of_nat (n : nat) : num := Fin (inject_Z (Z.of_nat n)).

Section Init.

(** [Math.sin], [Math.cos] and [Math.PI] of the host, and [JSON.parse]. *)
Variables Math_sin Math_cos : num -> num.
Variable Math_PI : num.
Variable JSON_parse : list Z -> result gltf.

(** The three numbers pushed by one pass of the inner loop. *)
Definition fallback_vertex (i j : nat) : list num :=
  let u := (of_nat i / of_nat segments * Math_PI * Fin 2)%num in
  let v := (of_nat j / of_nat segments * Math_PI)%num in
  [(Math_sin v * Math_cos u * Fin (3 # 2))%num;
   (Math_sin v * Math_sin u * Fin (3 # 2))%num;
   (Math_cos v * Fin (3 # 2))%num].

Definition generateFallbackShape : list num :=
  foldl (fun positions i =>
           foldl (fun positions j => positions ++ fallback_vertex i j)
             positions (seq 0 (segments + 1)))
    [] (seq 0 (segments + 1)).

(** [loadGLB(url)] from the outcome of the fetch on: [fetch] and
    [arrayBuffer] are inside the [try] of [loadGLB]. *)
Definition loadGLB_url (fetched : result (list Byte.byte))
  : result (list meshData) :=
  arrayBuffer ← fetched; loadGLB JSON_parse arrayBuffer.

(** One pass of the loop over [glbUrls]: the model pushed on
    [loadedModels], the fallback when anything in the [try] throws. *)
Definition loadModel (fetched : result (list Byte.byte)) : model :=
  match loadGLB_url fetched with
  | Ok meshes =>
      Model (normalizeGeometry (flattenMeshes meshes) (Fin (5 # 2))) None
  | Throw _ => Model generateFallbackShape None
  end.

(** "Load scroll model": [scrollModelRef.current] after the [try], [null]
    when the load threw. *)
Definition loadScroll (fetched : result (list Byte.byte)) : option model :=
  match loadGLB_url fetched with
  | Ok meshes =>
      Some (Model (normalizeGeometry (flattenMeshes meshes) (Fin (7 # 2))) None)
  | Throw _ => None
  end.

(** [expandToMaxVertices] called on an array that may hold [null]:
    [m.positions] throws a TypeError on it. *)
Definition expandToMaxVertices_refs (models : list (option model))
  : result (list model) :=
  models ← mapM defined models; Ok (expandToMaxVertices models).

(** The geometry created from the first model and the animation variables
    at their initial values. *)
Definition initial_sched (first : model) : sched :=
  Sched (positions first) (positions first) (positions first) false
        zero zero 0 0 false objects zero false 0.

(** [init] from the outcomes of the fetches to the first call of [animate]:
    the refs and the scheduler state it leaves, or the exception caught at
    its end.  The expanded array is never empty here, so reading its first
    and last element is always defined. *)
Definition init (glbs : list (result (list Byte.byte)))
    (scroll : result (list Byte.byte)) : result (refs * sched) :=
  let loadedModels := loadModel <$> glbs in
  if length loadedModels =? 0 then
    Throw (Error "No models loaded successfully")
  else
    let scrollModel := loadScroll scroll in
    expandedModels ←
      expandToMaxVertices_refs ((Some <$> loadedModels) ++ [scrollModel]);
    first ← defined (expandedModels !! 0);
    last ← defined (expandedModels !! (length expandedModels - 1));
    Ok (Refs objects (take (length expandedModels - 1) expandedModels) last,
        initial_sched first).

End Init.

(** The position buffers and the meshes they are filled from all have the
    same length. *)
Definition buffers_fit (r : refs) (s : sched) : Prop :=
  length (targetPosition_array s) = length (position_array s) /\
  length (originalPosition_array s) = length (position_array s) /\
  Forall (fun m => length (positions m) = length (position_array s))
    (scrollModelRef r :: modelDataRef r).

(** The refs after a press of the button of [mode]. *)
Definition press (r : refs) (mode : viewMode) : refs := handleButtonClick mode r.

Section Run.

Variables Math_sin Math_sqrt : num -> num.

(** Frames with button presses in between: before each frame the buttons
    of [clicks] are pressed in order.  [animate] asks for the next frame
    before anything else, so a frame that throws does not end the loop:
    the next frame starts from the state left at the throw.  The result has
    the exceptions of the frames in order. *)
Fixpoint run (frames : list (list viewMode)) (r : refs) (s : sched)
  : refs * sched * list exn :=
  match frames with
  | [] => (r, s, [])
  | clicks :: frames =>
      let r := foldl press r clicks in
      let (s, e) := animate Math_sin Math_sqrt r s in
      let '(r, s, es) := run frames r s in
      (r, s, option_list e ++ es)
  end.

End Run.

(** What the morph and ripple blocks leave as it is: the two other
    buffers, the counters and the length of the position buffer. *)
Definition same_plan (s s' : sched) : Prop :=
  targetPosition_array s' = targetPosition_array s /\
  originalPosition_array s' = originalPosition_array s /\
  frameCount s' = frameCount s /\
  localCurrentShape s' = localCurrentShape s /\
  lastViewMode s' = lastViewMode s /\
  currentShape s' = currentShape s /\
  length (position_array s') = length (position_array s).

(** The frames of the shape rotation: in [objects] mode, every
    [shapeChangeInterval] frames, with more than one model. *)
Definition rotates (r : refs) (s : sched) : bool :=
  (S (frameCount s) mod shapeChangeInterval =? 0)
  && (1 <? length (modelDataRef r)).

(** A frame in which nothing moves: the frame is counted and the ripple
    phase advances. *)
Definition tick (s : sched) : sched :=
  Sched (position_array s) (targetPosition_array s)
        (originalPosition_array s) (needsUpdate s)
        (morphProgress s) (ripplePhase s + Fin (5 # 100))%num
        (S (frameCount s)) (localCurrentShape s) (isMorphing s)
        (lastViewMode s) (viewMorphProgress s) (isViewMorphing s)
        (currentShape s).

(** Frames without a rotation ahead: fewer than remain of the current
    interval, or a single model. *)
Definition before_rotation (r : refs) (s : sched) (n : nat) : Prop :=
  frameCount s mod shapeChangeInterval + n < shapeChangeInterval \/
  length (modelDataRef r) <= 1.

(** ** The text panel: [handleButtonClick] and [handleScrollButtonClick]

    The text meshes are objects shared by [textMeshes] and [textMeshRef]:
    each is named by a location, and the opacity of its material is held in
    a store.  [textIndex.current] is a number: a natural number or NaN,
    which [x % 0] yields.  The panel holds what the two handlers read;
    [setCurrentViewMode] only feeds the rendering. *)

Module Panel.

Inductive direction : Type := previous | next.

(** [textMap[mode]], [undefined] as [None] for the views without text. *)
Definition textMap (mode : viewMode) : option nat :=
  match mode with
  | about => Some 0
  | CV => Some 1
  | projects => Some 2
  | objects | icons => None
  end.

Record panel : Type := Panel {
  viewModeRef : viewMode;
  textIndex : option nat;
  textMeshRef : option loc;
  textMeshes : list (list loc);
  opacity : loc -> num
}.

(** "Fade out text": [if (textMeshRef.current &&
    textMeshRef.current.material.opacity > 0)
    textMeshRef.current.material.opacity = 0]. *)
Definition fadeOut (p : panel) : loc -> num :=
  match textMeshRef p with
  | Some l =>
      if ngtb (opacity p l) zero
      then fun l' => if decide (l' = l) then zero else opacity p l'
      else opacity p
  | None => opacity p
  end.

(** [textMeshes[textMap[mode]]], [undefined] as [None]. *)
Definition group (p : panel) (mode : viewMode) : option (list loc) :=
  g ← textMap mode; textMeshes p !! g.

(** [textMeshes[...][i]] for a number [i]. *)
Definition entry (g : list loc) (i : option nat) : option loc :=
  i ← i; g !! i.

(** [x % len] for [x] not negative. *)
Definition rem (x : option nat) (len : nat) : option nat :=
  match x with
  | Some v => if len =? 0 then None else Some (v mod len)
  | None => None
  end.

(** [x - 1] for [x] other than 0, and [x + 1]. *)
Definition dec (x : option nat) : option nat := Nat.pred <$> x.
Definition inc (x : option nat) : option nat := S <$> x.

(** [x === len - 1]. *)
Definition is_last (x : option nat) (len : nat) : bool :=
  match x with
  | Some v => (Z.of_nat v =? Z.of_nat len - 1)%Z
  | None => false
  end.

(** [x === 0]. *)
Definition is_zero (x : option nat) : bool :=
  match x with
  | Some 0 => true
  | _ => false
  end.

Definition handleButtonClick (mode : viewMode) (p : panel)
  : panel * option exn :=
  if bool_decide (viewModeRef p = mode) && negb (bool_decide (mode = objects))
  then
    (Panel objects (textIndex p) (textMeshRef p) (textMeshes p) (opacity p),
     None)
  else if negb (bool_decide (mode = objects))
          && negb (bool_decide (mode = icons))
  then
    match group p mode with
    | Some g =>
        (Panel mode (textIndex p) (g !! 0) (textMeshes p) (fadeOut p), None)
    | None =>
        (Panel mode (textIndex p) (textMeshRef p) (textMeshes p) (fadeOut p),
         Some TypeError)
    end
  else
    (Panel mode (textIndex p) (textMeshRef p) (textMeshes p) (opacity p),
     None).

(** The end of [handleScrollButtonClick], reached with the new index: the
    text shown fades out and the entry at the index is shown. *)
Definition showEntry (g : list loc) (i : option nat) (p : panel) : panel :=
  Panel (viewModeRef p) i (entry g i) (textMeshes p) (fadeOut p).

Definition handleScrollButtonClick (d : direction) (p : panel)
  : panel * option exn :=
  match d with
  | previous =>
      if is_zero (textIndex p) then (p, None)
      else
        match group p (viewModeRef p) with
        | Some g => (showEntry g (rem (dec (textIndex p)) (length g)) p, None)
        | None => (p, Some TypeError)
        end
  | next =>
      match group p (viewModeRef p) with
      | Some g =>
          if is_last (textIndex p) (length g) then (p, None)
          else (showEntry g (rem (inc (textIndex p)) (length g)) p, None)
      | None => (p, Some TypeError)
      end
  end.

(** The indices the clicks on the arrows aim at, inside a group of [len]
    entries. *)
Definition move (d : direction) (i len : nat) : nat :=
  match d with
  | previous => i - 1
  | next => if i + 1 <? len then i + 1 else i
  end.

End Panel.

(** The text meshes as [init] builds them: one for "about", four for "CV",
    one for "projects". *)
Definition built_textMeshes : list (list loc) :=
  [[1%positive]; [2%positive; 3%positive; 4%positive; 5%positive];
   [6%positive]].

(** The CV view at its last entry, shown at full opacity. *)
Definition cv_last : Panel.panel :=
  Panel.Panel CV (Some 3) (Some 5%positive) built_textMeshes (fun _ => one).

(** The shape rotation of two models, in [objects] mode. *)
Definition two_shapes : refs :=
  Refs objects [Model [q 0; q 0; q 0] (Some 1); Model [q 2; q 4; q 6] (Some 1)]
       (Model [q 9; q 9; q 9] (Some 1)).

(** ** The text opacity in [animate] *)

(** [mesh.material.opacity = v] for the mesh at [l]. *)
Definition setOpacity (l : loc) (v : num) (opacity : loc -> num) : loc -> num :=
  fun l' => if decide (l' = l) then v else opacity l'.

(** The text part of the head of [animate]: in [objects] mode the text
    shown fades out by 0.02 while its opacity is positive; in every other
    view it fades in by 0.01 while its opacity is below 1. *)
Definition animateText (p : Panel.panel) : Panel.panel :=
  match Panel.textMeshRef p with
  | Some l =>
      let o := Panel.opacity p l in
      match Panel.viewModeRef p with
      | objects =>
          if ngtb o zero
          then Panel.Panel (Panel.viewModeRef p) (Panel.textIndex p)
                 (Panel.textMeshRef p) (Panel.textMeshes p)
                 (setOpacity l (o - Fin (2 # 100))%num (Panel.opacity p))
          else p
      | about | projects | icons | CV =>
          if nltb o one
          then Panel.Panel (Panel.viewModeRef p) (Panel.textIndex p)
                 (Panel.textMeshRef p) (Panel.textMeshes p)
                 (setOpacity l (o + Fin (1 # 100))%num (Panel.opacity p))
          else p
      end
  | None => p
  end.

(** What happens to the panel: a click on a view button, a click on an
    arrow, a frame.  A handler that throws leaves the panel as it is at the
    throw. *)
Inductive panel_event : Type :=
  | Click (mode : viewMode)
  | Arrow (d : Panel.direction)
  | Frame.

Definition panel_step (p : Panel.panel) (e : panel_event) : Panel.panel :=
  match e with
  | Click mode => (Panel.handleButtonClick mode p).1
  | Arrow d => (Panel.handleScrollButtonClick d p).1
  | Frame => animateText p
  end.

(** Every opacity is a number between -0.02 and 1.01, and no text mesh
    other than the one shown has a positive opacity. *)
Definition opacity_ok (p : Panel.panel) : Prop :=
  forall l, exists o : Q,
    Panel.opacity p l = Fin o /\
    (- (2 # 100) <= o <= 1 + (1 # 100))%Q /\
    (Panel.textMeshRef p <> Some l -> (o <= 0)%Q).

(** A panel showing the first CV entry half faded in. *)
Definition cv_first : Panel.panel :=
  Panel.Panel CV (Some 0) (Some 2%positive) built_textMeshes
    (fun l => if decide (l = 2%positive) then half else zero).

(** * IEEE 754 arithmetic

    JavaScript numbers are binary64 values and every arithmetic operation
    returns the exact result rounded to the nearest binary64 value, ties
    to even; a store into a [Float32Array] rounds to the nearest binary32
    value.  The value of a number is kept as before, an exact rational or
    one of NaN and the infinities; the sign of a zero is not kept, which
    no operation of this program can observe (there is no division by a
    computed negative zero). *)

Definition pow2 (e : Z) : Q := (2 ^ e)%Q.

(** The exponent of the binade of a number other than 0:
    [2 ^ ilog2 q <= |q| < 2 ^ (ilog2 q + 1)]. *)
Definition ilog2 (q : Q) : Z :=
  let n := Z.abs (Qnum q) in
  let d := Z.pos (Qden q) in
  let k := (Z.log2 n - Z.log2 d)%Z in
  if (0 <=? k)%Z
  then (if (d * 2 ^ k <=? n)%Z then k else k - 1)%Z
  else (if (d <=? n * 2 ^ (- k))%Z then k else k - 1)%Z.

(** The nearest integer, the even one of two that are equally near. *)
Definition rne (q : Q) : Z :=
  let f := Qfloor q in
  match (q - inject_Z f ?= 1 # 2)%Q with
  | Lt => f
  | Gt => (f + 1)%Z
  | Eq => if Z.even f then f else (f + 1)%Z
  end.

(** A binary format: the number of bits of the significand, the exponent
    of the least positive number and the exponent of the least power of 2
    that is too large. *)
Record format : Type := Format { prec : Z; emin : Z; emax : Z }.

Definition binary64 : format := Format 53 (-1074) 1024.
Definition binary32 : format := Format 24 (-149) 128.

(** The exponent of the last place of the numbers of a format near [q]. *)
Definition uexp (f : format) (q : Q) : Z :=
  Z.max (ilog2 q - prec f + 1) (emin f).

(** The nearest number with [prec f] significant bits and exponent at
    least [emin f]. *)
Definition rnd (f : format) (q : Q) : Q :=
  if Qeq_bool q 0 then 0%Q
  else (inject_Z (rne (q / pow2 (uexp f q))) * pow2 (uexp f q))%Q.

(** Rounding to a format: the nearest number, an infinity when that is
    too large. *)
Definition round (f : format) (q : Q) : num :=
  let r := rnd f q in
  if Qle_bool (pow2 (emax f)) (Qabs r)
  then (if Qle_bool 0 q then PosInf else NegInf)
  else Fin (Qred r).

Definition fl (f : format) (x : num) : num :=
  match x with
  | Fin q => round f q
  | NaN | NegInf | PosInf => x
  end.

(** The numbers of a format. *)
Definition is_value (f : format) (q : Q) : Prop :=
  exists m e : Z,
    (q == inject_Z m * pow2 e)%Q /\
    (Z.abs m < 2 ^ prec f)%Z /\ (emin f <= e)%Z /\
    (Qabs q < pow2 (emax f))%Q.

Module IEEE.

(** The arithmetic operators, a numeric literal of the source text and a
    store into a [Float32Array]. *)
Definition add (x y : num) : num := fl binary64 (x + y)%num.
Definition sub (x y : num) : num := fl binary64 (x - y)%num.
Definition mul (x y : num) : num := fl binary64 (x * y)%num.
Definition div (x y : num) : num := fl binary64 (x / y)%num.
Definition lit (q : Q) : num := round binary64 q.
Definition store (x : num) : num := fl binary32 x.

(** ** [normalizeGeometry]

    The bounding box is found with [Math.min] and [Math.max], which do
    not round: it is [bounds] as before. *)

Definition centerX (b : bbox) : num := div (add (minX b) (maxX b)) two.
Definition centerY (b : bbox) : num := div (add (minY b) (maxY b)) two.
Definition centerZ (b : bbox) : num := div (add (minZ b) (maxZ b)) two.

Definition extentX (b : bbox) : num := sub (maxX b) (minX b).
Definition extentY (b : bbox) : num := sub (maxY b) (minY b).
Definition extentZ (b : bbox) : num := sub (maxZ b) (minZ b).

Definition bbox_scale (b : bbox) : num :=
  Math_max (Math_max (extentX b) (extentY b)) (extentZ b).

Definition normalize_step (pos : list num) (b : bbox) (size : num)
    (normalized : list num) (i : nat) : list num :=
  let scale := bbox_scale b in
  <[i + 2 := store (mul (div (sub (get pos (i + 2)) (centerZ b)) scale) size)]>
    (<[i + 1 := store (mul (div (sub (get pos (i + 1)) (centerY b)) scale) size)]>
      (<[i := store (mul (div (sub (get pos i) (centerX b)) scale) size)]>
         normalized)).

Definition normalizeGeometry (pos : list num) (size : num) : list num :=
  let b := bounds pos in
  let normalized := new_Float32Array (length pos) in
  foldl (normalize_step pos b size) normalized (stride3 (length pos)).

Definition axis_center (b : bbox) (j : nat) : num :=
  match j with
  | 0 => centerX b
  | 1 => centerY b
  | _ => centerZ b
  end.

(** The value [normalizeGeometry] stores at index [k]. *)
Definition normalized_at (pos : list num) (size : num) (k : nat) : num :=
  store (mul (div (sub (get pos k) (axis_center (bounds pos) (k mod 3)))
                (bbox_scale (bounds pos))) size).

(** ** The morph blocks of [animate] *)

(** [Math.pow(x, 2)], taken to be the square rounded once.  (The results
    below that go through it, the eased fractions at the progress 1 and
    after 120 and 121 steps, are the same for any [pow] that is off by
    less than one unit in the last place.) *)
Definition Math_pow2 (x : num) : num := mul x x.

Definition eased (p : num) : num :=
  if nltb p half then mul (mul two p) p
  else sub one (div (Math_pow2 (add (mul (nneg two) p) two)) two).

Definition interpolate_step (orig target : list num) (e : num)
    (pos : list num) (i : nat) : list num :=
  <[i + 2 := store (add (get orig (i + 2))
                      (mul (sub (get target (i + 2)) (get orig (i + 2))) e))]>
    (<[i + 1 := store (add (get orig (i + 1))
                         (mul (sub (get target (i + 1)) (get orig (i + 1))) e))]>
      (<[i := store (add (get orig i)
                       (mul (sub (get target i) (get orig i)) e))]> pos)).

Definition interpolate (pos orig target : list num) (e : num) : list num :=
  foldl (interpolate_step orig target e) pos (stride3 (length pos)).

(** [morphProgress += 1 / morphDuration]. *)
Definition advance (p : num) : num := add p (div one morphDuration).

Definition viewMorphStep (s : sched) : sched :=
  if isViewMorphing s && nltb (viewMorphProgress s) one then
    let p := advance (viewMorphProgress s) in
    Sched (interpolate (position_array s) (originalPosition_array s)
             (targetPosition_array s) (eased p))
          (targetPosition_array s) (originalPosition_array s) true
          (morphProgress s) (ripplePhase s) (frameCount s)
          (localCurrentShape s) (isMorphing s) (lastViewMode s)
          p (if ngeb p one then false else isViewMorphing s)
          (currentShape s)
  else s.

Definition morphStep (s : sched) : sched :=
  if isMorphing s && nltb (morphProgress s) one && negb (isViewMorphing s) then
    let p := advance (morphProgress s) in
    Sched (interpolate (position_array s) (originalPosition_array s)
             (targetPosition_array s) (eased p))
          (targetPosition_array s) (originalPosition_array s) true
          p (ripplePhase s) (frameCount s)
          (localCurrentShape s) (if ngeb p one then false else isMorphing s)
          (lastViewMode s) (viewMorphProgress s) (isViewMorphing s)
          (currentShape s)
  else s.

Section Ripple.

(** [Math.sin] and [Math.sqrt] of the host. *)
Variables Math_sin Math_sqrt : num -> num.

(** [Math.sin(dist * 5 - ripplePhase * 3) * 0.05 * (1 - activeProgress)]
    for a vertex [(x, y, z)]. *)
Definition ripple_of (phase progress x y z : num) : num :=
  let dist := Math_sqrt (add (add (mul x x) (mul y y)) (mul z z)) in
  mul (mul (Math_sin (sub (mul dist (Fin 5)) (mul phase (Fin 3))))
         (lit (5 # 100)))
      (sub one progress).

Definition ripple_step (phase progress : num) (pos : list num) (i : nat)
  : list num :=
  let x := get pos i in
  let y := get pos (i + 1) in
  let z := get pos (i + 2) in
  let ripple := ripple_of phase progress x y z in
  <[i + 2 := store (add (get pos (i + 2)) (mul z ripple))]>
    (<[i + 1 := store (add (get pos (i + 1)) (mul y ripple))]>
      (<[i := store (add (get pos i) (mul x ripple))]> pos)).

Definition rippleStep (s : sched) : sched :=
  let phase := add (ripplePhase s) (lit (5 # 100)) in
  if rippleActive s then
    Sched (foldl (ripple_step phase (activeProgress s)) (position_array s)
             (stride3 (length (position_array s))))
          (targetPosition_array s) (originalPosition_array s) true
          (morphProgress s) phase (frameCount s)
          (localCurrentShape s) (isMorphing s) (lastViewMode s)
          (viewMorphProgress s) (isViewMorphing s) (currentShape s)
  else
    Sched (position_array s) (targetPosition_array s)
          (originalPosition_array s) (needsUpdate s)
          (morphProgress s) phase (frameCount s)
          (localCurrentShape s) (isMorphing s) (lastViewMode s)
          (viewMorphProgress s) (isViewMorphing s) (currentShape s).

(** One call of [animate], from [frameCount++] to the ripple. *)
Definition animate (r : refs) (s : sched) : sched * option exn :=
  match triggerStep r (viewMorphStep (countFrame s)) with
  | (s', Some e) => (s', Some e)
  | (s', None) => (rippleStep (morphStep s'), None)
  end.

(** The part of a frame after the trigger. *)
Definition morphFrame (s : sched) : sched := rippleStep (morphStep s).

End Ripple.

End IEEE.

(** The value stored for a coordinate [p] of an axis with centre [c],
    for the divisor [s] and the size [S], and the same as a function of
    the distance to the centre, without the intermediate normal forms. *)
Definition elemQ (c s S p : Q) : Q :=
  Qred (rnd binary32
          (Qred (rnd binary64
                   (Qred (rnd binary64 (Qred (rnd binary64 (p + - c)) / s))
                    * S)))).

Definition scaled (s S x : Q) : Q :=
  rnd binary32 (rnd binary64 (rnd binary64 (rnd binary64 x / s) * S)).

(** One of three, by axis. *)
Definition by_axis {A : Type} (x y z : A) (j : nat) : A :=
  match j with
  | 0 => x
  | 1 => y
  | _ => z
  end.

(** The numbers stored by [normalizeGeometry] for the centres [c], the
    divisor [s] and the size [S]. *)
Definition normalizedQ (c : nat -> Q) (s S : Q) (qs : list Q) : list Q :=
  (fun k => elemQ (c (k mod 3)) s S (default 0%Q (qs !! k)))
    <$> seq 0 (length qs).

(** The binary32 number nearest to 0.1 and to 0.3. *)
Definition f32_tenth : Q := 13421773 # 134217728.
Definition f32_three_tenths : Q := 5033165 # 16777216.

(** Three vertices with binary32 coordinates. *)
Definition wedge : list Q :=
  [f32_tenth; 0; 0;  1; 1 # 2; 0;  1 # 4; - (3 # 4); f32_three_tenths]%Q.

(** Two vertices with binary32 coordinates; the sum of the two y
    coordinates, 0x1.9dfep-41 and 0x1.3b90d4p-3, is not a binary64
    number. *)
Definition skew_segment : list Q :=
  [- (13883591 # 2097152); 52991 # 72057594037927936; 0;
   - (14601687 # 4194304); 5170229 # 33554432; 0]%Q.

(** A vertex at infinity, as a GLB file can hold it. *)
Definition far_segment : list num := [PosInf; q 0; q 0;  q 0; q 0; q 0].

(** ** The course of a morph *)

(** The progress after [k] additions of [1 / morphDuration] to 0. *)
Definition progress_after (k : nat) : num := Nat.iter k IEEE.advance zero.

(** The number a morph block stores at index [k]. *)
Definition interpolated (orig target : list num) (e : num) (k : nat) : num :=
  IEEE.store
    (IEEE.add (get orig k) (IEEE.mul (IEEE.sub (get target k) (get orig k)) e)).

(** The number the ripple loop stores at index [k]: the coordinate, moved
    along itself by the ripple of its vertex. *)
Definition rippled (Math_sin Math_sqrt : num -> num) (phase progress : num)
    (pos : list num) (k : nat) : num :=
  let i := 3 * (k / 3) in
  IEEE.store
    (IEEE.add (get pos k)
       (IEEE.mul (get pos k)
          (IEEE.ripple_of Math_sin Math_sqrt phase progress
             (get pos i) (get pos (i + 1)) (get pos (i + 2))))).

(** [k] frames in which only the morph block and the ripple block act. *)
Definition ticks (Math_sin Math_sqrt : num -> num) (k : nat) (s : sched)
  : sched :=
  Nat.iter k (IEEE.morphFrame Math_sin Math_sqrt) s.

(** A shape morph as the trigger leaves it. *)
Definition started (s : sched) : Prop :=
  isMorphing s = true /\ isViewMorphing s = false /\ morphProgress s = zero.

(** One vertex on its way from the origin to (1, 0, 0), at the start. *)
Definition unit_morph : sched :=
  Sched [Fin 0; Fin 0; Fin 0] [Fin 1; Fin 0; Fin 0] [Fin 0; Fin 0; Fin 0]
        false zero zero 0 0 true about zero false 0.

(** The progress from which one more step gives exactly 1. *)
Definition before_one : num := IEEE.sub one (IEEE.div one morphDuration).

(** One vertex on its way from (1.25, 0, 0) to (2^-40 + 2^-63, 0, 0), and
    one on its way from NaN, as a degenerate mesh has it, to (1, 0, 0);
    both one step before the progress 1. *)
Definition small_target : sched :=
  Sched [Fin (5 # 4); Fin 0; Fin 0]
        [Fin (8388609 # 9223372036854775808); Fin 0; Fin 0]
        [Fin (5 # 4); Fin 0; Fin 0]
        false before_one zero 0 0 true about zero false 0.

Definition nan_origin : sched :=
  Sched [NaN; NaN; NaN] [Fin 1; Fin 0; Fin 0] [NaN; NaN; NaN]
        false before_one zero 0 0 true about zero false 0.

(** The check, along [n] steps from [p], that the progress is less than 1
    before a step and positive after it. *)
Fixpoint between (n : nat) (p : num) : bool :=
  match n with
  | 0 => true
  | S n =>
      ngtb (IEEE.advance p) zero && nltb p one && negb (ngeb p one)
      && between n (IEEE.advance p)
  end.

(** ** A GLB file with its document *)

(** The text of a glTF document for the quad, as the bytes of a JSON
    chunk, padded with spaces to a multiple of four.  With the quotes of
    its property names and strings left out it reads
      {asset:{version:2.0},
       buffers:[{byteLength:60}],
       bufferViews:[{buffer:0,byteLength:48},
                    {buffer:0,byteOffset:48,byteLength:12}],
       accessors:[{bufferView:0,componentType:5126,count:4,type:VEC3},
                  {bufferView:1,componentType:5123,count:6,type:SCALAR}],
       meshes:[{primitives:[{attributes:{POSITION:0},indices:1}]}]} *)
Definition quad_json : list Z :=
  [123; 34; 97; 115; 115; 101; 116; 34; 58; 123; 34; 118; 101; 114; 115; 105;
   111; 110; 34; 58; 34; 50; 46; 48; 34; 125; 44; 34; 98; 117; 102; 102;
   101; 114; 115; 34; 58; 91; 123; 34; 98; 121; 116; 101; 76; 101; 110; 103;
   116; 104; 34; 58; 54; 48; 125; 93; 44; 34; 98; 117; 102; 102; 101; 114;
   86; 105; 101; 119; 115; 34; 58; 91; 123; 34; 98; 117; 102; 102; 101; 114;
   34; 58; 48; 44; 34; 98; 121; 116; 101; 76; 101; 110; 103; 116; 104; 34;
   58; 52; 56; 125; 44; 123; 34; 98; 117; 102; 102; 101; 114; 34; 58; 48;
   44; 34; 98; 121; 116; 101; 79; 102; 102; 115; 101; 116; 34; 58; 52; 56;
   44; 34; 98; 121; 116; 101; 76; 101; 110; 103; 116; 104; 34; 58; 49; 50;
   125; 93; 44; 34; 97; 99; 99; 101; 115; 115; 111; 114; 115; 34; 58; 91;
   123; 34; 98; 117; 102; 102; 101; 114; 86; 105; 101; 119; 34; 58; 48; 44;
   34; 99; 111; 109; 112; 111; 110; 101; 110; 116; 84; 121; 112; 101; 34; 58;
   53; 49; 50; 54; 44; 34; 99; 111; 117; 110; 116; 34; 58; 52; 44; 34;
   116; 121; 112; 101; 34; 58; 34; 86; 69; 67; 51; 34; 125; 44; 123; 34;
   98; 117; 102; 102; 101; 114; 86; 105; 101; 119; 34; 58; 49; 44; 34; 99;
   111; 109; 112; 111; 110; 101; 110; 116; 84; 121; 112; 101; 34; 58; 53; 49;
   50; 51; 44; 34; 99; 111; 117; 110; 116; 34; 58; 54; 44; 34; 116; 121;
   112; 101; 34; 58; 34; 83; 67; 65; 76; 65; 82; 34; 125; 93; 44; 34;
   109; 101; 115; 104; 101; 115; 34; 58; 91; 123; 34; 112; 114; 105; 109; 105;
   116; 105; 118; 101; 115; 34; 58; 91; 123; 34; 97; 116; 116; 114; 105; 98;
   117; 116; 101; 115; 34; 58; 123; 34; 80; 79; 83; 73; 84; 73; 79; 78;
   34; 58; 48; 125; 44; 34; 105; 110; 100; 105; 99; 101; 115; 34; 58; 49;
   125; 93; 125; 93; 125; 32; 32; 32]%Z.

(** [JSON.parse] on that text, and a SyntaxError on any other. *)
Definition parse_quad (jsonData : list Z) : result gltf :=
  if decide (jsonData = quad_json) then Ok quad_gltf else Throw SyntaxError.

(** The four bytes of a 32-bit word, least significant first. *)
Definition byte_of (z : Z) : Byte.byte :=
  default Byte.x00 (Byte.of_N (Z.to_N (z mod 256))).

Definition le32 (w : Z) : list Byte.byte :=
  [byte_of w; byte_of (w / 256); byte_of (w / 65536); byte_of (w / 16777216)].

(** The quad as a GLB file: the header, the JSON chunk with [quad_json]
    and the binary chunk of [quad_glb]. *)
Definition quad_file : list Byte.byte :=
  le32 GLB_MAGIC ++ le32 2 ++ le32 (Z.of_nat (28 + length quad_json + 60))
  ++ le32 (Z.of_nat (length quad_json)) ++ le32 JSON_CHUNK
  ++ (byte_of <$> quad_json)
  ++ le32 60 ++ le32 0x004E4942 ++ drop 32 quad_glb.

(** ** The Standard Library's specification of floating-point numbers

    [SpecFloat] gives the operations of IEEE 754 on numbers held as a
    sign, a significand and an exponent; it is used here only to compare
    results with those of [round]. *)

(** The number a [spec_float] stands for. *)
Definition of_spec_float (x : SpecFloat.spec_float) : num :=
  match x with
  | SpecFloat.S754_zero _ => Fin 0
  | SpecFloat.S754_infinity s => if s then NegInf else PosInf
  | SpecFloat.S754_nan => NaN
  | SpecFloat.S754_finite s m e =>
      Fin (Qred ((if s then - (1) else 1) * inject_Z (Z.pos m) * pow2 e))
  end.

(** An integer as a binary64 number, the binary64 operations, and the
    conversion to binary32. *)
Definition spec_int (z : Z) : SpecFloat.spec_float :=
  SpecFloat.binary_normalize 53 1024 z 0 false.

Definition spec_add : SpecFloat.spec_float -> SpecFloat.spec_float
                      -> SpecFloat.spec_float := SpecFloat.SFadd 53 1024.
Definition spec_sub : SpecFloat.spec_float -> SpecFloat.spec_float
                      -> SpecFloat.spec_float := SpecFloat.SFsub 53 1024.
Definition spec_mul : SpecFloat.spec_float -> SpecFloat.spec_float
                      -> SpecFloat.spec_float := SpecFloat.SFmul 53 1024.
Definition spec_div : SpecFloat.spec_float -> SpecFloat.spec_float
                      -> SpecFloat.spec_float := SpecFloat.SFdiv 53 1024.

Definition spec_store (x : SpecFloat.spec_float) : SpecFloat.spec_float :=
  match x with
  | SpecFloat.S754_finite s m e =>
      SpecFloat.binary_normalize 24 128 (if s then Z.neg m else Z.pos m) e s
  | _ => x
  end.

(** * Properties *)

(** ** Reads and writes of typed arrays *)

Lemma get_lookup (a : list num) (i : nat) (x : num) :
  a !! i = Some x -> get a i = x.
Proof. unfold get. by intros ->. Qed.

Lemma lookup_get (a : list num) (i : nat) :
  i < length a -> a !! i = Some (get a i).
Proof.
  intros Hi. unfold get.
  destruct (lookup_lt_is_Some_2 a i Hi) as [x ->]. done.
Qed.

Lemma write3_length (g : nat -> num) (a : list num) (i : nat) :
  length (write3 g a i) = length a.
Proof. unfold write3. by rewrite !length_insert. Qed.

Lemma write3_lookup (g : nat -> num) (a : list num) (i k : nat) :
  write3 g a i !! k =
  if decide (i <= k < i + 3 /\ k < length a) then Some (g k) else a !! k.
Proof.
  unfold write3.
  destruct (decide (k = i + 2)) as [->|H2].
  { destruct (decide (i + 2 < length a)) as [Hl|Hl].
    - rewrite list_lookup_insert_eq by (by rewrite !length_insert).
      rewrite decide_True by lia. done.
    - rewrite list_insert_ge by (rewrite !length_insert; lia).
      rewrite !list_lookup_insert_ne by lia.
      rewrite decide_False by lia. done. }
  rewrite list_lookup_insert_ne by lia.
  destruct (decide (k = i + 1)) as [->|H1].
  { destruct (decide (i + 1 < length a)) as [Hl|Hl].
    - rewrite list_lookup_insert_eq by (by rewrite !length_insert).
      rewrite decide_True by lia. done.
    - rewrite list_insert_ge by (rewrite !length_insert; lia).
      rewrite !list_lookup_insert_ne by lia.
      rewrite decide_False by lia. done. }
  rewrite list_lookup_insert_ne by lia.
  destruct (decide (k = i)) as [->|H0].
  { destruct (decide (i < length a)) as [Hl|Hl].
    - rewrite list_lookup_insert_eq by done.
      rewrite decide_True by lia. done.
    - rewrite list_insert_ge by lia.
      rewrite decide_False by lia. done. }
  rewrite list_lookup_insert_ne by lia.
  rewrite decide_False by lia. done.
Qed.

(** A loop of [write3] over the vertices [a .. a + n - 1]. *)
Lemma fill3_length (g : nat -> num) (idx : list nat) (dst : list num) :
  length (foldl (write3 g) dst idx) = length dst.
Proof.
  revert dst. induction idx as [|i idx IH]; intros dst; simpl; [done|].
  by rewrite IH, write3_length.
Qed.

Lemma fill3_lookup (g : nat -> num) (n a : nat) (dst : list num) (k : nat) :
  foldl (write3 g) dst ((fun j => 3 * j) <$> seq a n) !! k =
  if decide (3 * a <= k < 3 * (a + n) /\ k < length dst)
  then Some (g k) else dst !! k.
Proof.
  revert a dst. induction n as [|n IH]; intros a dst; simpl.
  - rewrite decide_False by lia. done.
  - rewrite IH, write3_length, write3_lookup.
    repeat case_decide; try done; lia.
Qed.

Lemma stride3_covers (n k : nat) : k < n -> k < 3 * (0 + (n + 2) / 3).
Proof.
  intros Hk. pose proof (Nat.div_mod_eq (n + 2) 3) as H.
  pose proof (Nat.mod_upper_bound (n + 2) 3). lia.
Qed.

(** A loop over [stride3] rewrites the whole array. *)
Lemma fill3_stride3 (g : nat -> num) (dst : list num) :
  foldl (write3 g) dst (stride3 (length dst)) = g <$> seq 0 (length dst).
Proof.
  apply list_eq. intros k. unfold stride3. rewrite fill3_lookup.
  rewrite list_lookup_fmap.
  destruct (decide (k < length dst)) as [Hk|Hk].
  - rewrite decide_True by (pose proof (stride3_covers _ _ Hk); lia).
    by rewrite lookup_seq_lt.
  - rewrite decide_False by lia.
    rewrite lookup_seq_ge by lia. simpl. apply lookup_ge_None. lia.
Qed.

Lemma foldl_ext_in {A B : Type} (f g : A -> B -> A) (l : list B) (a : A) :
  (forall a x, x ∈ l -> f a x = g a x) -> foldl f a l = foldl g a l.
Proof.
  revert a. induction l as [|x l IH]; intros a H; simpl; [done|].
  rewrite H by left. apply IH. intros a' y Hy. apply H. by right.
Qed.

(** ** [expandToMaxVertices] *)

Lemma div3 (i j : nat) : j < 3 -> (3 * i + j) / 3 = i /\ (3 * i + j) mod 3 = j.
Proof.
  intros Hj. split.
  - symmetry. apply (Nat.div_unique _ 3 i j); lia.
  - symmetry. apply (Nat.mod_unique _ 3 i j); lia.
Qed.

Lemma flat_triples_length (a : list num) :
  flat_triples a -> length a = 3 * vertices a.
Proof.
  unfold flat_triples, vertices. intros H.
  pose proof (Nat.div_mod_eq (length a) 3). lia.
Qed.

Lemma copy_loop (src : list num) (f : nat -> nat) (a n : nat) (dst : list num) :
  foldl (fun arr i => copy_vertex src (f i * 3) (i * 3) arr) dst (seq a n) =
  foldl (write3 (fun k => get src (f (k / 3) * 3 + k mod 3))) dst
    ((fun j => 3 * j) <$> seq a n).
Proof.
  rewrite foldl_fmap. apply foldl_ext_in. intros arr i _.
  unfold copy_vertex, write3.
  replace (i * 3) with (3 * i) by lia.
  destruct (div3 i 0) as [D0 M0]; [lia|].
  destruct (div3 i 1) as [D1 M1]; [lia|].
  destruct (div3 i 2) as [D2 M2]; [lia|].
  rewrite Nat.add_0_r in D0, M0.
  rewrite D0, D1, D2, M0, M1, M2. by rewrite Nat.add_0_r.
Qed.

Lemma Math_max_of_ge (counts : list nat) (c : nat) :
  c ∈ counts -> c <= Math_max_of counts.
Proof.
  induction 1 as [c l|c d l _ IH]; simpl; lia.
Qed.

Lemma Math_max_of_in (counts : list nat) :
  counts <> [] -> Math_max_of counts ∈ counts.
Proof.
  induction counts as [|c l IH]; [done|]. intros _. simpl.
  destruct l as [|d l].
  - simpl. rewrite Nat.max_0_r. left.
  - destruct (Nat.max_spec c (Math_max_of (d :: l))) as [[_ ->]|[_ ->]].
    + right. by apply IH.
    + left.
Qed.

Lemma expandModel_length (M : nat) (m : model) :
  flat_triples (positions m) ->
  length (positions (expandModel M m)) = 3 * M.
Proof.
  intros Hflat. unfold expandModel.
  destruct (Nat.eqb_spec (length (positions m) / 3) M) as [HM|HM]; simpl.
  - rewrite <- HM. by apply flat_triples_length.
  - rewrite (copy_loop _ (fun i => i)), copy_loop, !fill3_length.
    unfold new_Float32Array. rewrite length_replicate. lia.
Qed.

Lemma expandModel_lookup (M : nat) (m : model) (k : nat) :
  flat_triples (positions m) -> vertices (positions m) <= M -> k < 3 * M ->
  positions (expandModel M m) !! k =
  Some (get (positions m) (source_index (vertices (positions m)) k)).
Proof.
  intros Hflat HM Hk. unfold expandModel, source_index.
  fold (vertices (positions m)). set (c := vertices (positions m)) in *.
  destruct (Nat.eqb_spec c M) as [HcM|HcM]; simpl.
  - rewrite decide_True by lia. apply lookup_get.
    rewrite (flat_triples_length _ Hflat). fold c. lia.
  - rewrite (copy_loop _ (fun i => i)), copy_loop.
    rewrite fill3_lookup, fill3_length, fill3_lookup.
    unfold new_Float32Array. rewrite length_replicate.
    assert (E : k / 3 * 3 + k mod 3 = k)
      by (pose proof (Nat.div_mod_eq k 3); lia).
    repeat case_decide; try lia; cbv beta; by rewrite ?E.
Qed.

Lemma expandModel_vertexCount (M : nat) (m : model) :
  vertexCount (expandModel M m) = Some (vertices (positions m)).
Proof. unfold expandModel, vertices. by case_match. Qed.

Lemma vertex_Some (a : list num) (i : nat) :
  3 * i + 2 < length a ->
  vertex a i = Some (get a (3 * i), get a (3 * i + 1), get a (3 * i + 2)).
Proof.
  intros H. unfold vertex. by rewrite !lookup_get by lia.
Qed.

Lemma expandToMaxVertices_lookup (models : list model) (k : nat) (m : model) :
  models !! k = Some m ->
  expandToMaxVertices models !! k =
  Some (expandModel
          (Math_max_of ((fun m => length (positions m) / 3) <$> models)) m).
Proof.
  intros Hk. unfold expandToMaxVertices. by rewrite list_lookup_fmap, Hk.
Qed.

Lemma vertices_le_max (models : list model) (m : model) :
  m ∈ models ->
  vertices (positions m) <=
  Math_max_of ((fun m => length (positions m) / 3) <$> models).
Proof.
  intros Hm. apply Math_max_of_ge.
  apply (list_elem_of_fmap_2 (fun m => length (positions m) / 3)), Hm.
Qed.

(** C1.  On meshes that are flat triple sequences with at least one vertex,
    every output of [expandToMaxVertices] has the same number of vertices,
    the maximum [M] of the numbers of vertices of the inputs; the vertices
    of an output below the original count are those of its input, and every
    vertex [i] from the original count on equals the output vertex
    [i mod originalCount]. *)
Theorem expandToMaxVertices_reconciles (models : list model) :
  Forall (fun m => flat_triples (positions m) /\ 1 <= vertices (positions m))
    models ->
  exists M : nat,
    (forall m, m ∈ models -> vertices (positions m) <= M) /\
    (models <> [] -> exists m, m ∈ models /\ vertices (positions m) = M) /\
    length (expandToMaxVertices models) = length models /\
    forall (k : nat) (m m' : model),
      models !! k = Some m ->
      expandToMaxVertices models !! k = Some m' ->
      flat_triples (positions m') /\
      vertices (positions m') = M /\
      (forall i, i < vertices (positions m) ->
         is_Some (vertex (positions m) i) /\
         vertex (positions m') i = vertex (positions m) i) /\
      (forall i, vertices (positions m) <= i < M ->
         is_Some (vertex (positions m') i) /\
         vertex (positions m') i =
         vertex (positions m') (i mod vertices (positions m))).
Proof.
  intros Hwf.
  exists (Math_max_of ((fun m => length (positions m) / 3) <$> models)).
  set (M := Math_max_of _).
  split; [intros m Hm; by apply vertices_le_max|].
  split.
  { intros Hne.
    assert (Hin : M ∈ (fun m => length (positions m) / 3) <$> models).
    { apply Math_max_of_in. by destruct models. }
    apply list_elem_of_fmap in Hin as (m & HM & Hm). by exists m. }
  split; [unfold expandToMaxVertices; by rewrite length_fmap|].
  intros k m m' Hk Hk'.
  rewrite (expandToMaxVertices_lookup _ _ _ Hk) in Hk'. fold M in Hk'.
  injection Hk' as <-.
  assert (Hm : m ∈ models) by (by eapply list_elem_of_lookup_2).
  rewrite Forall_forall in Hwf. destruct (Hwf m Hm) as [Hflat Hpos].
  pose proof (vertices_le_max _ _ Hm) as HcM. fold M in HcM.
  pose proof (expandModel_length M m Hflat) as Hlen.
  pose proof (flat_triples_length _ Hflat) as Hlen0.
  set (c := vertices (positions m)) in *.
  assert (Hread : forall j, j < 3 * M ->
    get (positions (expandModel M m)) j = get (positions m) (source_index c j)).
  { intros j Hj. apply get_lookup. by apply expandModel_lookup. }
  split; [unfold flat_triples; rewrite Hlen; by rewrite Nat.mul_comm, Nat.Div0.mod_mul|].
  split; [unfold vertices; rewrite Hlen; by rewrite Nat.mul_comm, Nat.div_mul|].
  split.
  - intros i Hi. rewrite (vertex_Some (positions m)) by lia.
    split; [done|]. rewrite vertex_Some by lia.
    rewrite !Hread by lia. unfold source_index.
    by rewrite !decide_True by lia.
  - intros i [Hci HiM].
    pose proof (Nat.mod_upper_bound i c ltac:(lia)) as Hmod.
    rewrite !vertex_Some by lia. split; [done|].
    rewrite !Hread by lia. unfold source_index.
    do 3 rewrite (decide_False (P := _ < 3 * c)) by lia.
    do 3 rewrite (decide_True (P := _ < 3 * c)) by lia.
    destruct (div3 i 0) as [D0 M0]; [lia|].
    destruct (div3 i 1) as [D1 M1]; [lia|].
    destruct (div3 i 2) as [D2 M2]; [lia|].
    rewrite Nat.add_0_r in D0, M0.
    rewrite D0, D1, D2, M0, M1, M2.
    generalize (i mod c). intros r.
    replace (r * 3 + 0) with (3 * r) by lia.
    replace (r * 3 + 1) with (3 * r + 1) by lia.
    by replace (r * 3 + 2) with (3 * r + 2) by lia.
Qed.

Lemma expandToMaxVertices_reconciles_witness :
  Forall (fun m => flat_triples (positions m) /\ 1 <= vertices (positions m))
    two_meshes /\
  exists M : nat,
    (forall m, m ∈ two_meshes -> vertices (positions m) <= M) /\
    (two_meshes <> [] ->
     exists m, m ∈ two_meshes /\ vertices (positions m) = M) /\
    length (expandToMaxVertices two_meshes) = length two_meshes /\
    forall (k : nat) (m m' : model),
      two_meshes !! k = Some m ->
      expandToMaxVertices two_meshes !! k = Some m' ->
      flat_triples (positions m') /\
      vertices (positions m') = M /\
      (forall i, i < vertices (positions m) ->
         is_Some (vertex (positions m) i) /\
         vertex (positions m') i = vertex (positions m) i) /\
      (forall i, vertices (positions m) <= i < M ->
         is_Some (vertex (positions m') i) /\
         vertex (positions m') i =
         vertex (positions m') (i mod vertices (positions m))).
Proof.
  assert (H : Forall (fun m => flat_triples (positions m)
                               /\ 1 <= vertices (positions m)) two_meshes).
  { repeat constructor. }
  split; [exact H | exact (expandToMaxVertices_reconciles two_meshes H)].
Defined.

(** C5 as stated fails: the [vertexCount] field of a padded mesh holds the
    number of vertices the mesh had before padding, so the padded position
    sequence is longer than three times that field. *)
Lemma vertexCount_times3_counterexample :
  ~ (forall (models : list model) (m' : model),
       Forall (fun m => flat_triples (positions m)
                        /\ 1 <= vertices (positions m)) models ->
       m' ∈ expandToMaxVertices models ->
       exists v, vertexCount m' = Some v /\ length (positions m') = v * 3).
Proof.
  intros H.
  destruct (H two_meshes
              (Model [q 0; q 0; q 0; q 0; q 0; q 0] (Some 1)))
    as (v & Hv & Hlen).
  - repeat constructor.
  - vm_compute. left.
  - simpl in Hv, Hlen. injection Hv as <-. discriminate Hlen.
Qed.

(** C5, amended.  Every mesh produced by [expandToMaxVertices] carries in
    [vertexCount] the number of vertices of its input, its position
    sequence has three elements for each of the [M] vertices of the largest
    input, and so is at least three times [vertexCount] long: padding never
    truncates. *)
Theorem expandToMaxVertices_vertexCount (models : list model) (k : nat)
    (m m' : model) :
  Forall (fun m => flat_triples (positions m)) models ->
  models !! k = Some m ->
  expandToMaxVertices models !! k = Some m' ->
  exists v M : nat,
    vertexCount m' = Some v /\
    v = vertices (positions m) /\
    M = Math_max_of ((fun m => length (positions m) / 3) <$> models) /\
    length (positions m') = M * 3 /\
    v <= M /\
    v * 3 <= length (positions m').
Proof.
  intros Hwf Hk Hk'.
  assert (Hm : m ∈ models) by (by eapply list_elem_of_lookup_2).
  pose proof (vertices_le_max _ _ Hm) as HcM.
  rewrite (expandToMaxVertices_lookup _ _ _ Hk) in Hk'.
  set (M := Math_max_of _) in *.
  assert (Hm' : m' = expandModel M m) by congruence. subst m'.
  rewrite Forall_forall in Hwf. pose proof (Hwf m Hm) as Hflat.
  exists (vertices (positions m)), M.
  split; [apply expandModel_vertexCount|].
  split; [done|]. split; [done|].
  rewrite expandModel_length by done. lia.
Qed.

Lemma expandToMaxVertices_vertexCount_witness :
  Forall (fun m => flat_triples (positions m)) two_meshes /\
  exists v M : nat,
    vertexCount (Model [q 0; q 0; q 0; q 0; q 0; q 0] (Some 1)) = Some v /\
    v = vertices [q 0; q 0; q 0] /\
    M = Math_max_of ((fun m => length (positions m) / 3) <$> two_meshes) /\
    length (positions (Model [q 0; q 0; q 0; q 0; q 0; q 0] (Some 1))) = M * 3 /\
    v <= M /\
    v * 3 <= length (positions (Model [q 0; q 0; q 0; q 0; q 0; q 0] (Some 1))).
Proof.
  assert (H : Forall (fun m => flat_triples (positions m)) two_meshes)
    by repeat constructor.
  split; [exact H|].
  exact (expandToMaxVertices_vertexCount two_meshes 0
           (Model [q 0; q 0; q 0] None)
           (Model [q 0; q 0; q 0; q 0; q 0; q 0] (Some 1))
           H eq_refl eq_refl).
Defined.

(** C9.  On meshes that all have the same number of vertices,
    [expandToMaxVertices] returns the positions of every mesh unchanged. *)
Theorem expandToMaxVertices_idempotent (models : list model) :
  Forall (fun m => flat_triples (positions m)) models ->
  (forall m1 m2, m1 ∈ models -> m2 ∈ models ->
     vertices (positions m1) = vertices (positions m2)) ->
  positions <$> expandToMaxVertices models = positions <$> models.
Proof.
  intros _ Hsame. apply list_eq. intros k.
  rewrite !list_lookup_fmap.
  destruct (models !! k) as [m|] eqn:Hk.
  - rewrite (expandToMaxVertices_lookup _ _ _ Hk).
    assert (Hm : m ∈ models) by (by eapply list_elem_of_lookup_2).
    pose proof (vertices_le_max _ _ Hm) as Hle.
    assert (Hin : Math_max_of ((fun m => length (positions m) / 3) <$> models)
                  ∈ (fun m => length (positions m) / 3) <$> models).
    { apply Math_max_of_in. by destruct models. }
    set (M := Math_max_of _) in *.
    apply list_elem_of_fmap in Hin as (m2 & HM & Hm2).
    pose proof (Hsame m m2 Hm Hm2) as E. unfold vertices in E, Hle.
    change (Some (positions (expandModel M m)) = Some (positions m)).
    unfold expandModel.
    replace (length (positions m) / 3 =? M) with true
      by (symmetry; apply Nat.eqb_eq; lia).
    done.
  - unfold expandToMaxVertices. by rewrite list_lookup_fmap, Hk.
Qed.

Lemma expandToMaxVertices_idempotent_witness :
  Forall (fun m => flat_triples (positions m)) same_count_meshes /\
  (forall m1 m2, m1 ∈ same_count_meshes -> m2 ∈ same_count_meshes ->
     vertices (positions m1) = vertices (positions m2)) /\
  positions <$> expandToMaxVertices same_count_meshes
  = positions <$> same_count_meshes.
Proof.
  assert (H1 : Forall (fun m => flat_triples (positions m)) same_count_meshes)
    by repeat constructor.
  assert (H2 : forall m1 m2, m1 ∈ same_count_meshes -> m2 ∈ same_count_meshes ->
     vertices (positions m1) = vertices (positions m2)).
  { intros m1 m2 Hm1 Hm2.
    apply list_elem_of_In in Hm1, Hm2. simpl in Hm1, Hm2.
    destruct Hm1 as [<-|[<-|[]]], Hm2 as [<-|[<-|[]]]; reflexivity. }
  split; [exact H1|]. split; [exact H2|].
  exact (expandToMaxVertices_idempotent same_count_meshes H1 H2).
Defined.

(** ** De-indexing *)

Lemma push_indexed (pos : list num) (indices : list nat) (acc : list num) :
  foldl (fun acc i =>
           let idx := i * 3 in
           acc ++ [get pos idx; get pos (idx + 1); get pos (idx + 2)])
    acc indices
  = acc ++ concat ((fun i => [get pos (i * 3); get pos (i * 3 + 1);
                               get pos (i * 3 + 2)]) <$> indices).
Proof.
  revert acc. induction indices as [|i indices IH]; intros acc; csimpl.
  - by rewrite app_nil_r.
  - rewrite IH. by rewrite <- app_assoc.
Qed.

Lemma concat_triples_length (f : nat -> list num) (l : list nat) :
  (forall i, length (f i) = 3) -> length (concat (f <$> l)) = 3 * length l.
Proof.
  intros Hf. induction l as [|i l IH]; csimpl; [done|].
  rewrite length_app, Hf, IH. lia.
Qed.

Lemma concat_triples_lookup (f : nat -> list num) (l : list nat)
    (i j idx : nat) :
  (forall i, length (f i) = 3) -> l !! i = Some idx -> j < 3 ->
  concat (f <$> l) !! (3 * i + j) = f idx !! j.
Proof.
  intros Hf. revert i. induction l as [|x l IH]; intros i Hi Hj; [done|].
  rewrite fmap_cons, concat_cons. destruct i as [|i]; simpl in Hi.
  - injection Hi as ->. replace (3 * 0 + j) with j by lia.
    by rewrite lookup_app_l by (rewrite Hf; lia).
  - rewrite lookup_app_r by (rewrite Hf; lia).
    rewrite Hf. replace (3 * S i + j - 3) with (3 * i + j) by lia.
    by apply IH.
Qed.

(** C7.  For a primitive with indices, all of them in range, the
    de-indexing loop yields three numbers for each index, and the [i]-th
    output vertex is the input vertex [positions[indices[i]]]. *)
Theorem deindex_vertices (md : meshData) (indices : list nat) :
  flat_triples (md_positions md) ->
  md_indices md = Some indices ->
  Forall (fun idx => idx < vertices (md_positions md)) indices ->
  length (flattenMeshes [md]) = 3 * length indices /\
  vertices (flattenMeshes [md]) = length indices /\
  forall i idx, indices !! i = Some idx ->
    is_Some (vertex (md_positions md) idx) /\
    vertex (flattenMeshes [md]) i = vertex (md_positions md) idx.
Proof.
  intros Hflat Hind Hrange.
  unfold flattenMeshes, pushMesh. simpl. rewrite Hind, push_indexed. simpl.
  set (f := fun i => [get (md_positions md) (i * 3);
                      get (md_positions md) (i * 3 + 1);
                      get (md_positions md) (i * 3 + 2)]).
  assert (Hf : forall i, length (f i) = 3) by done.
  pose proof (concat_triples_length f indices Hf) as Hlen.
  split; [done|].
  split; [unfold vertices; rewrite Hlen; by rewrite Nat.mul_comm, Nat.div_mul|].
  intros i idx Hi.
  rewrite Forall_forall in Hrange.
  assert (Hidx : idx < vertices (md_positions md)).
  { apply Hrange. by eapply list_elem_of_lookup_2. }
  pose proof (flat_triples_length _ Hflat) as Hlen0.
  rewrite (vertex_Some (md_positions md)) by lia. split; [done|].
  unfold vertex.
  replace (3 * i) with (3 * i + 0) at 1 by lia.
  rewrite !(concat_triples_lookup f indices i _ idx Hf Hi) by lia.
  simpl. by replace (idx * 3) with (3 * idx) by lia.
Qed.

Lemma deindex_vertices_witness :
  flat_triples (md_positions quad) /\
  md_indices quad = Some [0; 1; 2; 2; 1; 3] /\
  Forall (fun idx => idx < vertices (md_positions quad)) [0; 1; 2; 2; 1; 3] /\
  length (flattenMeshes [quad]) = 3 * 6 /\
  vertices (flattenMeshes [quad]) = 6 /\
  forall i idx, [0; 1; 2; 2; 1; 3] !! i = Some idx ->
    is_Some (vertex (md_positions quad) idx) /\
    vertex (flattenMeshes [quad]) i = vertex (md_positions quad) idx.
Proof.
  assert (H1 : flat_triples (md_positions quad)) by reflexivity.
  assert (H3 : Forall (fun idx => idx < vertices (md_positions quad))
                 [0; 1; 2; 2; 1; 3]).
  { repeat constructor. }
  split; [exact H1|]. split; [reflexivity|]. split; [exact H3|].
  exact (deindex_vertices quad [0; 1; 2; 2; 1; 3] H1 eq_refl H3).
Defined.

(** ** [normalizeGeometry] *)

Lemma stride3_flat (a : list num) :
  flat_triples a -> stride3 (length a) = (fun k => 3 * k) <$> seq 0 (vertices a).
Proof.
  intros Hflat. unfold stride3, vertices. do 2 f_equal.
  unfold flat_triples in Hflat.
  pose proof (Nat.div_mod_eq (length a) 3) as E.
  symmetry. apply (Nat.div_unique _ 3 _ 2); lia.
Qed.

Lemma bbox_loop_columns (pos : list num) (l : list nat) (b : bbox) :
  foldl (bbox_step pos) b ((fun k => 3 * k) <$> l) =
  BBox (foldl Math_min (minX b) ((fun v => get pos (3 * v + 0)) <$> l))
       (foldl Math_max (maxX b) ((fun v => get pos (3 * v + 0)) <$> l))
       (foldl Math_min (minY b) ((fun v => get pos (3 * v + 1)) <$> l))
       (foldl Math_max (maxY b) ((fun v => get pos (3 * v + 1)) <$> l))
       (foldl Math_min (minZ b) ((fun v => get pos (3 * v + 2)) <$> l))
       (foldl Math_max (maxZ b) ((fun v => get pos (3 * v + 2)) <$> l)).
Proof.
  revert b. induction l as [|v l IH]; intros b.
  - by destruct b.
  - rewrite !fmap_cons. cbn [foldl]. rewrite IH. unfold bbox_step.
    cbn [minX maxX minY maxY minZ maxZ]. by rewrite Nat.add_0_r.
Qed.

Lemma bounds_columns (pos : list num) :
  flat_triples pos ->
  bounds pos =
  BBox (foldl Math_min PosInf (column pos 0)) (foldl Math_max NegInf (column pos 0))
       (foldl Math_min PosInf (column pos 1)) (foldl Math_max NegInf (column pos 1))
       (foldl Math_min PosInf (column pos 2)) (foldl Math_max NegInf (column pos 2)).
Proof.
  intros Hflat. unfold bounds. rewrite stride3_flat by done.
  by rewrite bbox_loop_columns.
Qed.

Lemma Qmin_cases (a b : Q) : Qmin a b = a \/ Qmin a b = b.
Proof.
  unfold Qmin, GenericMinMax.gmin. destruct (a ?= b)%Q; auto.
Qed.

Lemma Qmax_cases (a b : Q) : Qmax a b = a \/ Qmax a b = b.
Proof.
  unfold Qmax, GenericMinMax.gmax. destruct (a ?= b)%Q; auto.
Qed.

Lemma fold_min_from (xs : list Q) (a : Q) :
  exists lo, foldl Math_min (Fin a) (Fin <$> xs) = Fin lo /\
             lo ∈ a :: xs /\ forall x, x ∈ a :: xs -> (lo <= x)%Q.
Proof.
  revert a. induction xs as [|x xs IH]; intros a.
  - exists a. split; [done|]. split; [left|].
    intros y Hy. apply list_elem_of_singleton in Hy as ->. apply Qle_refl.
  - rewrite fmap_cons. cbn [foldl Math_min].
    destruct (IH (Qmin a x)) as (lo & Hfold & Hin & Hle).
    exists lo. split; [done|]. split.
    + apply elem_of_cons in Hin as [->|Hin].
      * destruct (Qmin_cases a x) as [->| ->]; [left|right; left].
      * by do 2 right.
    + intros y Hy.
      assert (Hm : (lo <= Qmin a x)%Q) by (apply Hle; left).
      apply elem_of_cons in Hy as [->|Hy].
      * eapply Qle_trans; [exact Hm|apply Q.le_min_l].
      * apply elem_of_cons in Hy as [->|Hy].
        -- eapply Qle_trans; [exact Hm|apply Q.le_min_r].
        -- apply Hle. by right.
Qed.

Lemma fold_max_from (xs : list Q) (a : Q) :
  exists hi, foldl Math_max (Fin a) (Fin <$> xs) = Fin hi /\
             hi ∈ a :: xs /\ forall x, x ∈ a :: xs -> (x <= hi)%Q.
Proof.
  revert a. induction xs as [|x xs IH]; intros a.
  - exists a. split; [done|]. split; [left|].
    intros y Hy. apply list_elem_of_singleton in Hy as ->. apply Qle_refl.
  - rewrite fmap_cons. cbn [foldl Math_max].
    destruct (IH (Qmax a x)) as (hi & Hfold & Hin & Hle).
    exists hi. split; [done|]. split.
    + apply elem_of_cons in Hin as [->|Hin].
      * destruct (Qmax_cases a x) as [->| ->]; [left|right; left].
      * by do 2 right.
    + intros y Hy.
      assert (Hm : (Qmax a x <= hi)%Q) by (apply Hle; left).
      apply elem_of_cons in Hy as [->|Hy].
      * eapply Qle_trans; [apply Q.le_max_l|exact Hm].
      * apply elem_of_cons in Hy as [->|Hy].
        -- eapply Qle_trans; [apply Q.le_max_r|exact Hm].
        -- apply Hle. by right.
Qed.

(** The first loop computes, on each axis, the least and the greatest
    coordinate. *)
Lemma fold_min_fin (xs : list Q) :
  xs <> [] ->
  exists lo, foldl Math_min PosInf (Fin <$> xs) = Fin lo /\
             lo ∈ xs /\ forall x, x ∈ xs -> (lo <= x)%Q.
Proof.
  destruct xs as [|a xs]; [done|]. intros _.
  rewrite fmap_cons. cbn [foldl Math_min]. apply fold_min_from.
Qed.

Lemma fold_max_fin (xs : list Q) :
  xs <> [] ->
  exists hi, foldl Math_max NegInf (Fin <$> xs) = Fin hi /\
             hi ∈ xs /\ forall x, x ∈ xs -> (x <= hi)%Q.
Proof.
  destruct xs as [|a xs]; [done|]. intros _.
  rewrite fmap_cons. cbn [foldl Math_max]. apply fold_max_from.
Qed.

Lemma fmap_seq_ext {B : Type} (f g : nat -> B) (a n : nat) :
  (forall v, a <= v < a + n -> f v = g v) -> f <$> seq a n = g <$> seq a n.
Proof.
  intros H. apply Forall_fmap_ext_1, Forall_forall. intros v Hv.
  apply H. by apply elem_of_seq in Hv.
Qed.

Lemma get_fin (qs : list Q) (k : nat) :
  k < length qs -> get (Fin <$> qs) k = Fin (default 0%Q (qs !! k)).
Proof.
  intros Hk. unfold get. rewrite list_lookup_fmap.
  destruct (lookup_lt_is_Some_2 qs k Hk) as [x ->]. done.
Qed.

Lemma vertices_fin (qs : list Q) : vertices (Fin <$> qs) = length qs / 3.
Proof. unfold vertices. by rewrite length_fmap. Qed.

Lemma column_fin (qs : list Q) (j : nat) :
  flat_triples (Fin <$> qs) -> j < 3 ->
  column (Fin <$> qs) j = Fin <$> qcolumn qs j.
Proof.
  intros Hflat Hj. unfold column, qcolumn.
  rewrite <- list_fmap_compose, vertices_fin.
  apply fmap_seq_ext. intros v Hv. simpl. apply get_fin.
  pose proof (flat_triples_length _ Hflat) as E.
  rewrite vertices_fin, length_fmap in E. lia.
Qed.

Lemma qcolumn_nonempty (qs : list Q) (j : nat) :
  flat_triples (Fin <$> qs) -> qs <> [] -> qcolumn qs j <> [].
Proof.
  intros Hflat Hne. unfold qcolumn.
  pose proof (flat_triples_length _ Hflat) as E.
  rewrite vertices_fin, length_fmap in E.
  destruct (length qs / 3) as [|n] eqn:Hn; [|done].
  destruct qs; [done|simpl in E; lia].
Qed.

Lemma normalizeGeometry_values (pos : list num) (size : num) :
  normalizeGeometry pos size = normalized_at pos size <$> seq 0 (length pos).
Proof.
  unfold normalizeGeometry.
  rewrite (foldl_ext_in _ (write3 (normalized_at pos size))).
  - rewrite <- (length_replicate (length pos) (Fin 0)) at 2 3.
    apply fill3_stride3.
  - intros a i Hi. unfold stride3 in Hi.
    apply list_elem_of_fmap in Hi as (v & -> & _).
    unfold normalize_step, write3, normalized_at.
    destruct (div3 v 0) as [_ M0]; [lia|].
    destruct (div3 v 1) as [_ M1]; [lia|].
    destruct (div3 v 2) as [_ M2]; [lia|].
    rewrite Nat.add_0_r in M0. by rewrite M0, M1, M2.
Qed.

Lemma normalizeGeometry_length (pos : list num) (size : num) :
  length (normalizeGeometry pos size) = length pos.
Proof.
  by rewrite normalizeGeometry_values, length_fmap, length_seq.
Qed.

Lemma normalizeGeometry_get (pos : list num) (size : num) (k : nat) :
  k < length pos -> get (normalizeGeometry pos size) k = normalized_at pos size k.
Proof.
  intros Hk. apply get_lookup.
  by rewrite normalizeGeometry_values, list_lookup_fmap, lookup_seq_lt.
Qed.

Lemma axis_center_eq (b : bbox) (j : nat) :
  axis_center b j = ((axis_min b j + axis_max b j) / two)%num.
Proof. by destruct j as [|[|j]]. Qed.

Lemma bounds_axis (pos : list num) (j : nat) :
  flat_triples pos -> j < 3 ->
  axis_min (bounds pos) j = foldl Math_min PosInf (column pos j) /\
  axis_max (bounds pos) j = foldl Math_max NegInf (column pos j).
Proof.
  intros Hflat Hj. rewrite bounds_columns by done.
  destruct j as [|[|[|j]]]; [done..|lia].
Qed.

(** The bounding box of a non-empty finite sequence, axis by axis. *)
Lemma axis_box (qs : list Q) (j : nat) :
  flat_triples (Fin <$> qs) -> qs <> [] -> j < 3 ->
  exists lo hi : Q,
    axis_min (bounds (Fin <$> qs)) j = Fin lo /\
    axis_max (bounds (Fin <$> qs)) j = Fin hi /\
    lo ∈ qcolumn qs j /\ hi ∈ qcolumn qs j /\
    forall x, x ∈ qcolumn qs j -> (lo <= x)%Q /\ (x <= hi)%Q.
Proof.
  intros Hflat Hne Hj.
  destruct (bounds_axis _ j Hflat Hj) as [-> ->].
  rewrite column_fin by done.
  pose proof (qcolumn_nonempty qs j Hflat Hne) as Hcol.
  destruct (fold_min_fin _ Hcol) as (lo & -> & Hlo & Hmin).
  destruct (fold_max_fin _ Hcol) as (hi & -> & Hhi & Hmax).
  exists lo, hi. repeat split; auto.
Qed.

(** ** [normalizeGeometry] and the store *)

Lemma normalize_loop_st (positions normalized : loc) (b : bbox) (size : num)
    (a : list num) (idx : list nat) (arr : list num)
    (h : gmap loc (list num)) :
  positions <> normalized ->
  h !! positions = Some a ->
  h !! normalized = Some arr ->
  foldl (normalize_step_st positions normalized b size) h idx =
  <[normalized := foldl (normalize_step a b size) arr idx]> h.
Proof.
  intros Hne. revert arr h.
  induction idx as [|i idx IH]; intros arr h Hp Hq; simpl.
  - by rewrite insert_id.
  - assert (Hstep : normalize_step_st positions normalized b size h i =
                    <[normalized := normalize_step a b size arr i]> h).
    { unfold normalize_step_st, deref. rewrite Hp. simpl.
      apply map_eq. intros l. rewrite lookup_alter, lookup_insert.
      case_decide; [subst; by rewrite Hq|done]. }
    rewrite Hstep.
    rewrite (IH (normalize_step a b size arr i)).
    + by rewrite insert_insert_eq.
    + by rewrite lookup_insert_ne.
    + by rewrite lookup_insert_eq.
Qed.

(** C10.  [normalizeGeometry] writes only to the array it allocates: the
    location it returns is not allocated before the call, the input array
    and every other array of the store are as before, and the new array
    holds the normalized positions, as many as the input has. *)
Theorem normalizeGeometry_frame (h : gmap loc (list num)) (positions : loc)
    (size : num) (a : list num) :
  h !! positions = Some a ->
  h !! (normalizeGeometry_st h positions size).1 = None /\
  (normalizeGeometry_st h positions size).2 !! positions = Some a /\
  (forall l, l <> (normalizeGeometry_st h positions size).1 ->
     (normalizeGeometry_st h positions size).2 !! l = h !! l) /\
  (normalizeGeometry_st h positions size).2
    !! (normalizeGeometry_st h positions size).1
  = Some (normalizeGeometry a size) /\
  length (normalizeGeometry a size) = length a.
Proof.
  intros Hp.
  assert (Hfresh : h !! fresh (dom h) = None).
  { apply not_elem_of_dom. apply is_fresh. }
  assert (Hne : positions <> fresh (dom h)).
  { intros ->. by rewrite Hfresh in Hp. }
  assert (Hst : normalizeGeometry_st h positions size =
                (fresh (dom h),
                 <[fresh (dom h) := normalizeGeometry a size]> h)).
  { unfold normalizeGeometry_st, alloc, deref. rewrite Hp. simpl.
    f_equal.
    rewrite (normalize_loop_st _ _ _ _ a _ (new_Float32Array (length a)));
      [|done|by rewrite lookup_insert_ne|by rewrite lookup_insert_eq].
    by rewrite insert_insert_eq. }
  rewrite Hst. simpl.
  split; [done|].
  split; [by rewrite lookup_insert_ne|].
  split; [intros l Hl; by rewrite lookup_insert_ne|].
  split; [by rewrite lookup_insert_eq|].
  apply normalizeGeometry_length.
Qed.

Lemma normalizeGeometry_frame_witness :
  sample_store !! 1%positive = Some (Fin <$> triangle) /\
  sample_store !! (normalizeGeometry_st sample_store 1%positive (Fin 2)).1 = None /\
  (normalizeGeometry_st sample_store 1%positive (Fin 2)).2 !! 1%positive
  = Some (Fin <$> triangle) /\
  (forall l, l <> (normalizeGeometry_st sample_store 1%positive (Fin 2)).1 ->
     (normalizeGeometry_st sample_store 1%positive (Fin 2)).2 !! l
     = sample_store !! l) /\
  (normalizeGeometry_st sample_store 1%positive (Fin 2)).2
    !! (normalizeGeometry_st sample_store 1%positive (Fin 2)).1
  = Some (normalizeGeometry (Fin <$> triangle) (Fin 2)) /\
  length (normalizeGeometry (Fin <$> triangle) (Fin 2))
  = length (Fin <$> triangle).
Proof.
  assert (H : sample_store !! 1%positive = Some (Fin <$> triangle))
    by reflexivity.
  split; [exact H|].
  exact (normalizeGeometry_frame sample_store 1%positive (Fin 2)
           (Fin <$> triangle) H).
Defined.

(** ** [loadGLB] *)

Lemma getUint32_length (buffer : list Byte.byte) (off : nat) (w : Z) :
  getUint32 buffer off = Ok w -> off + 4 <= length buffer.
Proof.
  unfold getUint32. destruct (Nat.leb_spec (off + 4) (length buffer)); [done|].
  discriminate.
Qed.

Lemma getUint32_Ok (buffer : list Byte.byte) (off : nat) :
  off + 4 <= length buffer -> exists w, getUint32 buffer off = Ok w.
Proof.
  intros H. unfold getUint32.
  destruct (Nat.leb_spec (off + 4) (length buffer)); [eauto|lia].
Qed.

(** C6.  A buffer whose magic number is not 0x46546C67, or whose first
    chunk type is not 0x4E4F534A, makes [loadGLB] throw one of its two
    format errors: no mesh is returned. *)
Theorem loadGLB_rejects (JSON_parse : list Z -> result gltf)
    (arrayBuffer : list Byte.byte) :
  (exists magic, getUint32 arrayBuffer 0 = Ok magic /\ magic <> GLB_MAGIC)
  \/ (exists type, getUint32 arrayBuffer 16 = Ok type /\ type <> JSON_CHUNK) ->
  exists e, loadGLB JSON_parse arrayBuffer = Throw e /\ FormatError e.
Proof.
  intros [(magic & Hm & Hne)|(type & Ht & Hne)]; unfold loadGLB.
  - rewrite Hm. simpl.
    destruct (Z.eqb_spec magic GLB_MAGIC) as [|_]; [done|]. simpl.
    eexists. split; [done|]. by left.
  - pose proof (getUint32_length _ _ _ Ht) as Hlen.
    destruct (getUint32_Ok arrayBuffer 0) as [magic Hm]; [lia|].
    destruct (getUint32_Ok arrayBuffer 12) as [len Hl]; [lia|].
    rewrite Hm. simpl.
    destruct (Z.eqb_spec magic GLB_MAGIC) as [_|_]; simpl.
    + rewrite Hl. simpl. rewrite Ht. simpl.
      destruct (Z.eqb_spec type JSON_CHUNK) as [|_]; [done|]. simpl.
      eexists. split; [done|]. by right.
    + eexists. split; [done|]. by left.
Qed.

Lemma loadGLB_rejects_witness :
  ((exists magic, getUint32 bad_magic 0 = Ok magic /\ magic <> GLB_MAGIC)
   \/ (exists type, getUint32 bad_magic 16 = Ok type /\ type <> JSON_CHUNK)) /\
  exists e, loadGLB (fun _ => Throw SyntaxError) bad_magic = Throw e
            /\ FormatError e.
Proof.
  assert (H : (exists magic, getUint32 bad_magic 0 = Ok magic
                             /\ magic <> GLB_MAGIC)
              \/ (exists type, getUint32 bad_magic 16 = Ok type
                               /\ type <> JSON_CHUNK)).
  { left. exists 0x47546C67%Z. split; [reflexivity|discriminate]. }
  split; [exact H|].
  exact (loadGLB_rejects (fun _ => Throw SyntaxError) bad_magic H).
Defined.

Lemma byte_val_range (b : Byte.byte) : (0 <= byte_val b < 256)%Z.
Proof.
  unfold byte_val. pose proof (Byte.to_N_bounded b) as H. lia.
Qed.

Lemma le_word_range (bytes : list Byte.byte) :
  (0 <= le_word bytes < 256 ^ Z.of_nat (length bytes))%Z.
Proof.
  induction bytes as [|b bytes IH]; [simpl; lia|].
  cbn [le_word foldr length]. fold (le_word bytes).
  pose proof (byte_val_range b) as Hb.
  rewrite Nat2Z.inj_succ, Z.pow_succ_r by lia. lia.
Qed.

(** A typed array over a buffer, when its construction succeeds, has [len]
    elements, each decoded from its own [size] bytes, little-endian. *)
Lemma typed_array_Ok {A : Type} (size : nat) (decode : Z -> A)
    (buffer : list Byte.byte) (byteOffset len : nat) (l : list A) :
  typed_array size decode buffer byteOffset len = Ok l ->
  byteOffset + len * size <= length buffer /\
  length l = len /\
  forall i, i < len ->
    l !! i = Some (decode (le_word (take size
                                      (drop (byteOffset + i * size) buffer)))).
Proof.
  unfold typed_array. case_match; [discriminate|].
  destruct (Nat.ltb_spec (length buffer) (byteOffset + len * size));
    [discriminate|].
  intros [= <-]. split; [done|]. split.
  - by rewrite length_fmap, length_seq.
  - intros i Hi. by rewrite list_lookup_fmap, lookup_seq_lt.
Qed.

Lemma typed_array_bound (size : nat) (buffer : list Byte.byte)
    (byteOffset len : nat) (l : list nat) :
  typed_array size Z.to_nat buffer byteOffset len = Ok l ->
  Forall (fun n => Z.of_nat n < 256 ^ Z.of_nat size)%Z l.
Proof.
  intros H. destruct (typed_array_Ok _ _ _ _ _ _ H) as (_ & Hlen & Hl).
  apply Forall_lookup. intros i n Hi.
  assert (Hi' : i < len).
  { rewrite <- Hlen. by eapply lookup_lt_Some. }
  rewrite (Hl i Hi') in Hi. injection Hi as <-.
  pose proof (le_word_range (take size (drop (byteOffset + i * size) buffer)))
    as [H0 H1].
  rewrite Z2Nat.id by done.
  eapply Z.lt_le_trans; [exact H1|].
  apply Z.pow_le_mono_r; [lia|]. rewrite length_take. lia.
Qed.

(** C4 as stated fails: an index accessor of component type 5121 does not
    make the extraction fail. *)
Lemma unknown_componentType_counterexample :
  ~ (forall (g : gltf) (buffer : list Byte.byte) (binaryOffset : nat)
            (m : mesh) (p : primitive) (k : nat) (acc : accessor),
       meshes g = Some [m] -> p ∈ primitives m ->
       prim_indices p = Some k ->
       accessors g !! k = Some acc ->
       acc_componentType acc <> UNSIGNED_SHORT ->
       acc_componentType acc <> UNSIGNED_INT ->
       exists e, extractMeshes g buffer binaryOffset = Throw e).
Proof.
  intros H.
  assert (Hthrow : exists e, extractMeshes byte_indexed_gltf
                               byte_indexed_glb 32 = Throw e).
  { apply (H byte_indexed_gltf byte_indexed_glb 32
             (Mesh [Primitive (Some 0) (Some 1)])
             (Primitive (Some 0) (Some 1)) 1
             (Accessor (Some 1) None 3 5121));
      [reflexivity|left|reflexivity|reflexivity|discriminate|discriminate]. }
  destruct Hthrow as [e He]. vm_compute in He. discriminate He.
Qed.

Lemma byte_indexed_glb_loads :
  loadGLB (fun _ => Ok byte_indexed_gltf) byte_indexed_glb
  = Ok [MeshData [Fin 0; Fin 0; Fin 0] None].
Proof. vm_compute. reflexivity. Qed.

(** A container of two triangles on four vertices with 16-bit indices loads
    as the quad, which de-indexes to six vertices. *)
Lemma quad_glb_loads :
  loadGLB (fun _ => Ok quad_gltf) quad_glb = Ok [quad] /\
  vertices (flattenMeshes [quad]) = 6.
Proof. split; vm_compute; reflexivity. Qed.

(** C4, amended.  For a primitive with an index accessor, component type
    5123 makes [loadGLB] read the indices as unsigned 16-bit integers and
    5125 as unsigned 32-bit integers, little-endian, from the accessor's
    offset; with any other component type no exception is thrown and the
    primitive is returned without indices, as if it had declared none. *)
Theorem loadIndices_componentType (g : gltf) (buffer : list Byte.byte)
    (binaryOffset : nat) (p : primitive) (k : nat) (acc : accessor)
    (bv : bufferView) :
  prim_indices p = Some k ->
  accessors g !! k = Some acc ->
  bufferViewOf g acc = Ok bv ->
  (acc_componentType acc = UNSIGNED_SHORT ->
   match Uint16Array buffer (indexOffset binaryOffset bv acc) (acc_count acc) with
   | Ok indices =>
       loadIndices g buffer binaryOffset p = Ok (Some indices) /\
       length indices = acc_count acc /\
       Forall (fun n => Z.of_nat n < 2 ^ 16)%Z indices /\
       forall i, i < acc_count acc ->
         indices !! i =
         Some (Z.to_nat (le_word (take 2 (drop (indexOffset binaryOffset bv acc
                                                + i * 2) buffer))))
   | Throw e => loadIndices g buffer binaryOffset p = Throw e
   end) /\
  (acc_componentType acc = UNSIGNED_INT ->
   match Uint32Array buffer (indexOffset binaryOffset bv acc) (acc_count acc) with
   | Ok indices =>
       loadIndices g buffer binaryOffset p = Ok (Some indices) /\
       length indices = acc_count acc /\
       Forall (fun n => Z.of_nat n < 2 ^ 32)%Z indices /\
       forall i, i < acc_count acc ->
         indices !! i =
         Some (Z.to_nat (le_word (take 4 (drop (indexOffset binaryOffset bv acc
                                                + i * 4) buffer))))
   | Throw e => loadIndices g buffer binaryOffset p = Throw e
   end) /\
  (acc_componentType acc <> UNSIGNED_SHORT ->
   acc_componentType acc <> UNSIGNED_INT ->
   loadIndices g buffer binaryOffset p = Ok None /\
   forall md, loadPrimitive g buffer binaryOffset p = Ok md ->
              md_indices md = None).
Proof.
  intros Hp Hacc Hbv.
  assert (Hload : loadIndices g buffer binaryOffset p =
    if (acc_componentType acc =? UNSIGNED_SHORT)%Z then
      indices ← Uint16Array buffer (indexOffset binaryOffset bv acc)
                  (acc_count acc);
      Ok (Some indices)
    else if (acc_componentType acc =? UNSIGNED_INT)%Z then
      indices ← Uint32Array buffer (indexOffset binaryOffset bv acc)
                  (acc_count acc);
      Ok (Some indices)
    else Ok None).
  { unfold loadIndices. rewrite Hp, Hacc. simpl. by rewrite Hbv. }
  split; [|split].
  - intros Hct. rewrite Hload, Hct. simpl.
    destruct (Uint16Array buffer _ _) as [indices|e] eqn:Harr; [|done].
    simpl. split; [done|].
    destruct (typed_array_Ok _ _ _ _ _ _ Harr) as (_ & Hlen & Hl).
    split; [done|]. split; [|done].
    exact (typed_array_bound 2 _ _ _ _ Harr).
  - intros Hct. rewrite Hload, Hct. simpl.
    destruct (Uint32Array buffer _ _) as [indices|e] eqn:Harr; [|done].
    simpl. split; [done|].
    destruct (typed_array_Ok _ _ _ _ _ _ Harr) as (_ & Hlen & Hl).
    split; [done|]. split; [|done].
    exact (typed_array_bound 4 _ _ _ _ Harr).
  - intros H1 H2.
    assert (Hnone : loadIndices g buffer binaryOffset p = Ok None).
    { rewrite Hload.
      destruct (Z.eqb_spec (acc_componentType acc) UNSIGNED_SHORT); [done|].
      destruct (Z.eqb_spec (acc_componentType acc) UNSIGNED_INT); [done|].
      done. }
    split; [done|].
    intros md. unfold loadPrimitive. rewrite Hnone.
    destruct (defined _) as [posAccessor|]; [|discriminate]. simpl.
    destruct (bufferViewOf g posAccessor) as [posBufferView|]; [|discriminate].
    simpl. destruct (Float32Array _ _ _) as [posData|]; [|discriminate].
    simpl. by intros [= <-].
Qed.

Lemma loadIndices_componentType_witness :
  prim_indices (Primitive (Some 0) (Some 1)) = Some 1 /\
  accessors byte_indexed_gltf !! 1 = Some (Accessor (Some 1) None 3 5121) /\
  bufferViewOf byte_indexed_gltf (Accessor (Some 1) None 3 5121)
  = Ok (BufferView (Some 12)) /\
  loadIndices byte_indexed_gltf byte_indexed_glb 32
    (Primitive (Some 0) (Some 1)) = Ok None /\
  forall md,
    loadPrimitive byte_indexed_gltf byte_indexed_glb 32
      (Primitive (Some 0) (Some 1)) = Ok md ->
    md_indices md = None.
Proof.
  split; [reflexivity|]. split; [reflexivity|]. split; [reflexivity|].
  apply (loadIndices_componentType byte_indexed_gltf byte_indexed_glb 32
           (Primitive (Some 0) (Some 1)) 1 (Accessor (Some 1) None 3 5121)
           (BufferView (Some 12)) eq_refl eq_refl eq_refl);
    discriminate.
Defined.

(** ** The morph scheduler *)

Lemma interpolate_values (pos orig target : list num) (e : num) :
  interpolate pos orig target e =
  (fun k => (get orig k + (get target k - get orig k) * e)%num)
    <$> seq 0 (length pos).
Proof.
  exact (fill3_stride3
           (fun k => (get orig k + (get target k - get orig k) * e)%num) pos).
Qed.

Lemma interpolate_length (pos orig target : list num) (e : num) :
  length (interpolate pos orig target e) = length pos.
Proof. by rewrite interpolate_values, length_fmap, length_seq. Qed.

Lemma num_eq_fin (x : num) (a : Q) : x =n= Fin a -> exists b, x = Fin b /\ (b == a)%Q.
Proof. destruct x; try done. intros H. eauto. Qed.

Lemma rippleActive_iff (s : sched) :
  rippleActive s = true <->
  ngtb (activeProgress s) zero = true /\ nltb (activeProgress s) one = true.
Proof.
  unfold rippleActive, activeProgress.
  destruct (isViewMorphing s); simpl.
  - rewrite !andb_false_r. simpl. by rewrite andb_true_iff.
  - rewrite !andb_true_r, orb_false_r. by rewrite andb_true_iff.
Qed.

Lemma array_set_same_length (dst src : list num) :
  length src = length dst -> array_set dst src = Ok src.
Proof.
  intros H. unfold array_set.
  destruct (Nat.ltb_spec (length dst) (length src)); [lia|].
  rewrite drop_ge by lia. by rewrite app_nil_r.
Qed.

(** The four branches of the trigger for the modes other than [objects]. *)
Lemma triggerStep_view (r : refs) (s : sched) :
  viewModeRef r <> objects ->
  viewModeRef r <> lastViewMode s ->
  triggerStep r s =
  retarget (scrollModelRef r) (localCurrentShape s) (viewModeRef r)
    (resetMorph s).
Proof.
  intros Hobj Hlast. unfold triggerStep.
  destruct (viewModeRef r) eqn:Hmode; try done;
    rewrite (bool_decide_eq_false_2 (_ = objects)) by done; cbn [andb];
    repeat (rewrite (bool_decide_eq_false_2 (_ = _)) by done; cbn [andb negb]);
    rewrite (bool_decide_eq_true_2 (_ = _)) by done; cbn [andb negb];
    by rewrite (bool_decide_eq_false_2 (lastViewMode s = _)) by done.
Qed.

Lemma viewMorphStep_flag (s : sched) :
  isViewMorphing s = false -> viewMorphStep s = s.
Proof. intros H. unfold viewMorphStep. by rewrite H. Qed.

Lemma retarget_flag (m : model) (n : nat) (mode : viewMode) (s : sched) :
  isViewMorphing (retarget m n mode s).1 = isViewMorphing s.
Proof.
  unfold retarget. destruct (array_set _ (positions m)); [|done].
  by destruct (array_set _ (position_array s)).
Qed.

Lemma triggerStep_flag (r : refs) (s : sched) :
  isViewMorphing (triggerStep r s).1 = isViewMorphing s.
Proof.
  unfold triggerStep.
  repeat (case_match; try done; rewrite ?retarget_flag; try done).
Qed.

Lemma morphStep_flag (s : sched) :
  isViewMorphing (morphStep s) = isViewMorphing s.
Proof. unfold morphStep. by case_match. Qed.

Lemma rippleStep_flag (Math_sin Math_sqrt : num -> num) (s : sched) :
  isViewMorphing (rippleStep Math_sin Math_sqrt s) = isViewMorphing s.
Proof. unfold rippleStep. by case_match. Qed.

(** No frame sets [isViewMorphing]. *)
Lemma animate_flag (Math_sin Math_sqrt : num -> num) (r : refs) (s : sched) :
  isViewMorphing s = false ->
  isViewMorphing (animate Math_sin Math_sqrt r s).1 = false.
Proof.
  intros H. unfold animate.
  rewrite viewMorphStep_flag by done.
  pose proof (triggerStep_flag r (countFrame s)) as Ht.
  destruct (triggerStep r (countFrame s)) as [s' [e|]]; simpl in *.
  - by rewrite Ht.
  - by rewrite rippleStep_flag, morphStep_flag, Ht.
Qed.

Lemma retarget_started (m : model) (n : nat) (mode : viewMode) (s s' : sched) :
  morphProgress s = zero -> isMorphing s = true ->
  length (position_array s) = length (originalPosition_array s) ->
  retarget m n mode s = (s', None) ->
  morphProgress s' = zero /\ isMorphing s' = true /\
  position_array s' = position_array s /\
  originalPosition_array s' = position_array s'.
Proof.
  intros Hp Hm Hlen. unfold retarget.
  destruct (array_set _ (positions m)) as [t|]; [|discriminate].
  rewrite array_set_same_length by done.
  intros [= <-]. done.
Qed.

(** Whenever the trigger starts a morph, the progress is 0 and the original
    buffer is a copy of the position buffer. *)
Lemma triggerStep_started (r : refs) (s s' : sched) :
  length (position_array s) = length (originalPosition_array s) ->
  triggerStep r s = (s', None) ->
  s' = s \/
  (morphProgress s' = zero /\ isMorphing s' = true /\
   position_array s' = position_array s /\
   originalPosition_array s' = position_array s').
Proof.
  intros Hlen. unfold triggerStep.
  repeat case_match; try discriminate;
    try (intros [= <-]; by left);
    intros Hr; right; by eapply retarget_started in Hr.
Qed.




(** * Further properties *)

(** ** [loadGLB]: truncated containers *)

Lemma getUint32_short (buffer : list Byte.byte) (off : nat) :
  length buffer < off + 4 -> getUint32 buffer off = Throw RangeError.
Proof.
  intros H. unfold getUint32.
  destruct (Nat.leb_spec (off + 4) (length buffer)); [lia|done].
Qed.

(** A buffer that stops inside the 20 bytes read before the JSON chunk, and
    does not carry a wrong magic number, makes [loadGLB] throw a RangeError
    and not one of its own errors. *)
Theorem loadGLB_truncated (JSON_parse : list Z -> result gltf)
    (arrayBuffer : list Byte.byte) :
  length arrayBuffer < 20 ->
  (forall magic, getUint32 arrayBuffer 0 = Ok magic -> magic = GLB_MAGIC) ->
  loadGLB JSON_parse arrayBuffer = Throw RangeError.
Proof.
  intros Hlen Hmagic. unfold loadGLB.
  destruct (getUint32 arrayBuffer 0) as [magic|e] eqn:Hm.
  - rewrite (Hmagic magic eq_refl).
    change (negb (GLB_MAGIC =? GLB_MAGIC)%Z) with false. cbv iota.
    unfold mbind, result_bind.
    rewrite (getUint32_short arrayBuffer 16) by lia.
    destruct (getUint32 arrayBuffer 12) as [len|e] eqn:Hl; [done|].
    unfold getUint32 in Hl. by case_match; simplify_eq.
  - unfold mbind, result_bind.
    unfold getUint32 in Hm. by case_match; simplify_eq.
Qed.

Lemma loadGLB_truncated_witness :
  length [Byte.x67; Byte.x6c; Byte.x54; Byte.x46] < 20 /\
  loadGLB (fun _ => Throw SyntaxError) [Byte.x67; Byte.x6c; Byte.x54; Byte.x46]
  = Throw RangeError.
Proof.
  assert (H : length [Byte.x67; Byte.x6c; Byte.x54; Byte.x46] < 20)
    by (simpl; lia).
  split; [exact H|].
  apply (loadGLB_truncated (fun _ => Throw SyntaxError) _ H).
  intros magic Hm. vm_compute in Hm. by injection Hm as <-.
Defined.

(** *** What a successful load says about the container *)

Lemma mapM_Ok {A B : Type} (f : A -> result B) (l : list A) (bs : list B) :
  mapM f l = Ok bs -> Forall2 (fun a b => f a = Ok b) l bs.
Proof.
  revert bs. induction l as [|a l IH]; intros bs; simpl.
  - intros [= <-]. constructor.
  - destruct (f a) as [b|e] eqn:Hb; [|discriminate]. simpl.
    destruct (mapM f l) as [bs'|e]; [|discriminate]. simpl.
    intros [= <-]. constructor; [done|]. by apply IH.
Qed.

Lemma mapM_Throw {A B : Type} (f : A -> result B) (l1 l2 : list A) (a : A)
    (bs : list B) (e : exn) :
  Forall2 (fun a b => f a = Ok b) l1 bs -> f a = Throw e ->
  mapM f (l1 ++ a :: l2) = Throw e.
Proof.
  intros Hl1 Ha. induction Hl1 as [|x b l1 bs Hx _ IH]; simpl.
  - by rewrite Ha.
  - rewrite Hx. simpl. by rewrite IH.
Qed.

Lemma bind_Ok {A B : Type} (r : result A) (k : A -> result B) (b : B) :
  r ≫= k = Ok b -> exists a, r = Ok a /\ k a = Ok b.
Proof. destruct r as [a|e]; [eauto|discriminate]. Qed.

Lemma defined_Ok {A : Type} (o : option A) (a : A) :
  defined o = Ok a -> o = Some a.
Proof. destruct o; [by intros [= ->]|discriminate]. Qed.

Lemma loadIndices_Ok (g : gltf) (buffer : list Byte.byte) (binaryOffset : nat)
    (p : primitive) (indices : list nat) :
  loadIndices g buffer binaryOffset p = Ok (Some indices) ->
  exists k acc, prim_indices p = Some k /\ accessors g !! k = Some acc /\
                length indices = acc_count acc.
Proof.
  unfold loadIndices. destruct (prim_indices p) as [k|]; [|discriminate].
  intros H. apply bind_Ok in H as (acc & Hacc & H).
  apply bind_Ok in H as (bv & Hbv & H).
  exists k, acc. split; [done|]. split.
  { by apply defined_Ok. }
  cbv zeta in H.
  destruct (acc_componentType acc =? UNSIGNED_SHORT)%Z.
  { apply bind_Ok in H as (l & Hl & [= <-]).
    by apply typed_array_Ok in Hl as (_ & Hlen & _). }
  destruct (acc_componentType acc =? UNSIGNED_INT)%Z; [|discriminate].
  apply bind_Ok in H as (l & Hl & [= <-]).
  by apply typed_array_Ok in Hl as (_ & Hlen & _).
Qed.

(** A primitive that loads has three numbers for each of the [count]
    vertices of its position accessor, read from inside the buffer, and
    its indices, when it has some, are as many as its index accessor
    counts. *)
Lemma loadPrimitive_Ok (g : gltf) (buffer : list Byte.byte) (binaryOffset : nat)
    (p : primitive) (md : meshData) :
  loadPrimitive g buffer binaryOffset p = Ok md ->
  exists posAccessor,
    attributes_POSITION p ≫= (fun k => accessors g !! k) = Some posAccessor /\
    length (md_positions md) = acc_count posAccessor * 3 /\
    flat_triples (md_positions md) /\
    vertices (md_positions md) = acc_count posAccessor /\
    binaryOffset + acc_count posAccessor * 12 <= length buffer /\
    forall indices, md_indices md = Some indices ->
      exists k acc, prim_indices p = Some k /\ accessors g !! k = Some acc /\
                    length indices = acc_count acc.
Proof.
  unfold loadPrimitive. intros H.
  apply bind_Ok in H as (posAccessor & Hacc & H).
  apply bind_Ok in H as (bv & Hbv & H).
  apply bind_Ok in H as (posData & Hpos & H).
  apply bind_Ok in H as (indices & Hind & [= <-]).
  apply typed_array_Ok in Hpos as (Hfit & Hlen & _).
  exists posAccessor. simpl.
  split; [by apply defined_Ok|].
  split; [done|].
  split; [unfold flat_triples; rewrite Hlen; apply Nat.Div0.mod_mul|].
  split; [unfold vertices; rewrite Hlen; by apply Nat.div_mul|].
  split; [lia|].
  intros idx ->. by eapply loadIndices_Ok.
Qed.

(** The position array of a primitive that loads is read from the buffer
    as binary32 numbers, at the offsets of its buffer view and accessor
    from the start of the binary chunk. *)
Lemma loadPrimitive_reads (g : gltf) (buffer : list Byte.byte)
    (binaryOffset : nat) (p : primitive) (md : meshData) :
  loadPrimitive g buffer binaryOffset p = Ok md ->
  exists posAccessor posBufferView,
    attributes_POSITION p ≫= (fun k => accessors g !! k) = Some posAccessor /\
    acc_bufferView posAccessor ≫= (fun k => bufferViews g !! k)
    = Some posBufferView /\
    Float32Array buffer
      (binaryOffset + (default 0 (bv_byteOffset posBufferView)
                       + default 0 (acc_byteOffset posAccessor)))
      (acc_count posAccessor * 3)
    = Ok (md_positions md) /\
    flat_triples (md_positions md) /\
    vertices (md_positions md) = acc_count posAccessor.
Proof.
  unfold loadPrimitive. intros H.
  apply bind_Ok in H as (posAccessor & Hacc & H).
  apply bind_Ok in H as (bv & Hbv & H).
  apply bind_Ok in H as (posData & Hpos & H).
  apply bind_Ok in H as (indices & Hind & [= <-]).
  pose proof Hpos as Hfit. apply typed_array_Ok in Hfit as (Hfit & Hlen & _).
  exists posAccessor, bv. simpl.
  split; [by apply defined_Ok|].
  split; [by apply defined_Ok|].
  split; [done|].
  split; [unfold flat_triples; rewrite Hlen; apply Nat.Div0.mod_mul|].
  unfold vertices. rewrite Hlen. by apply Nat.div_mul.
Qed.

(** X2.  When [loadGLB] returns, the header carried the magic number and
    the JSON chunk type, the document is what [JSON.parse] makes of the
    [jsonChunkLength] bytes from offset 20 of the buffer, the binary
    chunk lies inside the buffer, and there is one entry for each
    primitive of the document, in document order, each with the numbers
    read from the buffer at the offsets of the primitive's position
    accessor, three for every vertex the accessor counts (offsets and
    counts being natural numbers, as the glTF schema has them). *)
Theorem loadGLB_Ok (JSON_parse : list Z -> result gltf)
    (arrayBuffer : list Byte.byte) (ms : list meshData) :
  loadGLB JSON_parse arrayBuffer = Ok ms ->
  exists (jsonChunkLength binaryChunkLength : Z) (jsonData : list Z) (g : gltf),
    getUint32 arrayBuffer 0 = Ok GLB_MAGIC /\
    getUint32 arrayBuffer 12 = Ok jsonChunkLength /\
    getUint32 arrayBuffer 16 = Ok JSON_CHUNK /\
    20 + Z.to_nat jsonChunkLength <= length arrayBuffer /\
    jsonData = byte_val <$> take (Z.to_nat jsonChunkLength) (drop 20 arrayBuffer) /\
    JSON_parse jsonData = Ok g /\
    getUint32 arrayBuffer (20 + Z.to_nat jsonChunkLength)
    = Ok binaryChunkLength /\
    28 + Z.to_nat jsonChunkLength + Z.to_nat binaryChunkLength
    <= length arrayBuffer /\
    Forall2 (fun p md =>
               exists posAccessor posBufferView,
                 attributes_POSITION p ≫= (fun k => accessors g !! k)
                 = Some posAccessor /\
                 acc_bufferView posAccessor ≫= (fun k => bufferViews g !! k)
                 = Some posBufferView /\
                 Float32Array arrayBuffer
                   (28 + Z.to_nat jsonChunkLength
                    + (default 0 (bv_byteOffset posBufferView)
                       + default 0 (acc_byteOffset posAccessor)))
                   (acc_count posAccessor * 3)
                 = Ok (md_positions md) /\
                 flat_triples (md_positions md) /\
                 vertices (md_positions md) = acc_count posAccessor)
      (concat (primitives <$> default [] (meshes g))) ms.
Proof.
  unfold loadGLB. intros H.
  apply bind_Ok in H as (magic & Hmagic & H).
  destruct (Z.eqb_spec magic GLB_MAGIC) as [->|]; [|discriminate]. simpl in H.
  apply bind_Ok in H as (jl & Hjl & H).
  apply bind_Ok in H as (type & Htype & H).
  destruct (Z.eqb_spec type JSON_CHUNK) as [->|]; [|discriminate]. simpl in H.
  apply bind_Ok in H as (jsonData & Hjson & H).
  apply bind_Ok in H as (g & Hg & H).
  apply bind_Ok in H as (bl & Hbl & H).
  apply bind_Ok in H as (binaryData & Hbin & H).
  apply typed_array_Ok in Hbin as (Hfit & _ & _).
  apply typed_array_Ok in Hjson as (Hjfit & Hjlen & Hjat).
  exists jl, bl, jsonData, g. do 3 (split; [done|]).
  split; [lia|]. split.
  { apply list_eq. intros i.
    destruct (decide (i < Z.to_nat jl)) as [Hi|Hi].
    - rewrite (Hjat i Hi), list_lookup_fmap, lookup_take_lt, lookup_drop by done.
      rewrite Nat.mul_1_r.
      destruct (lookup_lt_is_Some_2 arrayBuffer (20 + i)) as [b Hb]; [lia|].
      rewrite Hb. simpl. f_equal.
      rewrite (take_S_r _ 0 b) by (by rewrite lookup_drop, Nat.add_0_r).
      simpl. lia.
    - rewrite (lookup_ge_None_2 jsonData) by lia.
      symmetry. apply lookup_ge_None_2.
      rewrite length_fmap, length_take. lia. }
  do 2 (split; [done|]). split; [lia|].
  unfold extractMeshes in H. destruct (meshes g) as [meshList|]; simpl.
  - apply mapM_Ok in H. eapply Forall2_impl; [exact H|].
    intros p md Hp. by apply loadPrimitive_reads in Hp.
  - injection H as <-. constructor.
Qed.

Lemma loadGLB_Ok_witness :
  loadGLB parse_quad quad_file = Ok [quad] /\
  exists (jsonChunkLength binaryChunkLength : Z) (jsonData : list Z) (g : gltf),
    getUint32 quad_file 0 = Ok GLB_MAGIC /\
    getUint32 quad_file 12 = Ok jsonChunkLength /\
    getUint32 quad_file 16 = Ok JSON_CHUNK /\
    20 + Z.to_nat jsonChunkLength <= length quad_file /\
    jsonData = byte_val <$> take (Z.to_nat jsonChunkLength) (drop 20 quad_file) /\
    parse_quad jsonData = Ok g /\
    getUint32 quad_file (20 + Z.to_nat jsonChunkLength)
    = Ok binaryChunkLength /\
    28 + Z.to_nat jsonChunkLength + Z.to_nat binaryChunkLength
    <= length quad_file /\
    Forall2 (fun p md =>
               exists posAccessor posBufferView,
                 attributes_POSITION p ≫= (fun k => accessors g !! k)
                 = Some posAccessor /\
                 acc_bufferView posAccessor ≫= (fun k => bufferViews g !! k)
                 = Some posBufferView /\
                 Float32Array quad_file
                   (28 + Z.to_nat jsonChunkLength
                    + (default 0 (bv_byteOffset posBufferView)
                       + default 0 (acc_byteOffset posAccessor)))
                   (acc_count posAccessor * 3)
                 = Ok (md_positions md) /\
                 flat_triples (md_positions md) /\
                 vertices (md_positions md) = acc_count posAccessor)
      (concat (primitives <$> default [] (meshes g))) [quad].
Proof.
  assert (H : loadGLB parse_quad quad_file = Ok [quad])
    by (vm_compute; reflexivity).
  split; [exact H|].
  exact (loadGLB_Ok parse_quad quad_file [quad] H).
Defined.

(** Extraction is all or nothing: when the primitives before one that
    fails all load, the exception of that one is the outcome and no mesh is
    returned. *)
Theorem extractMeshes_first_failure (g : gltf) (buffer : list Byte.byte)
    (binaryOffset : nat) (before after : list primitive) (p : primitive)
    (loaded : list meshData) (e : exn) (ms : list mesh) :
  meshes g = Some ms ->
  concat (primitives <$> ms) = before ++ p :: after ->
  Forall2 (fun p md => loadPrimitive g buffer binaryOffset p = Ok md)
    before loaded ->
  loadPrimitive g buffer binaryOffset p = Throw e ->
  extractMeshes g buffer binaryOffset = Throw e.
Proof.
  intros Hms Hsplit Hbefore Hp. unfold extractMeshes.
  rewrite Hms, Hsplit. by eapply mapM_Throw.
Qed.

Lemma extractMeshes_first_failure_witness :
  meshes broken_gltf
  = Some [Mesh [Primitive (Some 0) (Some 1); Primitive (Some 7) None]] /\
  loadPrimitive broken_gltf quad_glb 32 (Primitive (Some 0) (Some 1)) = Ok quad /\
  loadPrimitive broken_gltf quad_glb 32 (Primitive (Some 7) None)
  = Throw TypeError /\
  extractMeshes broken_gltf quad_glb 32 = Throw TypeError.
Proof.
  assert (H1 : loadPrimitive broken_gltf quad_glb 32 (Primitive (Some 0) (Some 1))
               = Ok quad) by (vm_compute; reflexivity).
  assert (H2 : loadPrimitive broken_gltf quad_glb 32 (Primitive (Some 7) None)
               = Throw TypeError) by reflexivity.
  split; [reflexivity|]. split; [exact H1|]. split; [exact H2|].
  apply (extractMeshes_first_failure broken_gltf quad_glb 32
           [Primitive (Some 0) (Some 1)] [] (Primitive (Some 7) None)
           [quad] TypeError
           [Mesh [Primitive (Some 0) (Some 1); Primitive (Some 7) None]]
           eq_refl eq_refl);
    [by repeat constructor|exact H2].
Defined.

(** ** The de-indexing loop on several primitives *)

Lemma pushMesh_app (acc : list num) (md : meshData) :
  pushMesh acc md = acc ++ pushMesh [] md.
Proof.
  unfold pushMesh. destruct (md_indices md) as [indices|]; [|done].
  by rewrite !push_indexed.
Qed.

Lemma flattenMeshes_from (acc : list num) (ms : list meshData) :
  foldl pushMesh acc ms = acc ++ flattenMeshes ms.
Proof.
  unfold flattenMeshes. revert acc.
  induction ms as [|md ms IH]; intros acc; simpl.
  - by rewrite app_nil_r.
  - rewrite (IH (pushMesh acc md)), (IH (pushMesh [] md)), pushMesh_app.
    by rewrite <- app_assoc.
Qed.

Lemma pushMesh_length (md : meshData) :
  (md_indices md = None -> flat_triples (md_positions md)) ->
  length (pushMesh [] md) = 3 * mesh_vertices md.
Proof.
  unfold pushMesh, mesh_vertices. destruct (md_indices md) as [indices|].
  - intros _. rewrite push_indexed. simpl. by apply concat_triples_length.
  - intros H. simpl. by apply flat_triples_length, H.
Qed.

(** The combined model of several primitives is their flattened data in
    order; when the primitives without indices are flat triple sequences it
    is one too, and it has one vertex for each index of an indexed
    primitive and each vertex of a primitive without indices. *)
Theorem flattenMeshes_combines (ms1 ms2 : list meshData) :
  Forall (fun md => md_indices md = None -> flat_triples (md_positions md))
    (ms1 ++ ms2) ->
  flattenMeshes (ms1 ++ ms2) = flattenMeshes ms1 ++ flattenMeshes ms2 /\
  flat_triples (flattenMeshes (ms1 ++ ms2)) /\
  vertices (flattenMeshes (ms1 ++ ms2))
  = sum_list (mesh_vertices <$> (ms1 ++ ms2)).
Proof.
  intros Hflat.
  split.
  { unfold flattenMeshes at 1. rewrite foldl_app.
    fold (flattenMeshes ms1). apply flattenMeshes_from. }
  assert (Hlen : forall ms,
    Forall (fun md => md_indices md = None -> flat_triples (md_positions md)) ms ->
    length (flattenMeshes ms) = 3 * sum_list (mesh_vertices <$> ms)).
  { intros ms. induction 1 as [|md ms Hmd _ IH]; [done|].
    change (flattenMeshes (md :: ms)) with (foldl pushMesh (pushMesh [] md) ms).
    rewrite flattenMeshes_from, length_app, IH, pushMesh_length by done.
    rewrite fmap_cons. simpl. lia. }
  specialize (Hlen _ Hflat). unfold flat_triples, vertices. rewrite Hlen.
  split; [by rewrite Nat.mul_comm, Nat.Div0.mod_mul|].
  by rewrite Nat.mul_comm, Nat.div_mul.
Qed.

Lemma flattenMeshes_combines_witness :
  Forall (fun md => md_indices md = None -> flat_triples (md_positions md))
    ([quad] ++ [MeshData (Fin <$> triangle) None]) /\
  flattenMeshes ([quad] ++ [MeshData (Fin <$> triangle) None])
  = flattenMeshes [quad] ++ flattenMeshes [MeshData (Fin <$> triangle) None] /\
  flat_triples (flattenMeshes ([quad] ++ [MeshData (Fin <$> triangle) None])) /\
  vertices (flattenMeshes ([quad] ++ [MeshData (Fin <$> triangle) None]))
  = sum_list (mesh_vertices <$> ([quad] ++ [MeshData (Fin <$> triangle) None])).
Proof.
  assert (H : Forall (fun md => md_indices md = None ->
                                flat_triples (md_positions md))
                ([quad] ++ [MeshData (Fin <$> triangle) None])).
  { repeat constructor. }
  split; [exact H|].
  exact (flattenMeshes_combines [quad] [MeshData (Fin <$> triangle) None] H).
Defined.

(** An index past the last vertex raises nothing: the output vertex at its
    place is (NaN, NaN, NaN). *)
Theorem deindex_out_of_range (md : meshData) (indices : list nat)
    (i idx : nat) :
  flat_triples (md_positions md) ->
  md_indices md = Some indices ->
  indices !! i = Some idx ->
  vertices (md_positions md) <= idx ->
  vertex (flattenMeshes [md]) i = Some (NaN, NaN, NaN).
Proof.
  intros Hflat Hind Hi Hidx.
  unfold flattenMeshes, pushMesh. simpl. rewrite Hind, push_indexed. simpl.
  set (f := fun i => [get (md_positions md) (i * 3);
                      get (md_positions md) (i * 3 + 1);
                      get (md_positions md) (i * 3 + 2)]).
  assert (Hf : forall i, length (f i) = 3) by done.
  pose proof (flat_triples_length _ Hflat) as Hlen.
  assert (Hget : forall k, idx * 3 <= k -> get (md_positions md) k = NaN).
  { intros k Hk. unfold get. rewrite lookup_ge_None_2 by lia. done. }
  unfold vertex.
  replace (3 * i) with (3 * i + 0) at 1 by lia.
  rewrite !(concat_triples_lookup f indices i _ idx Hf Hi) by lia.
  simpl. by rewrite !Hget by lia.
Qed.

Lemma deindex_out_of_range_witness :
  flat_triples (md_positions stray_index) /\
  vertices (md_positions stray_index) <= 5 /\
  vertex (flattenMeshes [stray_index]) 2 = Some (NaN, NaN, NaN).
Proof.
  assert (H1 : flat_triples (md_positions stray_index)) by reflexivity.
  assert (H2 : vertices (md_positions stray_index) <= 5) by (vm_compute; lia).
  split; [exact H1|]. split; [exact H2|].
  exact (deindex_out_of_range stray_index [0; 1; 5] 2 5 H1 eq_refl eq_refl H2).
Defined.

(** ** [normalizeGeometry]: degenerate inputs *)

Lemma normalizeGeometry_empty (size : num) : normalizeGeometry [] size = [].
Proof. reflexivity. Qed.

(** The extents and the scale of a non-empty finite sequence. *)
Lemma scale_fin (qs : list Q) :
  flat_triples (Fin <$> qs) -> qs <> [] ->
  exists lo0 hi0 lo1 hi1 lo2 hi2 : Q,
    (axis_min (bounds (Fin <$> qs)) 0 = Fin lo0 /\
     axis_max (bounds (Fin <$> qs)) 0 = Fin hi0 /\ (lo0 <= hi0)%Q) /\
    (axis_min (bounds (Fin <$> qs)) 1 = Fin lo1 /\
     axis_max (bounds (Fin <$> qs)) 1 = Fin hi1 /\ (lo1 <= hi1)%Q) /\
    (axis_min (bounds (Fin <$> qs)) 2 = Fin lo2 /\
     axis_max (bounds (Fin <$> qs)) 2 = Fin hi2 /\ (lo2 <= hi2)%Q) /\
    bbox_scale (bounds (Fin <$> qs))
    = Fin (Qmax (Qmax (hi0 - lo0) (hi1 - lo1)) (hi2 - lo2)).
Proof.
  intros Hflat Hne.
  destruct (axis_box qs 0 Hflat Hne) as (lo0 & hi0 & L0 & H0 & I0 & _ & B0); [lia|].
  destruct (axis_box qs 1 Hflat Hne) as (lo1 & hi1 & L1 & H1 & I1 & _ & B1); [lia|].
  destruct (axis_box qs 2 Hflat Hne) as (lo2 & hi2 & L2 & H2 & I2 & _ & B2); [lia|].
  exists lo0, hi0, lo1, hi1, lo2, hi2.
  pose proof (B0 lo0 I0) as [_ ?]. pose proof (B1 lo1 I1) as [_ ?].
  pose proof (B2 lo2 I2) as [_ ?].
  do 3 (split; [done|]).
  simpl in L0, H0, L1, H1, L2, H2.
  unfold bbox_scale, extentX, extentY, extentZ.
  by rewrite L0, H0, L1, H1, L2, H2.
Qed.

Lemma Qmax3_bounds (a b c : Q) :
  (a <= Qmax (Qmax a b) c)%Q /\ (b <= Qmax (Qmax a b) c)%Q
  /\ (c <= Qmax (Qmax a b) c)%Q.
Proof.
  pose proof (Q.le_max_l (Qmax a b) c). pose proof (Q.le_max_r (Qmax a b) c).
  pose proof (Q.le_max_l a b). pose proof (Q.le_max_r a b).
  repeat split; lra.
Qed.

Lemma qcolumn_elem (qs : list Q) (k : nat) :
  flat_triples (Fin <$> qs) -> k < length qs ->
  default 0%Q (qs !! k) ∈ qcolumn qs (k mod 3).
Proof.
  intros Hflat Hk. unfold qcolumn.
  pose proof (flat_triples_length _ Hflat) as E.
  rewrite vertices_fin, length_fmap in E.
  pose proof (Nat.div_mod_eq k 3) as Hdm.
  pose proof (Nat.mod_upper_bound k 3).
  apply list_elem_of_fmap. exists (k / 3). split.
  - f_equal. f_equal. lia.
  - apply elem_of_seq. lia.
Qed.

Lemma Qsgn_zero (a : Q) : (a == 0)%Q -> Qsgn a = 0%Z.
Proof.
  unfold Qeq, Qsgn. simpl. intros H. rewrite Z.mul_1_r in H. by rewrite H.
Qed.

(** When all vertices coincide the scale is zero and every number of the
    result is NaN, whatever the size: no exception is raised. *)
Theorem normalizeGeometry_degenerate (qs : list Q) (size : num) (k : nat) :
  flat_triples (Fin <$> qs) -> qs <> [] ->
  bbox_scale (bounds (Fin <$> qs)) =n= zero ->
  k < length qs ->
  normalizeGeometry (Fin <$> qs) size !! k = Some NaN.
Proof.
  intros Hflat Hne Hdeg Hk.
  pose proof (Nat.mod_upper_bound k 3 ltac:(lia)) as Hj.
  destruct (axis_box qs (k mod 3) Hflat Hne Hj)
    as (lo & hi & Hlo & Hhi & _ & _ & Hbox).
  destruct (scale_fin qs Hflat Hne)
    as (lo0 & hi0 & lo1 & hi1 & lo2 & hi2 & (L0 & H0 & ?) & (L1 & H1 & ?)
        & (L2 & H2 & ?) & Hs).
  rewrite Hs in Hdeg. simpl in Hdeg.
  destruct (Qmax3_bounds (hi0 - lo0) (hi1 - lo1) (hi2 - lo2)) as (M0 & M1 & M2).
  assert (Hext : (hi - lo <= 0)%Q).
  { destruct (k mod 3) as [|[|[|j]]]; [| | |lia];
      rewrite Hlo in *; rewrite Hhi in *; simplify_eq; lra. }
  destruct (Hbox _ (qcolumn_elem qs k Hflat Hk)) as [Hx1 Hx2].
  rewrite (lookup_get _ k)
    by (by rewrite normalizeGeometry_length, length_fmap).
  f_equal. rewrite normalizeGeometry_get by (by rewrite length_fmap).
  unfold normalized_at.
  rewrite axis_center_eq, Hlo, Hhi, Hs, get_fin by done.
  set (x := default 0%Q (qs !! k)) in *.
  change ((Fin x - (Fin lo + Fin hi) / two)%num)
    with (Fin (x - (lo + hi) / 2)).
  unfold ndiv.
  rewrite (Qeq_eq_bool _ _ Hdeg).
  rewrite Qsgn_zero; [done|].
  assert (E : ((lo + hi) / 2 == (lo + hi) * (1 # 2))%Q) by field.
  rewrite E. lra.
Qed.

Lemma normalizeGeometry_degenerate_witness :
  flat_triples (Fin <$> point3) /\ point3 <> [] /\
  bbox_scale (bounds (Fin <$> point3)) =n= zero /\
  normalizeGeometry (Fin <$> point3) (Fin 2) !! 4 = Some NaN.
Proof.
  assert (H1 : flat_triples (Fin <$> point3)) by reflexivity.
  assert (H2 : point3 <> []) by discriminate.
  assert (H3 : bbox_scale (bounds (Fin <$> point3)) =n= zero) by reflexivity.
  split; [exact H1|]. split; [exact H2|]. split; [exact H3|].
  apply (normalizeGeometry_degenerate point3 (Fin 2) 4 H1 H2 H3).
  simpl. lia.
Defined.

Lemma nltb_zero_fin (s : Q) : nltb zero (Fin s) = true -> (0 < s)%Q.
Proof.
  unfold nltb, zero. intros H. apply negb_true_iff in H.
  destruct (Qlt_le_dec 0 s) as [|Hle]; [done|].
  apply Qle_bool_iff in Hle. congruence.
Qed.

(** ** [expandToMaxVertices]: a mesh without vertices, applying it twice *)

Lemma Math_max_of_same (counts : list nat) (M : nat) :
  counts <> [] -> Forall (fun c => c = M) counts -> Math_max_of counts = M.
Proof.
  intros Hne Hall. destruct counts as [|c counts]; [done|].
  clear Hne. revert c Hall.
  induction counts as [|d counts IH]; intros c Hall.
  - apply Forall_inv in Hall. simpl. lia.
  - pose proof (Forall_inv Hall) as Hc. apply Forall_inv_tail in Hall.
    specialize (IH d Hall). simpl in *. lia.
Qed.

(** A mesh without vertices cannot be padded by repetition: beside a mesh
    that has vertices it comes back as long as the others, filled with NaN,
    and no exception is raised. *)
Theorem expandToMaxVertices_empty_mesh (models : list model) (k : nat)
    (m : model) :
  Forall (fun m => flat_triples (positions m)) models ->
  models !! k = Some m ->
  positions m = [] ->
  (exists m0, m0 ∈ models /\ 1 <= vertices (positions m0)) ->
  exists M : nat,
    1 <= M /\
    (forall m0, m0 ∈ models -> vertices (positions m0) <= M) /\
    expandToMaxVertices models !! k
    = Some (Model (replicate (3 * M) NaN) (Some 0)).
Proof.
  intros Hflat Hk Hempty (m0 & Hm0 & Hpos).
  set (M := Math_max_of ((fun m => length (positions m) / 3) <$> models)).
  exists M.
  pose proof (vertices_le_max _ _ Hm0) as HM0. fold M in HM0.
  split; [lia|]. split; [intros m1 Hm1; by apply vertices_le_max|].
  rewrite (expandToMaxVertices_lookup _ _ _ Hk). fold M. f_equal.
  assert (Hm : m ∈ models) by (by eapply list_elem_of_lookup_2).
  rewrite Forall_forall in Hflat. pose proof (Hflat m Hm) as Hfm.
  pose proof (expandModel_vertexCount M m) as Hvc.
  pose proof (expandModel_length M m Hfm) as Hlen.
  destruct (expandModel M m) as [pos vc] eqn:Hexp. simpl in *.
  rewrite Hvc, Hempty. f_equal.
  apply list_eq. intros i.
  destruct (decide (i < 3 * M)) as [Hi|Hi].
  - rewrite lookup_replicate_2 by done.
    pose proof (expandModel_lookup M m i Hfm) as Hl.
    rewrite Hexp in Hl. simpl in Hl. rewrite Hl.
    + rewrite Hempty. unfold get. by rewrite lookup_nil.
    + pose proof (vertices_le_max _ _ Hm). by fold M in H.
    + done.
  - rewrite lookup_ge_None_2 by lia.
    symmetry. apply lookup_replicate_None. lia.
Qed.

Lemma expandToMaxVertices_empty_mesh_witness :
  Forall (fun m => flat_triples (positions m)) with_empty_mesh /\
  (exists m0, m0 ∈ with_empty_mesh /\ 1 <= vertices (positions m0)) /\
  exists M : nat,
    1 <= M /\
    (forall m0, m0 ∈ with_empty_mesh -> vertices (positions m0) <= M) /\
    expandToMaxVertices with_empty_mesh !! 0
    = Some (Model (replicate (3 * M) NaN) (Some 0)).
Proof.
  assert (H1 : Forall (fun m => flat_triples (positions m)) with_empty_mesh)
    by repeat constructor.
  assert (H2 : exists m0, m0 ∈ with_empty_mesh /\ 1 <= vertices (positions m0)).
  { exists (Model (Fin <$> triangle) None). split; [right; left|].
    vm_compute. lia. }
  split; [exact H1|]. split; [exact H2|].
  exact (expandToMaxVertices_empty_mesh with_empty_mesh 0 (Model [] None)
           H1 eq_refl eq_refl H2).
Defined.

(** Applying [expandToMaxVertices] to its own result changes no position;
    it only overwrites [vertexCount] with the common, padded count. *)
Theorem expandToMaxVertices_twice (models : list model) :
  Forall (fun m => flat_triples (positions m)) models ->
  positions <$> expandToMaxVertices (expandToMaxVertices models)
  = positions <$> expandToMaxVertices models /\
  Forall (fun m =>
            vertexCount m
            = Some (Math_max_of
                      ((fun m => length (positions m) / 3) <$> models)))
    (expandToMaxVertices (expandToMaxVertices models)).
Proof.
  intros Hflat.
  set (M := Math_max_of ((fun m => length (positions m) / 3) <$> models)).
  set (out := expandToMaxVertices models).
  assert (Hout : Forall (fun m => length (positions m) = 3 * M) out).
  { unfold out, expandToMaxVertices. fold M.
    apply Forall_fmap. eapply Forall_impl; [exact Hflat|].
    intros m Hm. simpl. by apply expandModel_length. }
  destruct models as [|m0 models]; [by split|].
  assert (HM' : Math_max_of ((fun m => length (positions m) / 3) <$> out) = M).
  { apply Math_max_of_same; [done|].
    apply Forall_fmap. eapply Forall_impl; [exact Hout|].
    intros m Hm. unfold compose. rewrite Hm, Nat.mul_comm.
    by apply Nat.div_mul. }
  assert (Hagain : forall m, length (positions m) = 3 * M ->
                             expandModel M m = Model (positions m) (Some M)).
  { intros m Hm. unfold expandModel.
    rewrite Hm, (Nat.mul_comm 3 M), Nat.div_mul by done.
    by rewrite Nat.eqb_refl. }
  assert (Hexp : expandToMaxVertices out
                 = (fun m => Model (positions m) (Some M)) <$> out).
  { unfold expandToMaxVertices. rewrite HM'. apply Forall_fmap_ext_1.
    eapply Forall_impl; [exact Hout|]. intros m Hm. by apply Hagain. }
  rewrite Hexp. split.
  - by rewrite <- list_fmap_compose.
  - apply Forall_fmap. by apply Forall_true.
Qed.

Lemma expandToMaxVertices_twice_witness :
  Forall (fun m => flat_triples (positions m)) two_meshes /\
  positions <$> expandToMaxVertices (expandToMaxVertices two_meshes)
  = positions <$> expandToMaxVertices two_meshes /\
  Forall (fun m =>
            vertexCount m
            = Some (Math_max_of
                      ((fun m => length (positions m) / 3) <$> two_meshes)))
    (expandToMaxVertices (expandToMaxVertices two_meshes)).
Proof.
  assert (H : Forall (fun m => flat_triples (positions m)) two_meshes)
    by repeat constructor.
  split; [exact H|]. exact (expandToMaxVertices_twice two_meshes H).
Defined.

(** ** [generateFallbackShape] and [init] *)

Lemma fallback_row_length (Math_sin Math_cos : num -> num) (Math_PI : num)
    (i : nat) (js : list nat) (acc : list num) :
  length (foldl (fun positions j =>
                   positions ++ fallback_vertex Math_sin Math_cos Math_PI i j)
            acc js)
  = length acc + 3 * length js.
Proof.
  revert acc. induction js as [|j js IH]; intros acc; simpl; [lia|].
  rewrite IH, length_app. simpl. lia.
Qed.

Lemma fallback_grid_length (Math_sin Math_cos : num -> num) (Math_PI : num)
    (rows cols : list nat) (acc : list num) :
  length (foldl (fun positions i =>
            foldl (fun positions j =>
                     positions ++ fallback_vertex Math_sin Math_cos Math_PI i j)
              positions cols) acc rows)
  = length acc + 3 * (length rows * length cols).
Proof.
  revert acc. induction rows as [|i rows IH]; intros acc.
  - simpl. lia.
  - cbn [foldl]. rewrite IH, fallback_row_length. cbn [length]. lia.
Qed.

Lemma generateFallbackShape_length (Math_sin Math_cos : num -> num)
    (Math_PI : num) :
  length (generateFallbackShape Math_sin Math_cos Math_PI)
  = 3 * ((segments + 1) * (segments + 1)).
Proof.
  unfold generateFallbackShape.
  rewrite fallback_grid_length, length_seq. cbn [length]. lia.
Qed.

Lemma flattenMeshes_length (ms : list meshData) :
  Forall (fun md => md_indices md = None -> flat_triples (md_positions md)) ms ->
  length (flattenMeshes ms) = 3 * sum_list (mesh_vertices <$> ms).
Proof.
  induction 1 as [|md ms Hmd _ IH]; [done|].
  change (flattenMeshes (md :: ms)) with (foldl pushMesh (pushMesh [] md) ms).
  rewrite flattenMeshes_from, length_app, IH, pushMesh_length by done.
  rewrite fmap_cons. simpl. lia.
Qed.

Lemma loadGLB_flat (JSON_parse : list Z -> result gltf)
    (arrayBuffer : list Byte.byte) (ms : list meshData) :
  loadGLB JSON_parse arrayBuffer = Ok ms ->
  Forall (fun md => flat_triples (md_positions md)) ms.
Proof.
  unfold loadGLB. intros H.
  apply bind_Ok in H as (magic & _ & H).
  case_match; [discriminate|].
  apply bind_Ok in H as (jl & _ & H).
  apply bind_Ok in H as (type & _ & H).
  case_match; [discriminate|].
  apply bind_Ok in H as (jsonData & _ & H).
  apply bind_Ok in H as (g & _ & H).
  apply bind_Ok in H as (bl & _ & H).
  apply bind_Ok in H as (binaryData & _ & H).
  unfold extractMeshes in H. destruct (meshes g) as [meshList|].
  - apply mapM_Ok in H. induction H as [|p md ps mds Hp _ IH]; constructor.
    + by apply loadPrimitive_Ok in Hp as (acc & _ & _ & ? & _).
    + exact IH.
  - injection H as <-. constructor.
Qed.

Lemma loadModel_flat (Math_sin Math_cos : num -> num) (Math_PI : num)
    (JSON_parse : list Z -> result gltf) (fetched : result (list Byte.byte)) :
  flat_triples
    (positions (loadModel Math_sin Math_cos Math_PI JSON_parse fetched)).
Proof.
  unfold loadModel, loadGLB_url, flat_triples.
  destruct (fetched ≫= _) as [ms|e] eqn:Hload; cbn [positions].
  - rewrite normalizeGeometry_length.
    apply bind_Ok in Hload as (buf & _ & Hload).
    apply loadGLB_flat in Hload.
    rewrite flattenMeshes_length.
    + by rewrite (Nat.mul_comm 3), Nat.Div0.mod_mul.
    + eapply Forall_impl; [exact Hload|]. auto.
  - rewrite generateFallbackShape_length.
    by rewrite (Nat.mul_comm 3), Nat.Div0.mod_mul.
Qed.

Lemma loadScroll_flat (JSON_parse : list Z -> result gltf)
    (fetched : result (list Byte.byte)) (m : model) :
  loadScroll JSON_parse fetched = Some m -> flat_triples (positions m).
Proof.
  unfold loadScroll, loadGLB_url, flat_triples.
  destruct (fetched ≫= _) as [ms|e] eqn:Hload; [|discriminate].
  intros [= <-]. cbn [positions]. rewrite normalizeGeometry_length.
  apply bind_Ok in Hload as (buf & _ & Hload).
  apply loadGLB_flat in Hload.
  rewrite flattenMeshes_length.
  - by rewrite (Nat.mul_comm 3), Nat.Div0.mod_mul.
  - eapply Forall_impl; [exact Hload|]. auto.
Qed.

Lemma mapM_defined_Some {A : Type} (l : list A) :
  mapM defined (Some <$> l) = Ok l.
Proof.
  induction l as [|a l IH]; [done|]. rewrite fmap_cons. simpl.
  by rewrite IH.
Qed.

Lemma mapM_defined_app {A : Type} (l : list A) (o : option A) :
  mapM defined ((Some <$> l) ++ [o]) =
  match o with Some a => Ok (l ++ [a]) | None => Throw TypeError end.
Proof.
  induction l as [|a l IH].
  - by destruct o.
  - rewrite fmap_cons. simpl. rewrite IH. by destruct o.
Qed.

(** The outcome of [init] on at least one object asset is decided by the
    scroll asset alone: when it loads, [init] succeeds whatever became of
    the object assets; when it fails, [init] ends on a TypeError. *)
Theorem init_outcome (Math_sin Math_cos : num -> num) (Math_PI : num)
    (JSON_parse : list Z -> result gltf)
    (glbs : list (result (list Byte.byte)))
    (scroll : result (list Byte.byte)) :
  glbs <> [] ->
  match loadGLB_url JSON_parse scroll with
  | Ok _ =>
      exists r s, init Math_sin Math_cos Math_PI JSON_parse glbs scroll
                  = Ok (r, s)
  | Throw _ =>
      init Math_sin Math_cos Math_PI JSON_parse glbs scroll = Throw TypeError
  end.
Proof.
  intros Hne. unfold init, expandToMaxVertices_refs, loadScroll.
  rewrite length_fmap.
  destruct glbs as [|g0 glbs]; [done|]. cbn [length Nat.eqb].
  rewrite mapM_defined_app.
  destruct (loadGLB_url JSON_parse scroll) as [ms|e]; [|done].
  unfold mbind, result_bind.
  set (out := expandToMaxVertices _).
  assert (Hlen : length out = S (S (length glbs))).
  { unfold out, expandToMaxVertices.
    rewrite length_fmap, length_app, fmap_cons. simpl.
    rewrite length_fmap. lia. }
  destruct (lookup_lt_is_Some_2 out 0) as [m0 Hm0]; [lia|].
  destruct (lookup_lt_is_Some_2 out (length out - 1)) as [ml Hml]; [lia|].
  rewrite Hm0, Hml. simpl. eauto.
Qed.

Lemma init_outcome_witness :
  [Throw (Error "Failed to fetch") : result (list Byte.byte)] <> [] /\
  exists r s,
    init (fun x => x) (fun x => x) (Fin 3) (fun _ => Ok quad_gltf)
      [Throw (Error "Failed to fetch")] (Ok quad_glb) = Ok (r, s).
Proof.
  assert (H1 : [Throw (Error "Failed to fetch") : result (list Byte.byte)]
               <> []) by discriminate.
  split; [exact H1|].
  pose proof (init_outcome (fun x => x) (fun x => x) (Fin 3)
                (fun _ => Ok quad_gltf) _ (Ok quad_glb) H1) as H.
  assert (E : loadGLB_url (fun _ => Ok quad_gltf) (Ok quad_glb) = Ok [quad])
    by (vm_compute; reflexivity).
  rewrite E in H. exact H.
Defined.

(** ** The buffers during the animation *)

Lemma ripple_loop_length (Math_sin Math_sqrt : num -> num) (phase p : num)
    (idx : list nat) (pos : list num) :
  length (foldl (ripple_step Math_sin Math_sqrt phase p) pos idx) = length pos.
Proof.
  revert pos. induction idx as [|i idx IH]; intros pos; [done|].
  cbn [foldl]. rewrite IH. unfold ripple_step. by rewrite !length_insert.
Qed.

Lemma same_plan_refl (s : sched) : same_plan s s.
Proof. by repeat split. Qed.

Lemma same_plan_trans (s1 s2 s3 : sched) :
  same_plan s1 s2 -> same_plan s2 s3 -> same_plan s1 s3.
Proof.
  unfold same_plan. intros (?&?&?&?&?&?&?) (?&?&?&?&?&?&?).
  repeat split; congruence.
Qed.

Lemma countFrame_plan (s : sched) :
  same_plan (Sched (position_array s) (targetPosition_array s)
               (originalPosition_array s) (needsUpdate s) (morphProgress s)
               (ripplePhase s) (S (frameCount s)) (localCurrentShape s)
               (isMorphing s) (lastViewMode s) (viewMorphProgress s)
               (isViewMorphing s) (currentShape s))
            (countFrame s).
Proof. by repeat split. Qed.

Lemma viewMorphStep_plan (s : sched) : same_plan s (viewMorphStep s).
Proof.
  unfold viewMorphStep. case_match; [|apply same_plan_refl].
  repeat split. cbn. apply interpolate_length.
Qed.

Lemma morphStep_plan (s : sched) : same_plan s (morphStep s).
Proof.
  unfold morphStep. case_match; [|apply same_plan_refl].
  repeat split. cbn. apply interpolate_length.
Qed.

Lemma rippleStep_plan (Math_sin Math_sqrt : num -> num) (s : sched) :
  same_plan s (rippleStep Math_sin Math_sqrt s).
Proof.
  unfold rippleStep. case_match; repeat split. cbn.
  apply ripple_loop_length.
Qed.

Lemma same_plan_fit (r : refs) (s s' : sched) :
  same_plan s s' -> buffers_fit r s -> buffers_fit r s'.
Proof.
  unfold same_plan, buffers_fit.
  intros (Ht & Ho & _ & _ & _ & _ & Hl) (H1 & H2 & H3).
  rewrite Ht, Ho, Hl. done.
Qed.

Lemma retarget_fit (r : refs) (m : model) (n : nat) (mode : viewMode)
    (s : sched) :
  buffers_fit r s -> length (positions m) = length (position_array s) ->
  retarget m n mode s =
  (Sched (position_array s) (positions m) (position_array s)
     (needsUpdate s) (morphProgress s) (ripplePhase s) (frameCount s)
     n (isMorphing s) mode (viewMorphProgress s) (isViewMorphing s)
     (currentShape s), None).
Proof.
  intros (H1 & H2 & _) Hm. unfold retarget.
  rewrite array_set_same_length by congruence.
  rewrite array_set_same_length by congruence. done.
Qed.

Lemma next_shape_defined (r : refs) (l : nat) :
  1 < length (modelDataRef r) ->
  exists m, modelDataRef r !! ((l + 1) mod length (modelDataRef r)) = Some m.
Proof.
  intros Hn. apply lookup_lt_is_Some_2, Nat.mod_upper_bound. lia.
Qed.

(** The trigger on buffers that fit: never an exception, the position
    buffer as it was, the other two buffers still fitting. *)
Lemma triggerStep_fit (r : refs) (s : sched) :
  buffers_fit r s ->
  exists s', triggerStep r s = (s', None) /\ buffers_fit r s' /\
             position_array s' = position_array s /\
             frameCount s' = frameCount s.
Proof.
  intros Hfit.
  assert (Hscroll : length (positions (scrollModelRef r))
                    = length (position_array s)).
  { destruct Hfit as (_ & _ & Hall). by inversion Hall. }
  assert (Hview : forall l mode,
    exists s', retarget (scrollModelRef r) l mode (resetMorph s) = (s', None)
               /\ buffers_fit r s' /\ position_array s' = position_array s
               /\ frameCount s' = frameCount s).
  { intros l mode. eexists. split; [by apply (retarget_fit r)|].
    destruct Hfit as (_ & _ & Hall). by repeat split. }
  unfold triggerStep.
  destruct (bool_decide (viewModeRef r = objects)
            && (frameCount s mod shapeChangeInterval =? 0)
            && (1 <? length (modelDataRef r))
            && negb (isViewMorphing s)) eqn:Hrot.
  - apply andb_prop in Hrot as [Hrot _].
    apply andb_prop in Hrot as [_ Hn]. apply Nat.ltb_lt in Hn.
    destruct (next_shape_defined r (localCurrentShape s) Hn) as [m Hm].
    cbn [localCurrentShape resetMorph setCurrentShape]. rewrite Hm.
    assert (Hlen : length (positions m) = length (position_array s)).
    { destruct Hfit as (_ & _ & Hall). inversion Hall as [|? ? _ Hms].
      rewrite Forall_forall in Hms. apply Hms.
      by eapply list_elem_of_lookup_2. }
    eexists. split; [by apply (retarget_fit r)|].
    destruct Hfit as (_ & _ & Hall). by repeat split.
  - repeat case_match; try apply Hview.
    by exists s.
Qed.

Lemma animate_fit (Math_sin Math_sqrt : num -> num) (r : refs) (s : sched) :
  buffers_fit r s ->
  exists s', animate Math_sin Math_sqrt r s = (s', None) /\
             buffers_fit r s' /\ frameCount s' = S (frameCount s).
Proof.
  intros Hfit. unfold animate.
  assert (Hfit1 : buffers_fit r (viewMorphStep (countFrame s))).
  { apply (same_plan_fit r (countFrame s)); [apply viewMorphStep_plan|done]. }
  destruct (triggerStep_fit r _ Hfit1) as (s1 & -> & Hfit2 & _ & Hfc).
  eexists. split; [done|].
  pose proof (morphStep_plan s1) as Hm.
  pose proof (rippleStep_plan Math_sin Math_sqrt (morphStep s1)) as Hr.
  pose proof (same_plan_trans _ _ _ Hm Hr) as Hp.
  split; [by apply (same_plan_fit r s1)|].
  destruct Hp as (_ & _ & -> & _). rewrite Hfc.
  by destruct (viewMorphStep_plan (countFrame s)) as (_ & _ & -> & _).
Qed.

Lemma press_fit (r : refs) (s : sched) (clicks : list viewMode) :
  buffers_fit r s -> buffers_fit (foldl press r clicks) s.
Proof.
  revert r. induction clicks as [|mode clicks IH]; intros r Hfit; [done|].
  cbn [foldl]. apply IH. unfold press, handleButtonClick.
  by case_match.
Qed.

(** On buffers that fit the models, no frame of the morph throws, whatever
    buttons are pressed between the frames and however many frames run;
    the buffers still fit afterwards and every frame was counted. *)
Theorem run_never_throws (Math_sin Math_sqrt : num -> num)
    (frames : list (list viewMode)) (r : refs) (s : sched) :
  buffers_fit r s ->
  exists r' s', run Math_sin Math_sqrt frames r s = (r', s', []) /\
                buffers_fit r' s' /\
                frameCount s' = frameCount s + length frames.
Proof.
  revert r s. induction frames as [|clicks frames IH]; intros r s Hfit.
  - exists r, s. cbn. split; [done|]. split; [done|lia].
  - cbn [run]. apply (press_fit _ _ clicks) in Hfit.
    destruct (animate_fit Math_sin Math_sqrt _ _ Hfit) as (s1 & -> & Hfit1 & Hfc).
    destruct (IH _ _ Hfit1) as (r' & s' & -> & Hfit' & Hfc').
    exists r', s'. split; [done|]. split; [done|]. cbn [length]. lia.
Qed.

Lemma run_never_throws_witness :
  buffers_fit about_pressed mid_morph /\
  exists r' s',
    run (fun x => x) (fun x => x) [[objects]; []; [CV; CV; icons]]
      about_pressed mid_morph = (r', s', []) /\
    buffers_fit r' s' /\
    frameCount s' = frameCount mid_morph + 3.
Proof.
  assert (H : buffers_fit about_pressed mid_morph).
  { unfold buffers_fit. cbn. repeat constructor. }
  split; [exact H|].
  exact (run_never_throws (fun x => x) (fun x => x)
           [[objects]; []; [CV; CV; icons]] about_pressed mid_morph H).
Defined.

(** ** What [init] leaves *)

Lemma expandModel_prefix (M : nat) (m : model) :
  flat_triples (positions m) -> vertices (positions m) <= M ->
  take (length (positions m)) (positions (expandModel M m)) = positions m.
Proof.
  intros Hflat HM. apply list_eq. intros k.
  pose proof (flat_triples_length _ Hflat) as Hlen. fold (vertices (positions m)) in Hlen.
  destruct (decide (k < length (positions m))) as [Hk|Hk].
  - rewrite lookup_take_lt by done.
    rewrite expandModel_lookup by (done || lia).
    unfold source_index. rewrite decide_True by lia.
    by rewrite lookup_get.
  - rewrite lookup_take_ge by lia. symmetry. apply lookup_ge_None. lia.
Qed.

(** The refs and the state of a successful [init], from the models it
    loaded. *)
Lemma init_Ok (Math_sin Math_cos : num -> num) (Math_PI : num)
    (JSON_parse : list Z -> result gltf)
    (glbs : list (result (list Byte.byte)))
    (scroll : result (list Byte.byte)) (r : refs) (s : sched) :
  init Math_sin Math_cos Math_PI JSON_parse glbs scroll = Ok (r, s) ->
  exists g0 glbs' sm,
    glbs = g0 :: glbs' /\
    loadScroll JSON_parse scroll = Some sm /\
    let loaded := loadModel Math_sin Math_cos Math_PI JSON_parse <$> glbs in
    let M := Math_max_of ((fun m => length (positions m) / 3)
                            <$> (loaded ++ [sm])) in
    r = Refs objects (expandModel M <$> loaded) (expandModel M sm) /\
    s = initial_sched
          (expandModel M (loadModel Math_sin Math_cos Math_PI JSON_parse g0)).
Proof.
  unfold init, expandToMaxVertices_refs. rewrite length_fmap.
  destruct glbs as [|g0 glbs']; [done|]. cbn [length Nat.eqb].
  rewrite mapM_defined_app.
  destruct (loadScroll JSON_parse scroll) as [sm|]; [|done].
  unfold mbind, result_bind.
  set (loaded := loadModel _ _ _ _ <$> (g0 :: glbs')).
  unfold expandToMaxVertices. set (M := Math_max_of _).
  rewrite fmap_app, length_app, length_fmap.
  cbn [fmap list_fmap length].
  replace (length loaded + 1 - 1) with (length (expandModel M <$> loaded))
    by (rewrite length_fmap; lia).
  rewrite take_app_length.
  rewrite (list_lookup_middle _ [] _ _ eq_refl).
  unfold loaded at 1. rewrite fmap_cons. cbn [lookup list_lookup app defined].
  intros [= <- <-]. exists g0, glbs', sm. done.
Qed.

Lemma init_fit (Math_sin Math_cos : num -> num) (Math_PI : num)
    (JSON_parse : list Z -> result gltf)
    (glbs : list (result (list Byte.byte)))
    (scroll : result (list Byte.byte)) (r : refs) (s : sched) :
  init Math_sin Math_cos Math_PI JSON_parse glbs scroll = Ok (r, s) ->
  buffers_fit r s.
Proof.
  intros H. apply init_Ok in H as (g0 & glbs' & sm & -> & Hsm & Hr & Hs).
  cbv zeta in Hr, Hs. set (M := Math_max_of _) in *.
  apply loadScroll_flat in Hsm. subst r s.
  unfold buffers_fit. cbn.
  rewrite !expandModel_length by apply loadModel_flat.
  split; [done|]. split; [done|].
  constructor; [by apply expandModel_length|].
  constructor; [by rewrite expandModel_length by apply loadModel_flat|].
  apply Forall_fmap, Forall_forall. intros m Hm.
  apply list_elem_of_fmap in Hm as (g & -> & _). cbn.
  rewrite expandModel_length by apply loadModel_flat. done.
Qed.

(** A successful [init] leaves the view in [objects] mode with one model
    per object asset, all as long as the three position buffers; the state
    is the initial one on the first model; and every model starts with the
    geometry loaded for its asset (the normalised meshes, or the fallback
    shape when the asset failed to load), whose vertex count it records. *)
Theorem init_establishes_fit (Math_sin Math_cos : num -> num) (Math_PI : num)
    (JSON_parse : list Z -> result gltf)
    (glbs : list (result (list Byte.byte)))
    (scroll : result (list Byte.byte)) (r : refs) (s : sched) :
  init Math_sin Math_cos Math_PI JSON_parse glbs scroll = Ok (r, s) ->
  viewModeRef r = objects /\
  length (modelDataRef r) = length glbs /\
  buffers_fit r s /\
  flat_triples (position_array s) /\
  (exists m, modelDataRef r !! 0 = Some m /\ s = initial_sched m) /\
  forall k g, glbs !! k = Some g ->
    let loaded := loadModel Math_sin Math_cos Math_PI JSON_parse g in
    exists m, modelDataRef r !! k = Some m /\
      take (length (positions loaded)) (positions m) = positions loaded /\
      vertexCount m = Some (vertices (positions loaded)).
Proof.
  intros H. pose proof (init_fit _ _ _ _ _ _ _ _ H) as Hfit.
  apply init_Ok in H as (g0 & glbs' & sm & -> & Hsm & Hr & Hs).
  cbv zeta in Hr, Hs. set (M := Math_max_of _) in *.
  set (load := loadModel Math_sin Math_cos Math_PI JSON_parse) in *.
  split; [by subst r|].
  split; [subst r; cbn [modelDataRef]; by rewrite !length_fmap|].
  split; [done|].
  split.
  { subst s. cbn. unfold flat_triples.
    rewrite expandModel_length by apply loadModel_flat.
    by rewrite (Nat.mul_comm 3), Nat.Div0.mod_mul. }
  split; [subst r s; by eexists|].
  intros k g Hk loaded. subst r. cbn [modelDataRef].
  rewrite !list_lookup_fmap, Hk. eexists. split; [done|].
  split; [|apply expandModel_vertexCount].
  apply expandModel_prefix; [apply loadModel_flat|].
  apply vertices_le_max. apply elem_of_app. left.
  apply list_elem_of_fmap. exists g. split; [done|].
  by eapply list_elem_of_lookup_2.
Qed.

Lemma init_establishes_fit_witness :
  exists r s,
    init (fun x => x) (fun x => x) (Fin 3) (fun _ => Ok quad_gltf)
      [Ok quad_glb; Ok quad_glb] (Ok quad_glb) = Ok (r, s) /\
    length (modelDataRef r) = 2 /\ buffers_fit r s.
Proof.
  assert (H : { rs | init (fun x => x) (fun x => x) (Fin 3)
                       (fun _ => Ok quad_gltf) [Ok quad_glb; Ok quad_glb]
                       (Ok quad_glb) = Ok rs })
    by (eexists; vm_compute; reflexivity).
  destruct H as [[r s] H].
  exists r, s. split; [exact H|].
  destruct (init_establishes_fit _ _ _ _ _ _ r s H) as (_ & Hn & Hfit & _).
  split; [exact Hn|exact Hfit].
Defined.

(** ** The shape rotation *)

Lemma interval_next (f : nat) :
  S f mod shapeChangeInterval = 0 ->
  S f / shapeChangeInterval = f / shapeChangeInterval + 1.
Proof.
  unfold shapeChangeInterval. intros H.
  pose proof (Nat.div_mod_eq (S f) 300). pose proof (Nat.div_mod_eq f 300).
  pose proof (Nat.mod_upper_bound f 300). lia.
Qed.

Lemma interval_same (f : nat) :
  S f mod shapeChangeInterval <> 0 ->
  S f / shapeChangeInterval = f / shapeChangeInterval /\
  S f mod shapeChangeInterval = S (f mod shapeChangeInterval).
Proof.
  unfold shapeChangeInterval. intros H.
  pose proof (Nat.div_mod_eq (S f) 300). pose proof (Nat.div_mod_eq f 300).
  pose proof (Nat.mod_upper_bound f 300).
  pose proof (Nat.mod_upper_bound (S f) 300). lia.
Qed.

Lemma before_rotation_S (r : refs) (s s' : sched) (n : nat) :
  frameCount s' = S (frameCount s) ->
  before_rotation r s (S n) ->
  rotates r s = false /\ before_rotation r s' n.
Proof.
  unfold before_rotation, rotates. intros Hfc [H|H].
  - assert (Hne : S (frameCount s) mod shapeChangeInterval <> 0).
    { unfold shapeChangeInterval in *.
      pose proof (Nat.div_mod_eq (S (frameCount s)) 300).
      pose proof (Nat.div_mod_eq (frameCount s) 300). lia. }
    split.
    + apply andb_false_iff. left. by apply Nat.eqb_neq.
    + left. rewrite Hfc. destruct (interval_same _ Hne) as [_ ->]. lia.
  - split; [|by right].
    apply andb_false_iff. right. apply Nat.ltb_ge. lia.
Qed.

Lemma triggerStep_objects_idle (r : refs) (s : sched) :
  viewModeRef r = objects ->
  (frameCount s mod shapeChangeInterval =? 0) && (1 <? length (modelDataRef r))
  = false ->
  triggerStep r s = (s, None).
Proof.
  intros Hmode Hrot. unfold triggerStep. rewrite Hmode.
  rewrite bool_decide_eq_true_2 by done. cbn [andb].
  rewrite Hrot. cbn [andb].
  by rewrite !bool_decide_eq_false_2 by done.
Qed.

Lemma triggerStep_settled (r : refs) (s : sched) :
  viewModeRef r <> objects -> viewModeRef r = lastViewMode s ->
  triggerStep r s = (s, None).
Proof.
  intros Hmode Hlast. unfold triggerStep. rewrite <- Hlast.
  rewrite (bool_decide_eq_false_2 (_ = objects)) by done. cbn [andb].
  destruct (viewModeRef r); try done;
    repeat (rewrite (bool_decide_eq_false_2 (_ = _)) by done; cbn [andb]);
    rewrite (bool_decide_eq_true_2 (_ = _)) by done; done.
Qed.

Lemma viewMorphStep_frame (s : sched) :
  frameCount (viewMorphStep (countFrame s)) = S (frameCount s).
Proof.
  by destruct (viewMorphStep_plan (countFrame s)) as (_ & _ & -> & _).
Qed.

(** A frame in [objects] mode without a rotation keeps the plan. *)
Lemma animate_waits (Math_sin Math_sqrt : num -> num) (r : refs) (s : sched) :
  viewModeRef r = objects -> rotates r s = false ->
  exists s', animate Math_sin Math_sqrt r s = (s', None) /\
             same_plan (countFrame s) s'.
Proof.
  intros Hmode Hrot. unfold animate.
  rewrite triggerStep_objects_idle;
    [|done|by rewrite viewMorphStep_frame].
  eexists. split; [done|].
  eapply same_plan_trans; [apply viewMorphStep_plan|].
  eapply same_plan_trans; [apply morphStep_plan|apply rippleStep_plan].
Qed.

(** A frame of the rotation. *)
Lemma animate_rotates (Math_sin Math_sqrt : num -> num) (r : refs) (s : sched) :
  viewModeRef r = objects -> isViewMorphing s = false -> buffers_fit r s ->
  rotates r s = true ->
  let next := (localCurrentShape s + 1) mod length (modelDataRef r) in
  exists s' m, animate Math_sin Math_sqrt r s = (s', None) /\
    modelDataRef r !! next = Some m /\
    targetPosition_array s' = positions m /\
    originalPosition_array s' = position_array s /\
    localCurrentShape s' = next /\ currentShape s' = next /\
    lastViewMode s' = objects /\ frameCount s' = S (frameCount s) /\
    length (position_array s') = length (position_array s).
Proof.
  intros Hmode Hview Hfit Hrot next. unfold animate.
  rewrite viewMorphStep_flag by done.
  unfold rotates in Hrot.
  pose proof Hrot as Hn. apply andb_prop in Hn as [_ Hn].
  apply Nat.ltb_lt in Hn.
  destruct (next_shape_defined r (localCurrentShape s) Hn) as [m Hm].
  fold next in Hm.
  assert (Hlen : length (positions m) = length (position_array s)).
  { destruct Hfit as (_ & _ & Hall). inversion Hall as [|? ? _ Hms].
    rewrite Forall_forall in Hms. apply Hms.
    by eapply list_elem_of_lookup_2. }
  unfold triggerStep. rewrite Hmode.
  rewrite bool_decide_eq_true_2 by done.
  cbn [countFrame frameCount isViewMorphing modelDataRef andb].
  rewrite Hrot, Hview. cbn [andb negb].
  cbn [countFrame localCurrentShape]. fold next. rewrite Hm.
  rewrite (retarget_fit r) by done.
  set (s1 := Sched _ _ _ _ _ _ _ _ _ _ _ _ _).
  exists (rippleStep Math_sin Math_sqrt (morphStep s1)), m.
  split; [done|]. split; [done|].
  pose proof (same_plan_trans _ _ _ (morphStep_plan s1)
                (rippleStep_plan Math_sin Math_sqrt (morphStep s1)))
    as (-> & -> & -> & -> & -> & -> & ->).
  done.
Qed.

(** The invariant of the rotation, from any frame and shape. *)
Lemma rotation_from (Math_sin Math_sqrt : num -> num) (r : refs) (n : nat) :
  viewModeRef r = objects ->
  forall (s : sched) (m : model),
    buffers_fit r s -> isViewMorphing s = false ->
    localCurrentShape s < length (modelDataRef r) ->
    currentShape s = localCurrentShape s ->
    modelDataRef r !! localCurrentShape s = Some m ->
    targetPosition_array s = positions m ->
    let next :=
      (localCurrentShape s + (frameCount s + n) / shapeChangeInterval
       - frameCount s / shapeChangeInterval) mod length (modelDataRef r) in
    exists s' m',
      run Math_sin Math_sqrt (replicate n []) r s = (r, s', []) /\
      localCurrentShape s' = next /\ currentShape s' = next /\
      modelDataRef r !! next = Some m' /\
      targetPosition_array s' = positions m'.
Proof.
  intros Hmode. induction n as [|n IH]; intros s m Hfit Hview Hl Hc Hm Ht next.
  - exists s, m. subst next. rewrite Nat.add_0_r.
    replace (_ + _ - _) with (localCurrentShape s) by lia.
    rewrite Nat.mod_small by done. cbn. done.
  - cbn [replicate run foldl].
    pose proof (animate_flag Math_sin Math_sqrt r s Hview) as Hview1.
    destruct (animate_fit Math_sin Math_sqrt r s Hfit)
      as (s1 & Hs1 & Hfit1 & Hfc1).
    rewrite Hs1 in Hview1. cbn [fst] in Hview1.
    assert (Hmono : S (frameCount s) / shapeChangeInterval
                    <= (S (frameCount s) + n) / shapeChangeInterval).
    { apply Nat.Div0.div_le_mono. lia. }
    assert (Hstep : exists m1,
      localCurrentShape s1 < length (modelDataRef r) /\
      currentShape s1 = localCurrentShape s1 /\
      modelDataRef r !! localCurrentShape s1 = Some m1 /\
      targetPosition_array s1 = positions m1 /\
      (localCurrentShape s1 + (frameCount s1 + n) / shapeChangeInterval
       - frameCount s1 / shapeChangeInterval) mod length (modelDataRef r)
      = next).
    { destruct (rotates r s) eqn:Hrot.
      - destruct (animate_rotates Math_sin Math_sqrt r s Hmode Hview Hfit Hrot)
          as (s1' & m1 & Hs1' & Hm1 & Ht1 & _ & Hl1 & Hc1 & _).
        assert (s1' = s1) by congruence. subst s1'.
        exists m1. rewrite Hl1, Hc1, Hfc1.
        split; [apply Nat.mod_upper_bound; lia|].
        split; [done|]. split; [done|]. split; [done|].
        subst next.
        unfold rotates in Hrot. apply andb_prop in Hrot as [Hrot _].
        apply Nat.eqb_eq in Hrot.
        pose proof (interval_next _ Hrot) as Hq.
        replace (frameCount s + S n) with (S (frameCount s) + n) by lia.
        rewrite Hq in *.
        destruct (Nat.le_exists_sub _ _ Hmono) as (k & -> & _).
        replace (_ + (k + _) - _)
          with ((localCurrentShape s + 1) mod length (modelDataRef r) + k)
          by lia.
        replace (localCurrentShape s + _ - _)
          with (localCurrentShape s + 1 + k) by lia.
        apply Nat.Div0.add_mod_idemp_l.
      - destruct (animate_waits Math_sin Math_sqrt r s Hmode Hrot)
          as (s1' & Hs1' & Hp).
        assert (s1' = s1) by congruence. subst s1'.
        destruct Hp as (Ht1 & _ & _ & Hl1 & _ & Hc1 & _).
        cbn in Ht1, Hl1, Hc1.
        exists m. rewrite Hl1, Hc1, Ht1, Hfc1.
        split; [done|]. split; [done|]. split; [done|]. split; [done|].
        subst next.
        replace (frameCount s + S n) with (S (frameCount s) + n) by lia.
        unfold rotates in Hrot. apply andb_false_iff in Hrot as [Hrot|Hrot].
        + apply Nat.eqb_neq in Hrot.
          destruct (interval_same _ Hrot) as [-> _]. done.
        + apply Nat.ltb_ge in Hrot.
          assert (length (modelDataRef r) = 1) as -> by lia.
          by rewrite !Nat.mod_1_r. }
    destruct Hstep as (m1 & Hl1 & Hc1 & Hm1 & Ht1 & Hnext).
    destruct (IH s1 m1 Hfit1 Hview1 Hl1 Hc1 Hm1 Ht1)
      as (s' & m' & Hrun & Hl' & Hc' & Hm' & Ht').
    rewrite Hnext in Hl', Hc', Hm'.
    exists s', m'. rewrite Hs1, Hrun. done.
Qed.

(** In [objects] mode and without button presses, from the state [init]
    leaves, the shape after [n] frames is number [n / 300] modulo the
    number of models: the target buffer holds that model, and the shape
    counter shown to the user agrees. *)
Theorem rotation_schedule (Math_sin Math_sqrt : num -> num) (r : refs)
    (first : model) (n : nat) :
  viewModeRef r = objects ->
  modelDataRef r !! 0 = Some first ->
  buffers_fit r (initial_sched first) ->
  let shape := (n / shapeChangeInterval) mod length (modelDataRef r) in
  exists s' m,
    run Math_sin Math_sqrt (replicate n []) r (initial_sched first)
    = (r, s', []) /\
    localCurrentShape s' = shape /\ currentShape s' = shape /\
    modelDataRef r !! shape = Some m /\
    targetPosition_array s' = positions m.
Proof.
  intros Hmode Hfirst Hfit shape.
  assert (Hlen : 0 < length (modelDataRef r)).
  { apply lookup_lt_Some in Hfirst. lia. }
  destruct (rotation_from Math_sin Math_sqrt r n Hmode (initial_sched first)
              first Hfit eq_refl Hlen eq_refl Hfirst eq_refl)
    as (s' & m & Hrun & Hl & Hc & Hm & Ht).
  cbn [initial_sched localCurrentShape frameCount] in Hl, Hc, Hm.
  replace (0 + (0 + n) / shapeChangeInterval - 0 / shapeChangeInterval)
    with (n / shapeChangeInterval) in Hl, Hc, Hm
    by (cbn [Nat.add]; rewrite Nat.Div0.div_0_l; lia).
  by exists s', m.
Qed.

Lemma rotation_schedule_witness :
  viewModeRef two_shapes = objects /\
  buffers_fit two_shapes (initial_sched (Model [q 0; q 0; q 0] (Some 1))) /\
  exists s' m,
    run (fun x => x) (fun x => x) (replicate 900 []) two_shapes
      (initial_sched (Model [q 0; q 0; q 0] (Some 1))) = (two_shapes, s', []) /\
    localCurrentShape s' = 1 /\ currentShape s' = 1 /\
    modelDataRef two_shapes !! 1 = Some m /\
    targetPosition_array s' = positions m.
Proof.
  assert (H : buffers_fit two_shapes
                (initial_sched (Model [q 0; q 0; q 0] (Some 1)))).
  { unfold buffers_fit. cbn. repeat constructor. }
  split; [reflexivity|]. split; [exact H|].
  exact (rotation_schedule (fun x => x) (fun x => x) two_shapes
           (Model [q 0; q 0; q 0] (Some 1)) 900 eq_refl eq_refl H).
Defined.

(** In [objects] mode nothing is retargeted between two rotations, and
    never with a single model: whatever the mode of the last trigger was and
    whatever morph is under way, the target and original buffers, the shape
    and the mode of the last trigger stay as they are, so a return to
    [objects] is not acted on before the next rotation. *)
Theorem objects_mode_waits (Math_sin Math_sqrt : num -> num) (r : refs)
    (n : nat) (s : sched) :
  viewModeRef r = objects -> before_rotation r s n ->
  exists s',
    run Math_sin Math_sqrt (replicate n []) r s = (r, s', []) /\
    targetPosition_array s' = targetPosition_array s /\
    originalPosition_array s' = originalPosition_array s /\
    localCurrentShape s' = localCurrentShape s /\
    lastViewMode s' = lastViewMode s /\
    currentShape s' = currentShape s /\
    frameCount s' = frameCount s + n.
Proof.
  intros Hmode. revert s. induction n as [|n IH]; intros s Hbefore.
  - exists s. cbn. repeat split; lia.
  - cbn [replicate run foldl].
    destruct (before_rotation_S r s (countFrame s) n eq_refl Hbefore)
      as [Hrot Hnext].
    destruct (animate_waits Math_sin Math_sqrt r s Hmode Hrot)
      as (s1 & -> & Ht & Ho & Hf & Hl & Hv & Hc & _).
    cbn in Ht, Ho, Hf, Hl, Hv, Hc.
    assert (Hnext1 : before_rotation r s1 n).
    { unfold before_rotation in *. by rewrite Hf. }
    destruct (IH s1 Hnext1) as (s' & -> & Ht' & Ho' & Hl' & Hv' & Hc' & Hf').
    exists s'. repeat split; try congruence. lia.
Qed.

Lemma objects_mode_waits_witness :
  viewModeRef two_shapes = objects /\
  before_rotation two_shapes mid_morph 239 /\
  exists s',
    run (fun x => x) (fun x => x) (replicate 239 []) two_shapes mid_morph
    = (two_shapes, s', []) /\
    targetPosition_array s' = targetPosition_array mid_morph /\
    originalPosition_array s' = originalPosition_array mid_morph /\
    localCurrentShape s' = localCurrentShape mid_morph /\
    lastViewMode s' = lastViewMode mid_morph /\
    currentShape s' = currentShape mid_morph /\
    frameCount s' = frameCount mid_morph + 239.
Proof.
  assert (H : before_rotation two_shapes mid_morph 239).
  { left. apply Nat.ltb_lt. reflexivity. }
  split; [reflexivity|]. split; [exact H|].
  exact (objects_mode_waits (fun x => x) (fun x => x) two_shapes 239
           mid_morph eq_refl H).
Defined.

(** ** Frames at rest *)

Lemma animate_idle (Math_sin Math_sqrt : num -> num) (r : refs) (s : sched) :
  triggerStep r (countFrame s) = (countFrame s, None) ->
  isMorphing s = false -> isViewMorphing s = false ->
  rippleActive s = false ->
  animate Math_sin Math_sqrt r s = (tick s, None).
Proof.
  intros Htrig Hm Hv Hr. unfold animate.
  rewrite viewMorphStep_flag by done. rewrite Htrig.
  unfold morphStep. cbn [countFrame isMorphing andb]. rewrite Hm. cbn [andb].
  unfold rippleStep.
  replace (rippleActive (countFrame s)) with (rippleActive s) by done.
  by rewrite Hr.
Qed.

(** While no morph is under way and none is triggered (the view is the one
    of the last trigger and, in [objects] mode, no rotation is due), the
    frames leave the geometry alone: the position buffer and its dirty flag
    stay as they are, and only the frame counter and the ripple phase
    advance. *)
Theorem geometry_rests (Math_sin Math_sqrt : num -> num) (r : refs)
    (n : nat) (s : sched) :
  viewModeRef r = lastViewMode s ->
  (viewModeRef r = objects -> before_rotation r s n) ->
  isMorphing s = false -> isViewMorphing s = false ->
  rippleActive s = false ->
  run Math_sin Math_sqrt (replicate n []) r s
  = (r, Nat.iter n tick s, []) /\
  position_array (Nat.iter n tick s) = position_array s /\
  needsUpdate (Nat.iter n tick s) = needsUpdate s.
Proof.
  revert s. induction n as [|n IH]; intros s Hlast Hbefore Hm Hv Hr.
  - done.
  - cbn [replicate run foldl].
    assert (Htrig : triggerStep r (countFrame s) = (countFrame s, None)).
    { destruct (decide (viewModeRef r = objects)) as [Hobj|Hobj].
      - destruct (before_rotation_S r s (countFrame s) n eq_refl
                    (Hbefore Hobj)) as [Hrot _].
        by apply triggerStep_objects_idle.
      - by apply triggerStep_settled. }
    rewrite (animate_idle _ _ _ _ Htrig Hm Hv Hr).
    destruct (IH (tick s)) as (Hrun & Hp & Hn); try done.
    { intros Hobj.
      by destruct (before_rotation_S r s (tick s) n eq_refl (Hbefore Hobj)). }
    rewrite Hrun. rewrite Nat.iter_succ_r. done.
Qed.

Lemma geometry_rests_witness :
  before_rotation two_shapes
    (initial_sched (Model [q 0; q 0; q 0] (Some 1))) 299 /\
  position_array
    (Nat.iter 299 tick (initial_sched (Model [q 0; q 0; q 0] (Some 1))))
  = [q 0; q 0; q 0].
Proof.
  assert (H : before_rotation two_shapes
                (initial_sched (Model [q 0; q 0; q 0] (Some 1))) 299).
  { left. apply Nat.ltb_lt. reflexivity. }
  split; [exact H|].
  exact (proj1 (proj2 (geometry_rests (fun x => x) (fun x => x) two_shapes 299
                  (initial_sched (Model [q 0; q 0; q 0] (Some 1)))
                  eq_refl (fun _ => H) eq_refl eq_refl eq_refl))).
Defined.

(** ** The text panel *)

Lemma rem_in_range (x : nat) (len : nat) :
  0 < len -> exists i', Panel.rem (Some x) len = Some i' /\ i' < len /\
                        (x < len -> i' = x).
Proof.
  intros Hlen. unfold Panel.rem.
  destruct (Nat.eqb_spec len 0) as [|_]; [lia|].
  eexists. split; [done|]. split; [apply Nat.mod_upper_bound; lia|].
  apply Nat.mod_small.
Qed.

(** In a view with text, a click on an arrow never throws and leaves the
    index inside the group of the view, wherever it was before; from an
    index inside the group it moves one entry back or forth and stops at
    the ends, so the remainder never wraps around.  Unless nothing changes
    at all, the text shown becomes the entry at the new index. *)
Theorem scroll_click_in_range (d : Panel.direction) (p : Panel.panel)
    (g : list loc) (i : nat) :
  Panel.group p (Panel.viewModeRef p) = Some g -> g <> [] ->
  Panel.textIndex p = Some i ->
  exists p' i',
    Panel.handleScrollButtonClick d p = (p', None) /\
    Panel.textIndex p' = Some i' /\ i' < length g /\
    (i < length g -> i' = Panel.move d i (length g)) /\
    (p' = p \/ Panel.textMeshRef p' = g !! i') /\
    Panel.viewModeRef p' = Panel.viewModeRef p /\
    Panel.textMeshes p' = Panel.textMeshes p.
Proof.
  intros Hg Hne Hi.
  assert (Hlen : 0 < length g) by (destruct g; [done|cbn; lia]).
  unfold Panel.handleScrollButtonClick. rewrite Hg, Hi.
  destruct d.
  - destruct i as [|i]; cbn [Panel.is_zero].
    + exists p, 0. rewrite Hi. repeat split; try done. by left.
    + cbn [Panel.dec fmap option_fmap option_map Nat.pred].
      destruct (rem_in_range i (length g) Hlen) as (i' & -> & Hi' & Hsame).
      eexists _, i'. split; [done|].
      cbn [Panel.showEntry Panel.textIndex Panel.textMeshRef Panel.viewModeRef
             Panel.textMeshes Panel.entry mbind option_bind].
      repeat split; try done.
      * intros Hin. rewrite Hsame by lia. unfold Panel.move. lia.
      * by right.
  - unfold Panel.is_last.
    destruct (Z.eqb_spec (Z.of_nat i) (Z.of_nat (length g) - 1)) as [Hlast|Hlast].
    + exists p, i. rewrite Hi. repeat split; try done; try lia.
      * intros _. unfold Panel.move.
        destruct (Nat.ltb_spec (i + 1) (length g)); lia.
      * by left.
    + cbn [Panel.inc fmap option_fmap option_map].
      destruct (rem_in_range (S i) (length g) Hlen) as (i' & -> & Hi' & Hsame).
      eexists _, i'. split; [done|].
      cbn [Panel.showEntry Panel.textIndex Panel.textMeshRef Panel.viewModeRef
             Panel.textMeshes Panel.entry mbind option_bind].
      repeat split; try done.
      * intros Hin. unfold Panel.move.
        destruct (Nat.ltb_spec (i + 1) (length g)); [|lia].
        rewrite Hsame by lia. lia.
      * by right.
Qed.

Lemma scroll_click_in_range_witness :
  exists p',
    Panel.handleScrollButtonClick Panel.previous cv_last = (p', None) /\
    Panel.textIndex p' = Some 2.
Proof.
  destruct (scroll_click_in_range Panel.previous cv_last
              [2%positive; 3%positive; 4%positive; 5%positive] 3
              eq_refl ltac:(discriminate) eq_refl)
    as (p' & i' & H & Hi & _ & Hmove & _).
  exists p'. split; [exact H|].
  rewrite Hi, (Hmove ltac:(cbn; lia)). reflexivity.
Defined.

(** In a view without text ([objects], [icons]) and while the text meshes
    have not been set, the "next" arrow throws a TypeError, and so does the
    "previous" arrow unless the index is 0; the panel is left as it is. *)
Theorem scroll_click_without_text (p : Panel.panel) :
  Panel.viewModeRef p = objects \/ Panel.viewModeRef p = icons \/
  Panel.textMeshes p = [] ->
  Panel.handleScrollButtonClick Panel.next p = (p, Some TypeError) /\
  Panel.handleScrollButtonClick Panel.previous p
  = (p, if Panel.is_zero (Panel.textIndex p) then None else Some TypeError).
Proof.
  intros H.
  assert (Hg : Panel.group p (Panel.viewModeRef p) = None).
  { unfold Panel.group. destruct H as [->|[->|H]]; [done|done|].
    rewrite H. by destruct (Panel.textMap _). }
  unfold Panel.handleScrollButtonClick. rewrite Hg.
  by destruct (Panel.is_zero _).
Qed.

Lemma scroll_click_without_text_witness :
  Panel.handleScrollButtonClick Panel.next
    (Panel.Panel CV (Some 0) None [] (fun _ => zero))
  = (Panel.Panel CV (Some 0) None [] (fun _ => zero), Some TypeError).
Proof.
  exact (proj1 (scroll_click_without_text
                  (Panel.Panel CV (Some 0) None [] (fun _ => zero))
                  (or_intror (or_intror eq_refl)))).
Defined.

(** A click on a view button switches the view as [handleButtonClick] on
    the refs says and never touches the index or the text meshes.  It
    throws, a TypeError and after the view has been switched, exactly when
    a view with text other than the current one is asked for and the text
    meshes have no group for it. *)
Theorem view_button_click (mode : viewMode) (p : Panel.panel) (r : refs) :
  viewModeRef r = Panel.viewModeRef p ->
  exists p' e,
    Panel.handleButtonClick mode p = (p', e) /\
    Panel.viewModeRef p' = viewModeRef (handleButtonClick mode r) /\
    Panel.textIndex p' = Panel.textIndex p /\
    Panel.textMeshes p' = Panel.textMeshes p /\
    (e = None \/ e = Some TypeError) /\
    (e = Some TypeError <->
     Panel.viewModeRef p <> mode /\ Panel.textMap mode <> None /\
     Panel.group p mode = None).
Proof.
  intros Hr. unfold Panel.handleButtonClick, handleButtonClick. rewrite Hr.
  destruct (Panel.viewModeRef p) eqn:Hview, mode;
    repeat (case_bool_decide; try done); cbn [andb negb];
    try destruct (Panel.group p _) eqn:Hg;
    eexists _, _; (split; [reflexivity|]);
    cbn [Panel.viewModeRef Panel.textIndex Panel.textMeshes viewModeRef
           Panel.textMap];
    intuition congruence.
Qed.

Lemma view_button_click_witness :
  exists p' e,
    Panel.handleButtonClick projects cv_last = (p', e) /\
    Panel.viewModeRef p' = projects /\
    Panel.textIndex p' = Some 3.
Proof.
  destruct (view_button_click projects cv_last
              (Refs CV [] (Model [] None)) eq_refl)
    as (p' & e & H & Hview & Hi & _).
  exists p', e. split; [exact H|]. split; [exact Hview|exact Hi].
Defined.

(** A view button never resets the index.  Opening a view with text while
    the index is that of its last entry (left there by this or by another
    view) shows the first entry, and the "next" arrow then does nothing. *)
Theorem view_button_keeps_index (mode : viewMode) (p : Panel.panel)
    (g : list loc) :
  Panel.viewModeRef p <> mode -> Panel.group p mode = Some g ->
  Panel.textIndex p = Some (length g - 1) -> g <> [] ->
  exists p',
    Panel.handleButtonClick mode p = (p', None) /\
    Panel.viewModeRef p' = mode /\
    Panel.textMeshRef p' = g !! 0 /\
    Panel.textIndex p' = Some (length g - 1) /\
    Panel.handleScrollButtonClick Panel.next p' = (p', None).
Proof.
  intros Hneq Hg Hi Hne.
  assert (Hmode : mode <> objects /\ mode <> icons).
  { unfold Panel.group in Hg. by destruct mode. }
  destruct Hmode as [Hobj Hicons].
  unfold Panel.handleButtonClick.
  rewrite (bool_decide_eq_false_2 _ Hneq), (bool_decide_eq_false_2 _ Hobj),
    (bool_decide_eq_false_2 _ Hicons), Hg.
  cbn [andb negb]. eexists. split; [done|]. cbn.
  repeat split; try done.
  unfold Panel.handleScrollButtonClick, Panel.group in *. cbn.
  rewrite Hg, Hi. unfold Panel.is_last.
  destruct g as [|l g]; [done|]. cbn [length].
  destruct (Z.eqb_spec (Z.of_nat (S (length g) - 1))
              (Z.of_nat (S (length g)) - 1)) as [_|Hx]; [done|lia].
Qed.

Lemma view_button_keeps_index_witness :
  exists p',
    Panel.handleButtonClick CV
      (Panel.Panel projects (Some 3) (Some 6%positive) built_textMeshes
         (fun _ => one)) = (p', None) /\
    Panel.textMeshRef p' = Some 2%positive /\
    Panel.textIndex p' = Some 3 /\
    Panel.handleScrollButtonClick Panel.next p' = (p', None).
Proof.
  destruct (view_button_keeps_index CV
              (Panel.Panel projects (Some 3) (Some 6%positive)
                 built_textMeshes (fun _ => one))
              [2%positive; 3%positive; 4%positive; 5%positive]
              ltac:(discriminate) eq_refl eq_refl ltac:(discriminate))
    as (p' & H & _ & Hshown & Hi & Hnext).
  exists p'. split; [exact H|]. split; [exact Hshown|].
  split; [exact Hi|exact Hnext].
Defined.

(** ** The text opacity *)

Lemma ngtb_zero_fin (o : Q) : ngtb (Fin o) zero = true <-> (0 < o)%Q.
Proof.
  unfold ngtb, nltb, zero. rewrite negb_true_iff.
  split.
  - intros H. destruct (Qlt_le_dec 0 o) as [|Hle]; [done|].
    apply Qle_bool_iff in Hle. congruence.
  - intros H. destruct (Qle_bool o 0) eqn:E; [|done].
    apply Qle_bool_iff in E. lra.
Qed.

Lemma nltb_fin_one (o : Q) : nltb (Fin o) one = true <-> (o < 1)%Q.
Proof.
  unfold nltb, one. rewrite negb_true_iff.
  split.
  - intros H. destruct (Qlt_le_dec o 1) as [|Hle]; [done|].
    apply Qle_bool_iff in Hle. congruence.
  - intros H. destruct (Qle_bool 1 o) eqn:E; [|done].
    apply Qle_bool_iff in E. lra.
Qed.

(** After the fade-out of a handler no mesh at all has a positive
    opacity. *)
Lemma fadeOut_ok (p : Panel.panel) (l : loc) :
  opacity_ok p ->
  exists o : Q, Panel.fadeOut p l = Fin o /\
                (- (2 # 100) <= o <= 0)%Q.
Proof.
  intros Hok. unfold Panel.fadeOut.
  destruct (Panel.textMeshRef p) as [l0|] eqn:Href.
  - destruct (Hok l0) as (o0 & Ho0 & Hb0 & _). rewrite Ho0.
    destruct (ngtb (Fin o0) zero) eqn:Hpos.
    + destruct (decide (l = l0)) as [->|Hne].
      * exists 0%Q. split; [done|]. lra.
      * destruct (Hok l) as (o & Ho & Hb & Hhid). exists o.
        split; [done|]. split; [lra|]. apply Hhid. congruence.
    + destruct (decide (l = l0)) as [->|Hne].
      * exists o0. split; [done|]. split; [lra|].
        destruct (Qlt_le_dec 0 o0) as [Hlt|]; [|done].
        apply ngtb_zero_fin in Hlt. congruence.
      * destruct (Hok l) as (o & Ho & Hb & Hhid). exists o.
        split; [done|]. split; [lra|]. apply Hhid. congruence.
  - destruct (Hok l) as (o & Ho & Hb & Hhid). exists o.
    split; [done|]. split; [lra|]. apply Hhid. congruence.
Qed.

Lemma faded_ok (p : Panel.panel) (mode : viewMode) (i : option nat)
    (shown : option loc) :
  opacity_ok p ->
  opacity_ok (Panel.Panel mode i shown (Panel.textMeshes p) (Panel.fadeOut p)).
Proof.
  intros Hok l. destruct (fadeOut_ok p l Hok) as (o & Ho & Hb).
  exists o. cbn. split; [done|]. split; [lra|]. intros _. lra.
Qed.

Lemma same_opacity_ok (p : Panel.panel) (mode : viewMode) (i : option nat) :
  opacity_ok p ->
  opacity_ok (Panel.Panel mode i (Panel.textMeshRef p) (Panel.textMeshes p)
                (Panel.opacity p)).
Proof. intros Hok l. exact (Hok l). Qed.

Lemma handleButtonClick_ok (mode : viewMode) (p : Panel.panel) :
  opacity_ok p -> opacity_ok (Panel.handleButtonClick mode p).1.
Proof.
  intros Hok. unfold Panel.handleButtonClick.
  repeat case_match; cbn [fst];
    (by apply faded_ok) || (by apply same_opacity_ok).
Qed.

Lemma handleScrollButtonClick_ok (d : Panel.direction) (p : Panel.panel) :
  opacity_ok p -> opacity_ok (Panel.handleScrollButtonClick d p).1.
Proof.
  intros Hok. unfold Panel.handleScrollButtonClick, Panel.showEntry.
  repeat case_match; cbn [fst]; done || (by apply faded_ok).
Qed.

Lemma setOpacity_ok (p : Panel.panel) (l : loc) (o : Q) :
  opacity_ok p -> Panel.textMeshRef p = Some l ->
  (- (2 # 100) <= o <= 1 + (1 # 100))%Q ->
  opacity_ok (Panel.Panel (Panel.viewModeRef p) (Panel.textIndex p)
                (Panel.textMeshRef p) (Panel.textMeshes p)
                (setOpacity l (Fin o) (Panel.opacity p))).
Proof.
  intros Hok Href Hb l'. cbn. unfold setOpacity.
  destruct (decide (l' = l)) as [->|Hne].
  - exists o. split; [done|]. split; [done|]. by rewrite Href.
  - exact (Hok l').
Qed.

Lemma animateText_ok (p : Panel.panel) :
  opacity_ok p -> opacity_ok (animateText p).
Proof.
  intros Hok. unfold animateText.
  destruct (Panel.textMeshRef p) as [l|] eqn:Href; [|done].
  destruct (Hok l) as (o & Ho & Hb & _). rewrite Ho.
  assert (Hout : ngtb (Fin o) zero = true ->
                 opacity_ok
                   (Panel.Panel (Panel.viewModeRef p) (Panel.textIndex p)
                      (Panel.textMeshRef p) (Panel.textMeshes p)
                      (setOpacity l (Fin o - Fin (2 # 100))%num
                         (Panel.opacity p)))).
  { intros Hpos. apply ngtb_zero_fin in Hpos.
    apply setOpacity_ok; [done|done|]. lra. }
  assert (Hin : nltb (Fin o) one = true ->
                opacity_ok
                  (Panel.Panel (Panel.viewModeRef p) (Panel.textIndex p)
                     (Panel.textMeshRef p) (Panel.textMeshes p)
                     (setOpacity l (Fin o + Fin (1 # 100))%num
                        (Panel.opacity p)))).
  { intros Hlt. apply nltb_fin_one in Hlt.
    apply setOpacity_ok; [done|done|]. lra. }
  rewrite Href in Hout, Hin.
  destruct (Panel.viewModeRef p);
    [destruct (ngtb (Fin o) zero) | destruct (nltb (Fin o) one) ..];
    auto.
Qed.

(** Whatever the user clicks and however many frames pass, in any order,
    every text opacity stays a number between -0.02 and 1.01 and no text
    mesh other than the one shown has a positive opacity: at most one text
    is visible at any time. *)
Theorem text_opacity_invariant (events : list panel_event)
    (p : Panel.panel) :
  opacity_ok p -> opacity_ok (foldl panel_step p events).
Proof.
  revert p. induction events as [|e events IH]; intros p Hok; [done|].
  cbn [foldl]. apply IH. destruct e; cbn [panel_step].
  - by apply handleButtonClick_ok.
  - by apply handleScrollButtonClick_ok.
  - by apply animateText_ok.
Qed.

Lemma text_opacity_invariant_witness :
  opacity_ok cv_first /\
  opacity_ok (foldl panel_step cv_first
                [Frame; Arrow Panel.next; Frame; Click objects; Frame;
                 Click about; Arrow Panel.previous]).
Proof.
  assert (H : opacity_ok cv_first).
  { intros l. unfold cv_first. cbn.
    destruct (decide (l = 2%positive)) as [->|Hne].
    - exists (1 # 2)%Q. split; [done|]. split; [lra|]. done.
    - exists 0%Q. split; [done|]. split; [lra|]. intros _. lra. }
  split; [exact H|].
  exact (text_opacity_invariant _ cv_first H).
Defined.

(** * Rounding *)

Lemma pow2_pos (e : Z) : (0 < pow2 e)%Q.
Proof. unfold pow2. by apply Qpower_0_lt. Qed.

Lemma pow2_add (a b : Z) : (pow2 (a + b) == pow2 a * pow2 b)%Q.
Proof. unfold pow2. by apply Qpower_plus. Qed.

Lemma pow2_S (a : Z) : (pow2 (a + 1) == 2 * pow2 a)%Q.
Proof. rewrite pow2_add. unfold pow2 at 2. rewrite Qpower_1_r. ring. Qed.

Lemma pow2_pred (a : Z) : (pow2 (a - 1) == pow2 a * (1 # 2))%Q.
Proof.
  assert (E : (pow2 a == 2 * pow2 (a - 1))%Q).
  { rewrite <- pow2_S. by replace (a - 1 + 1)%Z with a by lia. }
  rewrite E. ring.
Qed.

Lemma pow2_lt (a b : Z) : (a < b)%Z -> (pow2 a < pow2 b)%Q.
Proof. intros H. unfold pow2. by apply Qpower_lt_compat_l. Qed.

Lemma pow2_le (a b : Z) : (a <= b)%Z -> (pow2 a <= pow2 b)%Q.
Proof. intros H. unfold pow2. by apply Qpower_le_compat_l. Qed.

Lemma pow2_lt_inv (a b : Z) : (pow2 a < pow2 b)%Q -> (a < b)%Z.
Proof. intros H. by apply (Qpower_lt_compat_l_inv 2). Qed.

Lemma pow2_Z (e : Z) : (0 <= e)%Z -> (pow2 e == inject_Z (2 ^ e))%Q.
Proof. intros H. unfold pow2. by rewrite Zpower_Qpower. Qed.

Lemma pow2_neg (a : Z) : (pow2 (- a) * pow2 a == 1)%Q.
Proof.
  rewrite <- pow2_add. by replace (- a + a)%Z with 0%Z by lia.
Qed.

Lemma Qabs_num_den (q : Q) :
  (Qabs q * inject_Z (Z.pos (Qden q)) == inject_Z (Z.abs (Qnum q)))%Q.
Proof.
  destruct q as [n d]. unfold Qabs, Qeq, Qmult, inject_Z. simpl. lia.
Qed.

(** The test of [ilog2]. *)
Lemma ilog2_test (n d k : Z) :
  (0 < n)%Z -> (0 < d)%Z ->
  (if (0 <=? k)%Z then (d * 2 ^ k <=? n)%Z else (d <=? n * 2 ^ (- k))%Z) = true
  <-> (inject_Z d * pow2 k <= inject_Z n)%Q.
Proof.
  intros Hn Hd. destruct (Z.leb_spec 0 k) as [Hk|Hk].
  - rewrite Z.leb_le, pow2_Z by done.
    rewrite <- inject_Z_mult, <- Zle_Qle. done.
  - rewrite Z.leb_le.
    assert (E : (pow2 (- k) == inject_Z (2 ^ (- k)))%Q) by (apply pow2_Z; lia).
    pose proof (pow2_neg k) as Hneg. pose proof (pow2_pos k) as Hpk.
    pose proof (pow2_pos (- k)) as Hpnk.
    rewrite Zle_Qle, inject_Z_mult, <- E.
    split; intros H.
    + assert (inject_Z d * pow2 k <= inject_Z n * pow2 (- k) * pow2 k)%Q
        by (apply Qmult_le_compat_r; [done|lra]).
      assert (inject_Z n * pow2 (- k) * pow2 k == inject_Z n)%Q
        by (rewrite <- Qmult_assoc, Hneg; ring).
      lra.
    + assert (inject_Z d * pow2 k * pow2 (- k) <= inject_Z n * pow2 (- k))%Q
        by (apply Qmult_le_compat_r; [done|lra]).
      assert (inject_Z d * pow2 k * pow2 (- k) == inject_Z d)%Q
        by (rewrite <- Qmult_assoc, (Qmult_comm (pow2 k)), Hneg; ring).
      lra.
Qed.

Lemma ilog2_spec (q : Q) :
  ~ (q == 0)%Q ->
  (pow2 (ilog2 q) <= Qabs q)%Q /\ (Qabs q < pow2 (ilog2 q + 1))%Q.
Proof.
  intros Hq.
  set (n := Z.abs (Qnum q)). set (d := Z.pos (Qden q)).
  assert (Hn : (0 < n)%Z).
  { assert (Qnum q <> 0%Z); [|lia].
    intros E. apply Hq. unfold Qeq. rewrite E. done. }
  assert (Hd : (0 < d)%Z) by (unfold d; lia).
  pose proof (Qabs_num_den q) as Habs. fold n d in Habs.
  set (a := Z.log2 n). set (b := Z.log2 d).
  destruct (Z.log2_spec n Hn) as [Ha1 Ha2].
  destruct (Z.log2_spec d Hd) as [Hb1 Hb2].
  fold a in Ha1, Ha2. fold b in Hb1, Hb2.
  assert (Ha0 : (0 <= a)%Z) by apply Z.log2_nonneg.
  assert (Hb0 : (0 <= b)%Z) by apply Z.log2_nonneg.
  rewrite Zle_Qle, <- pow2_Z in Ha1, Hb1 by done.
  rewrite Zlt_Qlt, <- pow2_Z in Ha2, Hb2 by lia.
  replace (Z.succ a) with (a + 1)%Z in Ha2 by lia.
  replace (Z.succ b) with (b + 1)%Z in Hb2 by lia.
  rewrite pow2_S in Ha2, Hb2.
  set (N := inject_Z n) in *. set (D := inject_Z d) in *.
  assert (HD : (0 < D)%Q).
  { unfold D. change 0%Q with (inject_Z 0). by rewrite <- Zlt_Qlt. }
  set (k := (a - b)%Z).
  assert (Hk : (pow2 k * pow2 b == pow2 a)%Q).
  { rewrite <- pow2_add. by replace (k + b)%Z with a by (unfold k; lia). }
  pose proof (pow2_pos k) as Hpk. pose proof (pow2_pos b) as Hpb.
  pose proof (pow2_pos a) as Hpa.
  assert (Hup : (N < D * (2 * pow2 k))%Q).
  { assert (pow2 b * (2 * pow2 k) <= D * (2 * pow2 k))%Q
      by (apply Qmult_le_compat_r; lra).
    assert (pow2 b * (2 * pow2 k) == 2 * pow2 a)%Q by (rewrite <- Hk; ring).
    lra. }
  assert (Hlow : (D * (pow2 k * (1 # 2)) <= N)%Q).
  { assert (D * (pow2 k * (1 # 2)) <= 2 * pow2 b * (pow2 k * (1 # 2)))%Q
      by (apply Qmult_le_compat_r; lra).
    assert (2 * pow2 b * (pow2 k * (1 # 2)) == pow2 a)%Q
      by (rewrite <- Hk; ring).
    lra. }
  assert (Hconv : forall e : Z,
    (D * pow2 e <= N)%Q -> (N < D * pow2 (e + 1))%Q ->
    (pow2 e <= Qabs q)%Q /\ (Qabs q < pow2 (e + 1))%Q).
  { intros e H1 H2. rewrite <- Habs in H1, H2. split.
    - apply (Qmult_le_r _ _ D HD). lra.
    - apply (Qmult_lt_r _ _ D HD). lra. }
  pose proof (ilog2_test n d k Hn Hd) as Htest. fold N D in Htest.
  unfold ilog2. fold n d a b k.
  assert (Hcase :
    (if (0 <=? k)%Z
     then (if (d * 2 ^ k <=? n)%Z then k else k - 1)%Z
     else (if (d <=? n * 2 ^ (- k))%Z then k else k - 1)%Z)
    = if (if (0 <=? k)%Z then (d * 2 ^ k <=? n)%Z else (d <=? n * 2 ^ (- k))%Z)
      then k else (k - 1)%Z) by (by destruct (0 <=? k)%Z).
  rewrite Hcase.
  destruct (if (0 <=? k)%Z then (d * 2 ^ k <=? n)%Z else (d <=? n * 2 ^ (- k))%Z)
    eqn:Ht.
  - apply Hconv; [by apply Htest|]. rewrite pow2_S. done.
  - assert (Hnot : ~ (D * pow2 k <= N)%Q).
    { intros H. apply Htest in H. congruence. }
    apply Hconv.
    + rewrite pow2_pred. done.
    + replace (k - 1 + 1)%Z with k by lia. lra.
Qed.

Lemma ilog2_unique (q : Q) (e : Z) :
  (pow2 e <= Qabs q)%Q -> (Qabs q < pow2 (e + 1))%Q -> ilog2 q = e.
Proof.
  intros H1 H2.
  assert (Hq : ~ (q == 0)%Q).
  { intros H. rewrite H in H1. pose proof (pow2_pos e).
    change (Qabs 0) with 0%Q in H1. lra. }
  destruct (ilog2_spec q Hq) as [H3 H4].
  destruct (Z.lt_trichotomy (ilog2 q) e) as [Hlt|[->|Hgt]]; [|done|].
  - pose proof (pow2_le (ilog2 q + 1) e ltac:(lia)). lra.
  - pose proof (pow2_le (e + 1) (ilog2 q) ltac:(lia)). lra.
Qed.

Lemma ilog2_comp (q q' : Q) : (q == q')%Q -> ~ (q == 0)%Q -> ilog2 q = ilog2 q'.
Proof.
  intros E Hq. symmetry. destruct (ilog2_spec q Hq) as [H1 H2].
  apply ilog2_unique; by rewrite <- E.
Qed.

Lemma ilog2_opp (q : Q) : ilog2 (- q) = ilog2 q.
Proof. destruct q as [n d]. unfold ilog2. simpl. by rewrite Z.abs_opp. Qed.

Lemma ilog2_le (q1 q2 : Q) :
  ~ (q1 == 0)%Q -> (Qabs q1 <= Qabs q2)%Q -> (ilog2 q1 <= ilog2 q2)%Z.
Proof.
  intros H1 Hle.
  assert (H2 : ~ (q2 == 0)%Q).
  { intros H. rewrite H in Hle. change (Qabs 0) with 0%Q in Hle.
    apply H1. apply Qabs_Qle_condition in Hle. lra. }
  destruct (ilog2_spec q1 H1) as [A1 B1].
  destruct (ilog2_spec q2 H2) as [A2 B2].
  assert (pow2 (ilog2 q1) < pow2 (ilog2 q2 + 1))%Q by lra.
  apply pow2_lt_inv in H. lia.
Qed.

Lemma ilog2_half (q : Q) : ~ (q == 0)%Q -> ilog2 (q / 2) = (ilog2 q - 1)%Z.
Proof.
  intros Hq. destruct (ilog2_spec q Hq) as [H1 H2].
  assert (E : (Qabs (q / 2) == Qabs q * (1 # 2))%Q).
  { unfold Qdiv. rewrite Qabs_Qmult. reflexivity. }
  apply ilog2_unique; rewrite E.
  - rewrite pow2_pred. lra.
  - replace (ilog2 q - 1 + 1)%Z with (ilog2 q) by lia.
    rewrite pow2_S in H2. lra.
Qed.

Lemma Qfloor_unique (x : Q) (z : Z) :
  (inject_Z z <= x)%Q -> (x < inject_Z (z + 1))%Q -> Qfloor x = z.
Proof.
  intros H1 H2. pose proof (Qfloor_le x) as H3. pose proof (Qlt_floor x) as H4.
  assert (inject_Z z < inject_Z (Qfloor x + 1))%Q as A by lra.
  assert (inject_Z (Qfloor x) < inject_Z (z + 1))%Q as B by lra.
  rewrite <- Zlt_Qlt in A, B. lia.
Qed.

Lemma rne_cases (q : Q) :
  (rne q = Qfloor q /\ (q - inject_Z (Qfloor q) <= 1 # 2)%Q) \/
  (rne q = (Qfloor q + 1)%Z /\ (1 # 2 <= q - inject_Z (Qfloor q))%Q).
Proof.
  unfold rne.
  destruct (Qcompare_spec (q - inject_Z (Qfloor q)) (1 # 2)) as [E|E|E].
  - destruct (Z.even (Qfloor q)); [left|right]; split; try done; lra.
  - left. split; [done|lra].
  - right. split; [done|lra].
Qed.

Lemma rne_comp (q q' : Q) : (q == q')%Q -> rne q = rne q'.
Proof.
  intros E. unfold rne. rewrite (Qfloor_comp _ _ E).
  assert (E' : (q - inject_Z (Qfloor q') == q' - inject_Z (Qfloor q'))%Q)
    by (by rewrite E).
  by rewrite (Qcompare_comp _ _ E' _ _ (Qeq_refl _)).
Qed.

Lemma rne_Z (z : Z) : rne (inject_Z z) = z.
Proof.
  unfold rne. rewrite Qfloor_Z.
  destruct (Qcompare_spec (inject_Z z - inject_Z z) (1 # 2)) as [E|E|E];
    [lra|done|lra].
Qed.

Lemma rne_mono (q1 q2 : Q) : (q1 <= q2)%Q -> (rne q1 <= rne q2)%Z.
Proof.
  intros H. pose proof (Qfloor_resp_le _ _ H) as Hf.
  destruct (Z.eq_dec (Qfloor q1) (Qfloor q2)) as [E|E].
  - unfold rne. rewrite E.
    assert (Hr : (q1 - inject_Z (Qfloor q2) <= q2 - inject_Z (Qfloor q2))%Q)
      by lra.
    destruct (Qcompare_spec (q1 - inject_Z (Qfloor q2)) (1 # 2)) as [E1|E1|E1];
      destruct (Qcompare_spec (q2 - inject_Z (Qfloor q2)) (1 # 2)) as [E2|E2|E2];
      try destruct (Z.even (Qfloor q2)); try lia; lra.
  - destruct (rne_cases q1) as [[-> _]|[-> _]];
      destruct (rne_cases q2) as [[-> _]|[-> _]]; lia.
Qed.

Lemma rne_le_Z (q : Q) (z : Z) : (q <= inject_Z z)%Q -> (rne q <= z)%Z.
Proof. intros H. rewrite <- (rne_Z z). by apply rne_mono. Qed.

Lemma rne_ge_Z (q : Q) (z : Z) : (inject_Z z <= q)%Q -> (z <= rne q)%Z.
Proof. intros H. rewrite <- (rne_Z z). by apply rne_mono. Qed.

Lemma rne_opp (q : Q) : rne (- q) = (- rne q)%Z.
Proof.
  pose proof (Qfloor_le q) as H1. pose proof (Qlt_floor q) as H2.
  rewrite inject_Z_plus in H2. change (inject_Z 1) with 1%Q in H2.
  set (f := Qfloor q) in *.
  destruct (Qeq_dec q (inject_Z f)) as [E|E].
  - rewrite (rne_comp q _ E), rne_Z.
    assert (E' : (- q == inject_Z (- f))%Q) by (rewrite inject_Z_opp, E; reflexivity).
    by rewrite (rne_comp _ _ E'), rne_Z.
  - assert (Hf' : Qfloor (- q) = (- f - 1)%Z).
    { apply Qfloor_unique.
      - unfold Z.sub. rewrite inject_Z_plus, inject_Z_opp.
        change (inject_Z (- (1))) with (- (1))%Q. lra.
      - replace (- f - 1 + 1)%Z with (- f)%Z by lia. rewrite inject_Z_opp.
        assert (inject_Z f < q)%Q; [|lra].
        apply Qle_lt_or_eq in H1 as [|E']; [done|]. exfalso. apply E.
        by symmetry. }
    unfold rne. rewrite Hf'. fold f.
    assert (Ef : (inject_Z (- f - 1) == - inject_Z f - 1)%Q).
    { unfold Z.sub. rewrite inject_Z_plus, inject_Z_opp. reflexivity. }
    destruct (Qcompare_spec (q - inject_Z f) (1 # 2)) as [E1|E1|E1];
      destruct (Qcompare_spec (- q - inject_Z (- f - 1)) (1 # 2)) as [E2|E2|E2];
      rewrite Ef in E2; try lra; try lia.
    replace (- f - 1)%Z with (- (f + 1))%Z by lia.
    rewrite Z.even_opp, Z.even_add. simpl.
    destruct (Z.even f); simpl; lia.
Qed.

Lemma rne_nonneg (q : Q) : (0 <= q)%Q -> (0 <= rne q)%Z.
Proof. intros H. by apply rne_ge_Z. Qed.

Lemma Qdiv_pow2 (q : Q) (u : Z) : (q / pow2 u * pow2 u == q)%Q.
Proof. pose proof (pow2_pos u). field. lra. Qed.

Lemma Qabs_div_pow2 (q : Q) (u : Z) : (Qabs (q / pow2 u) == Qabs q / pow2 u)%Q.
Proof.
  pose proof (pow2_pos u) as Hu.
  unfold Qdiv. rewrite Qabs_Qmult.
  rewrite (Qabs_pos (/ pow2 u)); [reflexivity|].
  apply Qlt_le_weak, Qinv_lt_0_compat, Hu.
Qed.

Section Rounding.

Variable f : format.
Hypothesis prec_pos : (0 < prec f)%Z.

Lemma rnd_0 (q : Q) : (q == 0)%Q -> (rnd f q == 0)%Q.
Proof.
  intros H. unfold rnd. apply Qeq_bool_iff in H. by rewrite H.
Qed.

Lemma rnd_nonzero (q : Q) :
  ~ (q == 0)%Q ->
  rnd f q = (inject_Z (rne (q / pow2 (uexp f q))) * pow2 (uexp f q))%Q.
Proof.
  intros H. unfold rnd.
  destruct (Qeq_bool q 0) eqn:E; [|done].
  apply Qeq_bool_iff in E. done.
Qed.

Lemma uexp_comp (q q' : Q) : (q == q')%Q -> ~ (q == 0)%Q -> uexp f q = uexp f q'.
Proof. intros E H. unfold uexp. by rewrite (ilog2_comp q q' E H). Qed.

Lemma rnd_comp (q q' : Q) : (q == q')%Q -> (rnd f q == rnd f q')%Q.
Proof.
  intros E. destruct (Qeq_dec q 0) as [H|H].
  - rewrite (rnd_0 q H), (rnd_0 q'); [reflexivity|by rewrite <- E].
  - assert (H' : ~ (q' == 0)%Q) by (by rewrite <- E).
    rewrite (rnd_nonzero q H), (rnd_nonzero q' H').
    rewrite <- (uexp_comp q q' E H).
    assert (E' : (q / pow2 (uexp f q) == q' / pow2 (uexp f q))%Q)
      by (apply Qdiv_comp; [exact E|reflexivity]).
    by rewrite (rne_comp _ _ E').
Qed.

Lemma rnd_opp (q : Q) : (rnd f (- q) == - rnd f q)%Q.
Proof.
  destruct (Qeq_dec q 0) as [H|H].
  - rewrite (rnd_0 q H), (rnd_0 (- q)); [reflexivity|rewrite H; reflexivity].
  - assert (H' : ~ (- q == 0)%Q) by (intros E; apply H; lra).
    rewrite (rnd_nonzero q H), (rnd_nonzero (- q) H').
    unfold uexp. rewrite ilog2_opp. fold (uexp f q).
    assert (E : (- q / pow2 (uexp f q) == - (q / pow2 (uexp f q)))%Q).
    { pose proof (pow2_pos (uexp f q)). field. lra. }
    rewrite (rne_comp _ _ E), rne_opp, inject_Z_opp. ring.
Qed.

Lemma rnd_nonneg (q : Q) : (0 <= q)%Q -> (0 <= rnd f q)%Q.
Proof.
  intros Hq. destruct (Qeq_dec q 0) as [H|H].
  - rewrite (rnd_0 q H). lra.
  - rewrite (rnd_nonzero q H).
    pose proof (pow2_pos (uexp f q)) as Hu.
    apply Qmult_le_0_compat; [|lra].
    change 0%Q with (inject_Z 0). rewrite <- Zle_Qle.
    apply rne_nonneg. apply Qle_shift_div_l; [done|lra].
Qed.

(** The numbers of the format are left as they are. *)
Lemma rnd_value (q : Q) : is_value f q -> (rnd f q == q)%Q.
Proof.
  intros (m & e & Hq & Hm & He & _).
  destruct (Qeq_dec q 0) as [H|H]; [by rewrite (rnd_0 q H), H|].
  rewrite (rnd_nonzero q H).
  destruct (ilog2_spec q H) as [H1 _].
  assert (Hu : (uexp f q <= e)%Z).
  { assert (Hlt : (pow2 (ilog2 q) < pow2 (prec f + e))%Q).
    { eapply Qle_lt_trans; [exact H1|].
      rewrite Hq, Qabs_Qmult, pow2_add.
      rewrite (Qabs_pos (pow2 e)) by apply Qlt_le_weak, pow2_pos.
      apply Qmult_lt_r; [apply pow2_pos|].
      rewrite pow2_Z by lia.
      assert (E : Qabs (inject_Z m) = inject_Z (Z.abs m)) by done.
      rewrite E, <- Zlt_Qlt. done. }
    apply pow2_lt_inv in Hlt. unfold uexp. lia. }
  set (u := uexp f q) in *.
  assert (E : (q / pow2 u == inject_Z (m * 2 ^ (e - u)))%Q).
  { rewrite inject_Z_mult, <- pow2_Z by lia.
    pose proof (pow2_pos u) as Hpu.
    assert (Ee : (pow2 e == pow2 (e - u) * pow2 u)%Q).
    { rewrite <- pow2_add. by replace (e - u + u)%Z with e by lia. }
    rewrite Hq, Ee. field. lra. }
  rewrite (rne_comp _ _ E), rne_Z, <- E. apply Qdiv_pow2.
Qed.

Lemma rnd_mono_pos (q1 q2 : Q) :
  (0 < q1)%Q -> (q1 <= q2)%Q -> (rnd f q1 <= rnd f q2)%Q.
Proof.
  intros H1 Hle.
  assert (N1 : ~ (q1 == 0)%Q) by lra. assert (N2 : ~ (q2 == 0)%Q) by lra.
  rewrite (rnd_nonzero q1 N1), (rnd_nonzero q2 N2).
  destruct (ilog2_spec q1 N1) as [A1 B1]. destruct (ilog2_spec q2 N2) as [A2 B2].
  rewrite Qabs_pos in A1, B1, A2, B2 by lra.
  assert (HE : (ilog2 q1 <= ilog2 q2)%Z).
  { apply ilog2_le; [done|]. rewrite !Qabs_pos by lra. done. }
  set (E1 := ilog2 q1) in *. set (E2 := ilog2 q2) in *.
  set (u1 := uexp f q1). set (u2 := uexp f q2).
  assert (Hu1 : u1 = Z.max (E1 - prec f + 1) (emin f)) by done.
  assert (Hu2 : u2 = Z.max (E2 - prec f + 1) (emin f)) by done.
  pose proof (pow2_pos u1) as P1. pose proof (pow2_pos u2) as P2.
  destruct (Z.eq_dec u1 u2) as [Eu|Eu].
  - rewrite <- Eu. apply Qmult_le_compat_r; [|lra].
    rewrite <- Zle_Qle. apply rne_mono.
    apply Qmult_le_compat_r; [done|].
    apply Qlt_le_weak, Qinv_lt_0_compat, P1.
  - assert (Hlt : (u1 < u2)%Z) by lia.
    set (T := Z.max (E1 + 1) u1).
    apply Qle_trans with (pow2 T).
    + assert (ET : (pow2 T == inject_Z (2 ^ (T - u1)) * pow2 u1)%Q).
      { rewrite <- pow2_Z by lia. rewrite <- pow2_add.
        by replace (T - u1 + u1)%Z with T by lia. }
      rewrite ET. apply Qmult_le_compat_r; [|lra].
      rewrite <- Zle_Qle. apply rne_le_Z.
      apply Qle_shift_div_r; [done|]. rewrite <- ET.
      pose proof (pow2_le (E1 + 1) T ltac:(lia)). lra.
    + apply Qle_trans with (pow2 E2); [apply pow2_le; lia|].
      assert (EE : (pow2 E2 == inject_Z (2 ^ (E2 - u2)) * pow2 u2)%Q).
      { rewrite <- pow2_Z by lia. rewrite <- pow2_add.
        by replace (E2 - u2 + u2)%Z with E2 by lia. }
      rewrite EE. apply Qmult_le_compat_r; [|lra].
      rewrite <- Zle_Qle. apply rne_ge_Z.
      apply Qle_shift_div_l; [done|]. rewrite <- EE. done.
Qed.

(** Rounding keeps the order. *)
Lemma rnd_mono (q1 q2 : Q) : (q1 <= q2)%Q -> (rnd f q1 <= rnd f q2)%Q.
Proof.
  intros Hle.
  destruct (Qlt_le_dec 0 q1) as [H1|H1]; [by apply rnd_mono_pos|].
  destruct (Qlt_le_dec q2 0) as [H2|H2].
  - assert (H : (rnd f (- q2) <= rnd f (- q1))%Q) by (apply rnd_mono_pos; lra).
    rewrite !rnd_opp in H. lra.
  - pose proof (rnd_nonneg q2 H2) as Hp.
    assert (Hn : (0 <= rnd f (- q1))%Q) by (apply rnd_nonneg; lra).
    rewrite rnd_opp in Hn. lra.
Qed.

Lemma rnd_bound (q B : Q) :
  is_value f B -> (Qabs q <= B)%Q -> (Qabs (rnd f q) <= B)%Q.
Proof.
  intros HB Hq. apply Qabs_Qle_condition in Hq as [H1 H2].
  apply Qabs_Qle_condition.
  pose proof (rnd_mono _ _ H1) as A1. pose proof (rnd_mono _ _ H2) as A2.
  rewrite rnd_opp in A1. rewrite (rnd_value B HB) in A1, A2. done.
Qed.

(** What rounding yields is a number of the format, unless it is too
    large. *)
Lemma rnd_is_value (q : Q) :
  (Qabs (rnd f q) < pow2 (emax f))%Q -> is_value f (rnd f q).
Proof.
  intros Hmax.
  destruct (Qeq_dec q 0) as [H|H].
  { exists 0%Z, (emin f). rewrite (rnd_0 q H) in *.
    split; [ring|]. split; [simpl; lia|]. split; [lia|done]. }
  revert Hmax. rewrite (rnd_nonzero q H). intros Hmax.
  set (u := uexp f q) in *. set (N := rne (q / pow2 u)) in *.
  destruct (ilog2_spec q H) as [_ H2].
  pose proof (pow2_pos u) as Hpu.
  assert (Hu : (ilog2 q + 1 - u <= prec f)%Z) by (unfold u, uexp; lia).
  assert (Hin : (emin f <= u)%Z) by (unfold u, uexp; lia).
  assert (Hq : (Qabs (q / pow2 u) <= inject_Z (2 ^ prec f))%Q).
  { rewrite Qabs_div_pow2. apply Qle_shift_div_r; [done|].
    rewrite <- pow2_Z, <- pow2_add by lia.
    pose proof (pow2_le (ilog2 q + 1) (prec f + u) ltac:(lia)). lra. }
  apply Qabs_Qle_condition in Hq as [Hq1 Hq2].
  rewrite <- inject_Z_opp in Hq1.
  apply rne_ge_Z in Hq1. apply rne_le_Z in Hq2. fold N in Hq1, Hq2.
  destruct (Z.eq_dec (Z.abs N) (2 ^ prec f)%Z) as [E|E].
  - exists (Z.sgn N), (u + prec f)%Z.
    split; [|split; [|split; [lia|done]]].
    + assert (EN : N = (Z.sgn N * 2 ^ prec f)%Z).
      { rewrite <- E. destruct N; simpl; lia. }
      rewrite pow2_add, (pow2_Z (prec f)) by lia.
      rewrite EN at 1. rewrite inject_Z_mult. ring.
    + assert (1 < 2 ^ prec f)%Z; [|lia].
      apply Z.pow_gt_1; lia.
  - exists N, u. split; [reflexivity|]. split; [lia|]. split; [done|done].
Qed.

(** Halving commutes with rounding away from the least exponent. *)
Lemma rnd_half (q : Q) :
  ~ (q == 0)%Q -> (emin f < ilog2 q - prec f + 1)%Z ->
  (rnd f (q / 2) == rnd f q * (1 # 2))%Q.
Proof.
  intros H Hu.
  assert (H' : ~ (q / 2 == 0)%Q).
  { intros E. apply H. assert (q == q / 2 * 2)%Q by field. lra. }
  rewrite (rnd_nonzero q H), (rnd_nonzero _ H').
  unfold uexp. rewrite (ilog2_half q H).
  replace (Z.max (ilog2 q - 1 - prec f + 1) (emin f))
    with (Z.max (ilog2 q - prec f + 1) (emin f) - 1)%Z by lia.
  set (u := Z.max (ilog2 q - prec f + 1) (emin f)).
  pose proof (pow2_pos u) as Hpu. pose proof (pow2_pos (u - 1)) as Hpu'.
  assert (E : (q / 2 / pow2 (u - 1) == q / pow2 u)%Q).
  { pose proof (pow2_pred u) as Ep.
    assert (Eu : (pow2 u == 2 * pow2 (u - 1))%Q) by (rewrite Ep; ring).
    rewrite Eu. field. lra. }
  rewrite (rne_comp _ _ E), pow2_pred. ring.
Qed.

End Rounding.

#[global] Instance rnd_proper (f : format) : Proper (Qeq ==> Qeq) (rnd f).
Proof. intros q q' E. by apply rnd_comp. Qed.

Lemma prec64 : (0 < prec binary64)%Z.
Proof. reflexivity. Qed.

Lemma prec32 : (0 < prec binary32)%Z.
Proof. reflexivity. Qed.

Lemma is_value_comp (f : format) (q q' : Q) :
  (q == q')%Q -> is_value f q -> is_value f q'.
Proof.
  intros E (m & e & H1 & H2 & H3 & H4). exists m, e.
  rewrite <- E. done.
Qed.

Lemma is_value_opp (f : format) (q : Q) : is_value f q -> is_value f (- q).
Proof.
  intros (m & e & H1 & H2 & H3 & H4). exists (- m)%Z, e.
  split; [rewrite inject_Z_opp, H1; ring|].
  split; [lia|]. split; [done|]. by rewrite Qabs_opp.
Qed.

Lemma is_value_0 (f : format) : (0 < prec f)%Z -> is_value f 0.
Proof.
  intros Hp. exists 0%Z, (emin f). split; [ring|]. split; [|split; [lia|]].
  - simpl. apply Z.pow_pos_nonneg; lia.
  - apply pow2_pos.
Qed.

Lemma is_value_pow2 (f : format) (e : Z) :
  (0 < prec f)%Z -> (emin f <= e < emax f)%Z -> is_value f (pow2 e).
Proof.
  intros Hp He. exists 1%Z, e. split; [ring|]. split; [|split; [lia|]].
  - simpl. apply Z.pow_gt_1; lia.
  - rewrite Qabs_pos by apply Qlt_le_weak, pow2_pos. apply pow2_lt. lia.
Qed.

(** A binary32 number is a binary64 number. *)
Lemma value32_64 (q : Q) : is_value binary32 q -> is_value binary64 q.
Proof.
  intros (m & e & H1 & H2 & H3 & H4). exists m, e.
  split; [done|]. simpl in *. split; [lia|]. split; [lia|].
  pose proof (pow2_lt 128 1024 ltac:(lia)). lra.
Qed.

(** The numbers of a format are multiples of its least positive number. *)
Lemma value_grid (f : format) (q : Q) :
  is_value f q -> exists k : Z, (q == inject_Z k * pow2 (emin f))%Q.
Proof.
  intros (m & e & H1 & H2 & H3 & H4).
  exists (m * 2 ^ (e - emin f))%Z.
  rewrite inject_Z_mult, <- pow2_Z, <- Qmult_assoc, <- pow2_add by lia.
  by replace (e - emin f + emin f)%Z with e by lia.
Qed.

Lemma grid_add (g : Q) (a b : Q) :
  (exists k : Z, (a == inject_Z k * g)%Q) ->
  (exists k : Z, (b == inject_Z k * g)%Q) ->
  exists k : Z, (a + b == inject_Z k * g)%Q.
Proof.
  intros [k1 H1] [k2 H2]. exists (k1 + k2)%Z.
  rewrite inject_Z_plus, H1, H2. ring.
Qed.

Lemma grid_opp (g : Q) (a : Q) :
  (exists k : Z, (a == inject_Z k * g)%Q) ->
  exists k : Z, (- a == inject_Z k * g)%Q.
Proof.
  intros [k H]. exists (- k)%Z. rewrite inject_Z_opp, H. ring.
Qed.

Lemma grid_nonzero (e : Z) (a : Q) :
  (exists k : Z, (a == inject_Z k * pow2 e)%Q) -> ~ (a == 0)%Q ->
  (pow2 e <= Qabs a)%Q.
Proof.
  intros [k H] Hne. pose proof (pow2_pos e) as Hp.
  rewrite H, Qabs_Qmult, (Qabs_pos (pow2 e)) by lra.
  assert (Hk : k <> 0%Z).
  { intros ->. apply Hne. rewrite H. ring. }
  assert (E : Qabs (inject_Z k) = inject_Z (Z.abs k)) by done.
  rewrite E.
  assert (1 <= inject_Z (Z.abs k))%Q.
  { change 1%Q with (inject_Z 1). rewrite <- Zle_Qle. lia. }
  assert (1 * pow2 e <= inject_Z (Z.abs k) * pow2 e)%Q
    by (apply Qmult_le_compat_r; lra).
  lra.
Qed.

Lemma ilog2_ge (q : Q) (e : Z) : (pow2 e <= Qabs q)%Q -> (e <= ilog2 q)%Z.
Proof.
  intros H.
  assert (Hq : ~ (q == 0)%Q).
  { intros E. rewrite E in H. change (Qabs 0) with 0%Q in H.
    pose proof (pow2_pos e). lra. }
  destruct (ilog2_spec q Hq) as [_ H2].
  assert (Hlt : (pow2 e < pow2 (ilog2 q + 1))%Q) by lra.
  apply pow2_lt_inv in Hlt. lia.
Qed.

(** Rounding to a format, on the numbers in its range. *)
Lemma round_fin (f : format) (q : Q) :
  (Qabs (rnd f q) < pow2 (emax f))%Q -> round f q = Fin (Qred (rnd f q)).
Proof.
  intros H. unfold round.
  destruct (Qle_bool (pow2 (emax f)) (Qabs (rnd f q))) eqn:E; [|done].
  apply Qle_bool_iff in E. lra.
Qed.

Lemma round_value (f : format) (q : Q) :
  (0 < prec f)%Z -> is_value f q -> round f q =n= Fin q.
Proof.
  intros Hp Hq. pose proof (rnd_value f Hp q Hq) as E.
  rewrite round_fin.
  - simpl. by rewrite Qred_correct.
  - rewrite E. by destruct Hq as (_ & _ & _ & _ & _ & H4).
Qed.

(** The numbers of a format are those that rounding leaves as they are. *)
Lemma value_round (f : format) (q : Q) :
  (0 < prec f)%Z -> round f q =n= Fin q -> is_value f q.
Proof.
  intros Hp H. unfold round in H.
  destruct (Qle_bool (pow2 (emax f)) (Qabs (rnd f q))) eqn:E.
  - by destruct (Qle_bool 0 q).
  - simpl in H. rewrite Qred_correct in H.
    apply (is_value_comp f (rnd f q)); [done|].
    apply rnd_is_value; [done|].
    destruct (Qlt_le_dec (Qabs (rnd f q)) (pow2 (emax f))) as [|Hle]; [done|].
    apply Qle_bool_iff in Hle. congruence.
Qed.

Lemma value_lt_max (f : format) (q : Q) :
  is_value f q -> (Qabs q < pow2 (emax f))%Q.
Proof. by intros (_ & _ & _ & _ & _ & H4). Qed.

Lemma value_le_max (f : format) (q : Q) :
  is_value f q -> (q < pow2 (emax f))%Q.
Proof.
  intros H. apply value_lt_max in H.
  assert (q <= Qabs q)%Q by apply Qle_Qabs. lra.
Qed.

(** ** Rounding is to a nearest number *)

Lemma rne_nearest (q : Q) (k : Z) :
  (Qabs (inject_Z (rne q) - q) <= Qabs (inject_Z k - q))%Q.
Proof.
  pose proof (Qfloor_le q) as H1. pose proof (Qlt_floor q) as H2.
  rewrite inject_Z_plus in H2. change (inject_Z 1) with 1%Q in H2.
  pose proof (Qle_Qabs (inject_Z k - q)) as A1.
  pose proof (Qle_Qabs (- (inject_Z k - q))) as A2. rewrite Qabs_opp in A2.
  apply Qabs_Qle_condition.
  destruct (Z_le_gt_dec k (Qfloor q)) as [Hk|Hk].
  - rewrite Zle_Qle in Hk.
    destruct (rne_cases q) as [[-> Hc]|[-> Hc]];
      rewrite ?inject_Z_plus; change (inject_Z 1) with 1%Q; split; lra.
  - assert (Hk' : (Qfloor q + 1 <= k)%Z) by lia.
    rewrite Zle_Qle, inject_Z_plus in Hk'.
    change (inject_Z 1) with 1%Q in Hk'.
    destruct (rne_cases q) as [[-> Hc]|[-> Hc]];
      rewrite ?inject_Z_plus; change (inject_Z 1) with 1%Q; split; lra.
Qed.

Lemma Qabs_inject_Z (m : Z) : Qabs (inject_Z m) = inject_Z (Z.abs m).
Proof. reflexivity. Qed.

(** No number of the format is nearer to [q] than [rnd f q]. *)
Lemma rnd_nearest (f : format) (q v : Q) :
  (0 < prec f)%Z -> is_value f v -> (Qabs (rnd f q - q) <= Qabs (v - q))%Q.
Proof.
  intros Hp (m & e & Hv & Hm & He & _).
  destruct (Qeq_dec q 0) as [Hq|Hq].
  { rewrite (rnd_0 f q Hq), Hq. change (Qabs (0 - 0)) with 0%Q.
    apply Qabs_nonneg. }
  rewrite (rnd_nonzero f q Hq).
  set (u := uexp f q). pose proof (pow2_pos u) as Hg.
  assert (Hscale : forall k : Z,
            (Qabs (inject_Z k * pow2 u - q)
             == Qabs (inject_Z k - q / pow2 u) * pow2 u)%Q).
  { intros k. rewrite <- (Qabs_pos (pow2 u)) at 3 by lra.
    rewrite <- Qabs_Qmult. apply Qabs_wd. field. lra. }
  assert (Hnear : forall k : Z,
            (Qabs (inject_Z (rne (q / pow2 u)) * pow2 u - q)
             <= Qabs (inject_Z k * pow2 u - q))%Q).
  { intros k. rewrite !Hscale. apply Qmult_le_compat_r; [|lra].
    apply rne_nearest. }
  destruct (Z_le_gt_dec u e) as [Hue|Hue].
  - (* [v] is a multiple of the last place *)
    assert (Ev : (v == inject_Z (m * 2 ^ (e - u)) * pow2 u)%Q).
    { rewrite inject_Z_mult, <- pow2_Z, <- Qmult_assoc, <- pow2_add by lia.
      by replace (e - u + u)%Z with e by lia. }
    rewrite Ev. apply Hnear.
  - (* [v] is below the binade of [q] *)
    assert (Eu : u = (ilog2 q - prec f + 1)%Z) by (unfold u, uexp in *; lia).
    destruct (ilog2_spec q Hq) as [HL _].
    set (L := ilog2 q) in *.
    assert (Hvabs : (Qabs v < pow2 L)%Q).
    { rewrite Hv, Qabs_Qmult, Qabs_inject_Z.
      rewrite (Qabs_pos (pow2 e)) by apply Qlt_le_weak, pow2_pos.
      assert (H1 : (inject_Z (Z.abs m) <= pow2 (prec f) - 1)%Q).
      { rewrite pow2_Z by lia.
        change 1%Q with (inject_Z 1). unfold Qminus.
        rewrite <- inject_Z_opp, <- inject_Z_plus, <- Zle_Qle. lia. }
      assert (H2 : (pow2 e <= pow2 (u - 1))%Q) by (apply pow2_le; lia).
      assert (H3 : (pow2 (prec f) * pow2 (u - 1) == pow2 L)%Q).
      { rewrite <- pow2_add. by replace (prec f + (u - 1))%Z with L by lia. }
      pose proof (pow2_pos e). pose proof (pow2_pos (prec f)).
      pose proof (pow2_pos (u - 1)).
      assert (inject_Z (Z.abs m) * pow2 e
              <= (pow2 (prec f) - 1) * pow2 e)%Q
        by (apply Qmult_le_compat_r; lra).
      assert ((pow2 (prec f) - 1) * pow2 e
              <= (pow2 (prec f) - 1) * pow2 (u - 1))%Q.
      { rewrite !(Qmult_comm (pow2 (prec f) - 1)).
        apply Qmult_le_compat_r; [done|].
        assert (1 <= pow2 (prec f))%Q; [|lra].
        change 1%Q with (pow2 0). apply pow2_le. lia. }
      assert ((pow2 (prec f) - 1) * pow2 (u - 1)
              == pow2 L - pow2 (u - 1))%Q by (rewrite <- H3; ring).
      lra. }
    assert (EL : (pow2 L == inject_Z (2 ^ (prec f - 1)) * pow2 u)%Q).
    { rewrite <- pow2_Z, <- pow2_add by lia.
      by replace (prec f - 1 + u)%Z with L by lia. }
    pose proof (Qle_Qabs v) as V1.
    pose proof (Qle_Qabs (- v)) as V2. rewrite Qabs_opp in V2.
    pose proof (Qle_Qabs (v - q)) as W1.
    pose proof (Qle_Qabs (- (v - q))) as W2. rewrite Qabs_opp in W2.
    destruct (Qlt_le_dec 0 q) as [Hpos|Hneg].
    + rewrite (Qabs_pos q) in HL by lra.
      eapply Qle_trans; [apply (Hnear (2 ^ (prec f - 1))%Z)|].
      rewrite <- EL. rewrite Qabs_neg by lra. lra.
    + rewrite (Qabs_neg q) in HL by lra.
      eapply Qle_trans; [apply (Hnear (- 2 ^ (prec f - 1))%Z)|].
      rewrite inject_Z_opp.
      assert (E' : (- inject_Z (2 ^ (prec f - 1)) * pow2 u - q
                    == - pow2 L - q)%Q) by (rewrite EL; ring).
      rewrite E'. rewrite Qabs_pos by lra. lra.
Qed.

(** ** Agreement with the Standard Library's specification *)

Example spec_tenth :
  IEEE.lit (1 # 10) = of_spec_float (spec_div (spec_int 1) (spec_int 10)).
Proof. vm_compute. reflexivity. Qed.

Example spec_step :
  IEEE.div one morphDuration
  = of_spec_float (spec_div (spec_int 1) (spec_int 120)).
Proof. vm_compute. reflexivity. Qed.

Example spec_store_ripple :
  IEEE.store (IEEE.lit (5 # 100))
  = of_spec_float (spec_store (spec_div (spec_int 5) (spec_int 100))).
Proof. vm_compute. reflexivity. Qed.

Example spec_progress :
  progress_after 121
  = of_spec_float
      (Nat.iter 121
         (fun p => spec_add p (spec_div (spec_int 1) (spec_int 120)))
         (spec_int 0)).
Proof. vm_compute. reflexivity. Qed.

Example spec_eased :
  IEEE.eased (progress_after 121)
  = of_spec_float
      (let p := Nat.iter 121
                  (fun p => spec_add p (spec_div (spec_int 1) (spec_int 120)))
                  (spec_int 0) in
       let x := spec_add (spec_mul (spec_int (-2)) p) (spec_int 2) in
       spec_sub (spec_int 1) (spec_div (spec_mul x x) (spec_int 2))).
Proof. vm_compute. reflexivity. Qed.

Example spec_skew_sum :
  IEEE.add (Fin (52991 # 72057594037927936)) (Fin (5170229 # 33554432))
  = of_spec_float
      (spec_add (SpecFloat.binary_normalize 53 1024 52991 (-56) false)
                (SpecFloat.binary_normalize 53 1024 5170229 (-25) false)).
Proof. vm_compute. reflexivity. Qed.

(** * [normalizeGeometry] in IEEE arithmetic *)

Lemma ieee_normalizeGeometry_values (pos : list num) (size : num) :
  IEEE.normalizeGeometry pos size
  = IEEE.normalized_at pos size <$> seq 0 (length pos).
Proof.
  unfold IEEE.normalizeGeometry.
  rewrite (foldl_ext_in _ (write3 (IEEE.normalized_at pos size))).
  - rewrite <- (length_replicate (length pos) (Fin 0)) at 2 3.
    apply fill3_stride3.
  - intros a i Hi. unfold stride3 in Hi.
    apply list_elem_of_fmap in Hi as (v & -> & _).
    unfold IEEE.normalize_step, write3, IEEE.normalized_at.
    destruct (div3 v 0) as [_ M0]; [lia|].
    destruct (div3 v 1) as [_ M1]; [lia|].
    destruct (div3 v 2) as [_ M2]; [lia|].
    rewrite Nat.add_0_r in M0. by rewrite M0, M1, M2.
Qed.

Lemma ieee_normalizeGeometry_length (pos : list num) (size : num) :
  length (IEEE.normalizeGeometry pos size) = length pos.
Proof.
  by rewrite ieee_normalizeGeometry_values, length_fmap, length_seq.
Qed.

#[global] Instance scaled_proper (s S : Q) : Proper (Qeq ==> Qeq) (scaled s S).
Proof. intros x x' E. unfold scaled. by rewrite E. Qed.

Lemma elemQ_scaled (c s S p : Q) : (elemQ c s S p == scaled s S (p - c))%Q.
Proof.
  unfold elemQ, scaled. by rewrite !Qred_correct.
Qed.

Lemma scaled_opp (s S x : Q) : (scaled s S (- x) == - scaled s S x)%Q.
Proof.
  unfold scaled.
  rewrite <- (rnd_opp binary32), <- (rnd_opp binary64).
  assert (E1 : (rnd binary64 (- x) / s == - (rnd binary64 x / s))%Q).
  { rewrite rnd_opp. unfold Qdiv. ring. }
  rewrite E1, rnd_opp.
  assert (E2 : (- rnd binary64 (rnd binary64 x / s) * S
                == - (rnd binary64 (rnd binary64 x / s) * S))%Q) by ring.
  by rewrite E2.
Qed.

Lemma scaled_mono (s S x x' : Q) :
  (0 < s)%Q -> (0 < S)%Q -> (x <= x')%Q -> (scaled s S x <= scaled s S x')%Q.
Proof.
  intros Hs HS Hx. unfold scaled.
  apply (rnd_mono binary32 prec32), (rnd_mono binary64 prec64).
  apply Qmult_le_compat_r; [|lra].
  apply (rnd_mono binary64 prec64).
  apply Qmult_le_compat_r;
    [|apply Qlt_le_weak, Qinv_lt_0_compat, Hs].
  by apply (rnd_mono binary64 prec64).
Qed.

Lemma value_half : is_value binary64 (1 # 2).
Proof.
  exists 1%Z, (-1)%Z. split; [reflexivity|]. split; [reflexivity|].
  split; [simpl; lia|reflexivity].
Qed.

(** The distance that is half the divisor ends at half the size. *)
Lemma scaled_top (s S h : Q) :
  (0 < s)%Q -> is_value binary32 (S / 2) ->
  (rnd binary64 h == s * (1 # 2))%Q -> (scaled s S h == S / 2)%Q.
Proof.
  intros Hs HS Hh. unfold scaled.
  assert (E1 : (rnd binary64 h / s == 1 # 2)%Q) by (rewrite Hh; field; lra).
  rewrite E1, (rnd_value binary64 prec64 _ value_half).
  assert (E2 : ((1 # 2) * S == S / 2)%Q) by field.
  rewrite E2, (rnd_value binary64 prec64) by (by apply value32_64).
  by apply (rnd_value binary32 prec32).
Qed.

(** One element of the result. *)
Lemma ieee_element (c s S p : Q) :
  (0 < s)%Q -> is_value binary64 s -> (0 < S)%Q -> is_value binary32 (S / 2) ->
  (Qabs (rnd binary64 (p - c)) <= s * (1 # 2))%Q ->
  IEEE.store (IEEE.mul (IEEE.div (IEEE.sub (Fin p) (Fin c)) (Fin s)) (Fin S))
  = Fin (elemQ c s S p) /\
  (Qabs (elemQ c s S p) <= S / 2)%Q.
Proof.
  intros Hs Hsv HS HSv Hx.
  pose proof (value_le_max _ _ Hsv) as Hs1024.
  assert (HSv64 : is_value binary64 (S / 2)) by (by apply value32_64).
  pose proof (value_le_max _ _ HSv64) as HS1024.
  pose proof (value_le_max _ _ HSv) as HS128.
  pose proof (pow2_lt 0 (emax binary64) ltac:(simpl; lia)) as P.
  change (pow2 0) with 1%Q in P.
  unfold elemQ.
  (* the subtraction *)
  unfold IEEE.sub, nsub, nadd, nneg, fl.
  rewrite round_fin by (unfold Qminus in Hx; lra).
  set (y1 := Qred (rnd binary64 (p + - c))).
  assert (Hy1 : (Qabs y1 <= s * (1 # 2))%Q)
    by (unfold y1; rewrite Qred_correct; exact Hx).
  (* the division *)
  unfold IEEE.div, ndiv, fl.
  assert (Es : Qeq_bool s 0 = false).
  { destruct (Qeq_bool s 0) eqn:E; [|done]. apply Qeq_bool_iff in E. lra. }
  rewrite Es.
  assert (Hq : (Qabs (y1 / s) <= 1 # 2)%Q).
  { unfold Qdiv. rewrite Qabs_Qmult.
    rewrite (Qabs_pos (/ s)) by apply Qlt_le_weak, Qinv_lt_0_compat, Hs.
    apply Qle_shift_div_r; [done|]. lra. }
  pose proof (rnd_bound binary64 prec64 _ _ value_half Hq) as Hb2.
  rewrite round_fin by lra.
  set (y2 := Qred (rnd binary64 (y1 / s))).
  assert (Hy2 : (Qabs y2 <= 1 # 2)%Q)
    by (unfold y2; rewrite Qred_correct; exact Hb2).
  (* the multiplication *)
  unfold IEEE.mul, nmul, fl.
  assert (Hm : (Qabs (y2 * S) <= S / 2)%Q).
  { rewrite Qabs_Qmult, (Qabs_pos S) by lra.
    assert (Qabs y2 * S <= (1 # 2) * S)%Q by (apply Qmult_le_compat_r; lra).
    assert ((1 # 2) * S == S / 2)%Q by field. lra. }
  pose proof (rnd_bound binary64 prec64 _ _ HSv64 Hm) as Hb3.
  rewrite round_fin by lra.
  set (y3 := Qred (rnd binary64 (y2 * S))).
  assert (Hy3 : (Qabs y3 <= S / 2)%Q)
    by (unfold y3; rewrite Qred_correct; exact Hb3).
  (* the store *)
  unfold IEEE.store, fl.
  pose proof (rnd_bound binary32 prec32 _ _ HSv Hy3) as Hb4.
  rewrite round_fin by lra.
  split; [done|]. by rewrite Qred_correct.
Qed.

(** ** The box of the result *)

Lemma grid32 (q : Q) :
  is_value binary32 q -> exists k : Z, (q == inject_Z k * pow2 (-149))%Q.
Proof. apply (value_grid binary32). Qed.

(** Halving a binary64 number on the binary32 grid is exact. *)
Lemma rnd64_half (x : Q) :
  (exists k : Z, (x == inject_Z k * pow2 (-149))%Q) ->
  (rnd binary64 (x * (1 # 2)) == rnd binary64 x * (1 # 2))%Q.
Proof.
  intros G. destruct (Qeq_dec x 0) as [E|N].
  - rewrite (rnd_0 binary64 x E), (rnd_0 binary64 (x * (1 # 2))).
    + ring.
    + rewrite E. ring.
  - assert (E : (x * (1 # 2) == x / 2)%Q) by field.
    rewrite E. apply (rnd_half binary64); [done|].
    pose proof (ilog2_ge x (-149) (grid_nonzero (-149) x G N)).
    simpl. lia.
Qed.

Lemma value64_half (x : Q) :
  is_value binary64 x ->
  (exists k : Z, (x == inject_Z k * pow2 (-149))%Q) ->
  is_value binary64 (x * (1 # 2)).
Proof.
  intros Hx G.
  pose proof (rnd64_half x G) as E.
  rewrite (rnd_value binary64 prec64 x Hx) in E.
  apply (is_value_comp binary64 (rnd binary64 (x * (1 # 2)))); [done|].
  apply (rnd_is_value binary64 prec64). rewrite E.
  pose proof (value_lt_max _ _ Hx) as Hm.
  rewrite Qabs_Qmult. change (Qabs (1 # 2)) with (1 # 2).
  pose proof (Qabs_nonneg x). lra.
Qed.

Lemma value32_double (x : Q) : is_value binary32 (x / 2) -> is_value binary64 x.
Proof.
  intros (m & e & H1 & H2 & H3 & H4). exists m, (e + 1)%Z.
  change (prec binary32) with 24%Z in H2. change (emin binary32) with (-149)%Z in H3.
  change (emax binary32) with 128%Z in H4.
  change (prec binary64) with 53%Z. change (emin binary64) with (-1074)%Z.
  change (emax binary64) with 1024%Z.
  split.
  { rewrite pow2_S. assert (E : (x == 2 * (x / 2))%Q) by field.
    rewrite E, H1. ring. }
  split; [lia|]. split; [lia|].
  assert (E : (Qabs x == 2 * Qabs (x / 2))%Q).
  { unfold Qdiv. rewrite Qabs_Qmult. change (Qabs (/ 2)) with (/ 2)%Q. field. }
  pose proof (pow2_S 128). pose proof (pow2_lt 129 1024 ltac:(lia)).
  change (128 + 1)%Z with 129%Z in *. lra.
Qed.

Lemma round_zero (f : format) (q : Q) : (q == 0)%Q -> round f q = Fin 0.
Proof.
  intros E. pose proof (rnd_0 f q E) as R. pose proof (pow2_pos (emax f)).
  rewrite round_fin.
  - unfold rnd. apply Qeq_bool_iff in E. by rewrite E.
  - rewrite R. change (Qabs 0) with 0%Q. lra.
Qed.

(** Sums and differences of binary32 numbers are in the range of binary64. *)
Lemma sum32_bound (a b : Q) :
  is_value binary32 a -> is_value binary32 b ->
  (Qabs (rnd binary64 (a + b)) < pow2 (emax binary64))%Q.
Proof.
  intros Ha Hb.
  pose proof (value_lt_max _ _ Ha) as A. pose proof (value_lt_max _ _ Hb) as B.
  change (emax binary32) with 128%Z in A, B.
  assert (H : (Qabs (a + b) <= pow2 129)%Q).
  { pose proof (Qabs_triangle a b). pose proof (pow2_S 128).
    change (128 + 1)%Z with 129%Z in *. lra. }
  pose proof (rnd_bound binary64 prec64 _ _
                (is_value_pow2 binary64 129 prec64 ltac:(simpl; lia)) H).
  pose proof (pow2_lt 129 1024 ltac:(lia)).
  change (emax binary64) with 1024%Z. lra.
Qed.

Lemma qcolumn_value (qs : list Q) (j : nat) (x : Q) :
  Forall (is_value binary32) qs -> x ∈ qcolumn qs j -> is_value binary32 x.
Proof.
  intros Hv Hx. unfold qcolumn in Hx.
  apply list_elem_of_fmap in Hx as (v & -> & _).
  destruct (qs !! (3 * v + j)) as [y|] eqn:E; simpl.
  - by apply (Forall_lookup_1 _ _ _ _ Hv E).
  - apply is_value_0, prec32.
Qed.

Lemma ieee_axis_center (b : bbox) (j : nat) :
  IEEE.axis_center b j = IEEE.div (IEEE.add (axis_min b j) (axis_max b j)) two.
Proof. by destruct j as [|[|j]]. Qed.

(** The image of a box under a monotone map. *)
Lemma monotone_image_box (f : Q -> Q) (xs : list Q) (lo hi lo' hi' : Q) :
  (forall x y, (x <= y)%Q -> (f x <= f y)%Q) ->
  lo ∈ xs -> hi ∈ xs ->
  (forall x, x ∈ xs -> (lo <= x)%Q /\ (x <= hi)%Q) ->
  lo' ∈ f <$> xs -> hi' ∈ f <$> xs ->
  (forall y, y ∈ f <$> xs -> (lo' <= y)%Q /\ (y <= hi')%Q) ->
  (lo' == f lo)%Q /\ (hi' == f hi)%Q.
Proof.
  intros Hf Ilo Ihi Hbox Ilo' Ihi' Hbox'.
  apply list_elem_of_fmap in Ilo' as (p & -> & Ip).
  apply list_elem_of_fmap in Ihi' as (r & -> & Ir).
  destruct (Hbox p Ip) as [P1 _]. destruct (Hbox r Ir) as [_ R2].
  destruct (Hbox' (f lo)) as [L1 _]; [by apply list_elem_of_fmap_2|].
  destruct (Hbox' (f hi)) as [_ L2]; [by apply list_elem_of_fmap_2|].
  pose proof (Hf _ _ P1). pose proof (Hf _ _ R2).
  split; apply Qle_antisym; done.
Qed.

Lemma scaled_0 (s S : Q) : (scaled s S 0 == 0)%Q.
Proof.
  unfold scaled.
  assert (E0 : (rnd binary64 0 == 0)%Q) by (by apply rnd_0).
  assert (E1 : (rnd binary64 0 / s == 0)%Q) by (rewrite E0; unfold Qdiv; ring).
  assert (E2 : (rnd binary64 (rnd binary64 0 / s) * S == 0)%Q).
  { rewrite (rnd_0 binary64 _ E1). ring. }
  by rewrite (rnd_0 binary32 _ (rnd_0 binary64 _ E2)).
Qed.

(** One axis of the box of a non-empty sequence of binary32 numbers, when
    the sum of its least and greatest number is a binary64 number. *)
Lemma ieee_axis (qs : list Q) (j : nat) :
  flat_triples (Fin <$> qs) -> qs <> [] -> j < 3 ->
  Forall (is_value binary32) qs ->
  IEEE.add (axis_min (bounds (Fin <$> qs)) j) (axis_max (bounds (Fin <$> qs)) j)
  =n= (axis_min (bounds (Fin <$> qs)) j + axis_max (bounds (Fin <$> qs)) j)%num ->
  exists lo hi c e : Q,
    axis_min (bounds (Fin <$> qs)) j = Fin lo /\
    axis_max (bounds (Fin <$> qs)) j = Fin hi /\
    lo ∈ qcolumn qs j /\ hi ∈ qcolumn qs j /\
    (forall x, x ∈ qcolumn qs j -> (lo <= x)%Q /\ (x <= hi)%Q) /\
    IEEE.axis_center (bounds (Fin <$> qs)) j = Fin c /\
    (c == (lo + hi) * (1 # 2))%Q /\
    IEEE.sub (Fin hi) (Fin lo) = Fin e /\
    is_value binary64 e /\ (0 <= e)%Q /\
    (rnd binary64 ((hi - lo) * (1 # 2)) == e * (1 # 2))%Q.
Proof.
  intros Hflat Hne Hj Hv Hsum.
  destruct (axis_box qs j Hflat Hne Hj) as (lo & hi & L & H & Ilo & Ihi & Hbox).
  pose proof (qcolumn_value qs j lo Hv Ilo) as Vlo.
  pose proof (qcolumn_value qs j hi Hv Ihi) as Vhi.
  rewrite ieee_axis_center. rewrite L, H in Hsum |- *.
  assert (Gsum : exists k : Z, (lo + hi == inject_Z k * pow2 (-149))%Q)
    by (apply grid_add; by apply grid32).
  assert (Gdif : exists k : Z, (hi - lo == inject_Z k * pow2 (-149))%Q).
  { unfold Qminus. apply grid_add; [|apply grid_opp]; by apply grid32. }
  assert (Vsum : is_value binary64 (lo + hi))
    by (apply (value_round binary64 _ prec64); exact Hsum).
  pose proof (rnd_value binary64 prec64 _ Vsum) as Rsum.
  pose proof (sum32_bound lo hi Vlo Vhi) as Bsum.
  pose proof (sum32_bound hi (- lo) Vhi (is_value_opp _ _ Vlo)) as Bdif.
  set (a := Qred (rnd binary64 (lo + hi))).
  assert (Ea : (a == lo + hi)%Q) by (unfold a; by rewrite Qred_correct).
  assert (Va2 : is_value binary64 (a / 2)).
  { apply (is_value_comp binary64 ((lo + hi) * (1 # 2))).
    - rewrite Ea. field.
    - by apply value64_half. }
  exists lo, hi, (Qred (rnd binary64 (a / 2))), (Qred (rnd binary64 (hi + - lo))).
  do 5 (split; [done|]).
  split.
  { unfold IEEE.add, nadd, fl. rewrite round_fin by done. fold a.
    unfold IEEE.div, two, ndiv, fl.
    change (Qeq_bool 2 0) with false. cbv iota.
    rewrite round_fin; [done|].
    rewrite (rnd_value binary64 prec64 _ Va2). by apply value_lt_max. }
  split.
  { rewrite Qred_correct, (rnd_value binary64 prec64 _ Va2), Ea. field. }
  split.
  { unfold IEEE.sub, nsub, nneg, nadd, fl. by rewrite round_fin. }
  split.
  { apply (is_value_comp binary64 (rnd binary64 (hi + - lo)));
      [by rewrite Qred_correct|].
    by apply (rnd_is_value binary64 prec64). }
  split.
  { rewrite Qred_correct. apply rnd_nonneg.
    destruct (Hbox lo Ilo) as [_ ?]. lra. }
  rewrite Qred_correct. by apply rnd64_half.
Qed.

Lemma Qmax3_top (a b c S : Q) :
  (a <= S)%Q -> (b <= S)%Q -> (c <= S)%Q ->
  (a == S \/ b == S \/ c == S)%Q -> (Qmax (Qmax a b) c == S)%Q.
Proof.
  intros Ha Hb Hc Htop.
  destruct (Qmax3_bounds a b c) as (Ba & Bb & Bc).
  apply Qle_antisym.
  - apply Q.max_lub; [apply Q.max_lub|]; done.
  - destruct Htop as [E|[E|E]]; rewrite <- E; done.
Qed.

Lemma elemQ_mono (c s S x y : Q) :
  (0 < s)%Q -> (0 < S)%Q -> (x <= y)%Q -> (elemQ c s S x <= elemQ c s S y)%Q.
Proof.
  intros Hs HS Hxy. rewrite !elemQ_scaled. apply scaled_mono; [done..|lra].
Qed.

Lemma normalizedQ_length (c : nat -> Q) (s S : Q) (qs : list Q) :
  length (normalizedQ c s S qs) = length qs.
Proof. unfold normalizedQ. by rewrite length_fmap, length_seq. Qed.

Lemma normalizedQ_column (c : nat -> Q) (s S : Q) (qs : list Q) (j : nat) :
  flat_triples (Fin <$> qs) -> j < 3 ->
  qcolumn (normalizedQ c s S qs) j = elemQ (c j) s S <$> qcolumn qs j.
Proof.
  intros Hflat Hj.
  pose proof (flat_triples_length _ Hflat) as E.
  rewrite vertices_fin, length_fmap in E.
  unfold qcolumn. rewrite normalizedQ_length, <- list_fmap_compose.
  apply fmap_seq_ext. intros v Hv. unfold compose, normalizedQ.
  rewrite list_lookup_fmap, lookup_seq_lt by lia.
  destruct (div3 v j Hj) as [_ M].
  cbn [fmap option_fmap option_map default from_option Nat.add].
  by rewrite M.
Qed.

(** One axis of the box of the stored numbers: it is symmetric, and as far
    from the origin as the half extent of the axis is taken. *)
Lemma ieee_axis_normalized (c : nat -> Q) (qs : list Q) (j : nat)
    (lo hi s S : Q) :
  flat_triples (Fin <$> qs) -> qs <> [] -> j < 3 ->
  lo ∈ qcolumn qs j -> hi ∈ qcolumn qs j ->
  (forall x, x ∈ qcolumn qs j -> (lo <= x)%Q /\ (x <= hi)%Q) ->
  (c j == (lo + hi) * (1 # 2))%Q -> (0 < s)%Q -> (0 < S)%Q ->
  exists lo' hi' : Q,
    axis_min (bounds (Fin <$> normalizedQ c s S qs)) j = Fin lo' /\
    axis_max (bounds (Fin <$> normalizedQ c s S qs)) j = Fin hi' /\
    (lo' == - scaled s S ((hi - lo) * (1 # 2)))%Q /\
    (hi' == scaled s S ((hi - lo) * (1 # 2)))%Q.
Proof.
  intros Hflat Hne Hj Ilo Ihi Hbox Hc Hs HS.
  assert (Hflat' : flat_triples (Fin <$> normalizedQ c s S qs)).
  { unfold flat_triples in *.
    by rewrite length_fmap, normalizedQ_length, <- (length_fmap Fin). }
  assert (Hne' : normalizedQ c s S qs <> []).
  { intros E. apply (f_equal length) in E.
    rewrite normalizedQ_length in E. by destruct qs. }
  destruct (axis_box _ j Hflat' Hne' Hj) as (lo' & hi' & L & H & Ilo' & Ihi' & Hbox').
  rewrite normalizedQ_column in Ilo', Ihi', Hbox' by done.
  exists lo', hi'. do 2 (split; [done|]).
  destruct (monotone_image_box (elemQ (c j) s S) (qcolumn qs j) lo hi lo' hi')
    as [E1 E2]; try done.
  { intros x y Hxy. by apply elemQ_mono. }
  rewrite E1, E2, !elemQ_scaled, <- scaled_opp.
  split; apply scaled_proper; rewrite Hc; ring.
Qed.

(** The centre and the extent of a symmetric axis. *)
Lemma ieee_center_symmetric (lo' hi' t : Q) :
  (lo' == - t)%Q -> (hi' == t)%Q ->
  IEEE.div (IEEE.add (Fin lo') (Fin hi')) two = Fin 0.
Proof.
  intros E1 E2. unfold IEEE.add, nadd, fl.
  rewrite round_zero by (rewrite E1, E2; ring).
  unfold IEEE.div, two, ndiv, fl. change (Qeq_bool 2 0) with false. cbv iota.
  by apply round_zero.
Qed.

Lemma ieee_extent_symmetric (lo' hi' t S : Q) :
  (lo' == - t)%Q -> (hi' == t)%Q -> (0 <= t)%Q -> (t <= S / 2)%Q ->
  is_value binary64 S ->
  exists e' : Q,
    IEEE.sub (Fin hi') (Fin lo') = Fin e' /\ (e' <= S)%Q /\
    ((t == S / 2)%Q -> (e' == S)%Q).
Proof.
  intros E1 E2 Ht0 Ht HS.
  pose proof (rnd_value binary64 prec64 S HS) as RS.
  assert (Ed : (hi' + - lo' == 2 * t)%Q) by (rewrite E1, E2; ring).
  assert (Hd : (2 * t <= S)%Q).
  { assert (E : (S == 2 * (S / 2))%Q) by field. lra. }
  pose proof (rnd_mono binary64 prec64 (hi' + - lo') S ltac:(lra)) as Hup.
  pose proof (rnd_nonneg binary64 (hi' + - lo') ltac:(lra)) as Hlow.
  pose proof (value_le_max _ _ HS) as Hmax.
  exists (Qred (rnd binary64 (hi' + - lo'))).
  split.
  { unfold IEEE.sub, nsub, nneg, nadd, fl. rewrite round_fin; [done|].
    rewrite Qabs_pos by done. lra. }
  rewrite Qred_correct. split; [lra|].
  intros Et. assert (E : (hi' + - lo' == S)%Q) by (rewrite Ed, Et; field).
  by rewrite E.
Qed.

(** A coordinate is no further from the centre of its axis than half
    the extent. *)
Lemma ieee_distance (lo hi c e s p : Q) :
  (lo <= p)%Q -> (p <= hi)%Q -> (c == (lo + hi) * (1 # 2))%Q ->
  (rnd binary64 ((hi - lo) * (1 # 2)) == e * (1 # 2))%Q -> (e <= s)%Q ->
  (Qabs (rnd binary64 (p - c)) <= s * (1 # 2))%Q.
Proof.
  intros H1 H2 Hc He Hs. apply Qabs_Qle_condition. split.
  - pose proof (rnd_mono binary64 prec64 (- ((hi - lo) * (1 # 2))) (p - c)
                  ltac:(lra)) as H.
    rewrite rnd_opp in H. lra.
  - pose proof (rnd_mono binary64 prec64 (p - c) ((hi - lo) * (1 # 2))
                  ltac:(lra)). lra.
Qed.

Lemma elemQ_value (c s S p : Q) :
  is_value binary32 (S / 2) -> (Qabs (elemQ c s S p) <= S / 2)%Q ->
  is_value binary32 (elemQ c s S p).
Proof.
  intros HS Hb. pose proof (value_le_max _ _ HS) as Hm.
  unfold elemQ in *. rewrite Qred_correct in Hb.
  eapply is_value_comp; [symmetry; apply Qred_correct|].
  apply (rnd_is_value binary32 prec32). lra.
Qed.

(** The numbers stored by [normalizeGeometry] and their box, for binary32
    positions whose axis sums [min + max] are binary64 numbers. *)
Lemma ieee_normalized (qs : list Q) (S : Q) :
  flat_triples (Fin <$> qs) -> qs <> [] ->
  Forall (is_value binary32) qs ->
  (forall j, j < 3 ->
     IEEE.add (axis_min (bounds (Fin <$> qs)) j) (axis_max (bounds (Fin <$> qs)) j)
     =n= (axis_min (bounds (Fin <$> qs)) j
          + axis_max (bounds (Fin <$> qs)) j)%num) ->
  (nltb zero (IEEE.extentX (bounds (Fin <$> qs))) = true
   \/ nltb zero (IEEE.extentY (bounds (Fin <$> qs))) = true
   \/ nltb zero (IEEE.extentZ (bounds (Fin <$> qs))) = true) ->
  (0 < S)%Q -> is_value binary32 (S / 2) ->
  exists (gs : list Q) (e0 e1 e2 : Q),
    IEEE.normalizeGeometry (Fin <$> qs) (Fin S) = Fin <$> gs /\
    length gs = length qs /\
    Forall (fun y => is_value binary32 y /\ (Qabs y <= S / 2)%Q) gs /\
    IEEE.extentX (bounds (Fin <$> gs)) = Fin e0 /\
    IEEE.extentY (bounds (Fin <$> gs)) = Fin e1 /\
    IEEE.extentZ (bounds (Fin <$> gs)) = Fin e2 /\
    ((e0 <= S)%Q /\ (e1 <= S)%Q /\ (e2 <= S)%Q) /\
    (e0 == S \/ e1 == S \/ e2 == S)%Q /\
    IEEE.centerX (bounds (Fin <$> gs)) = Fin 0 /\
    IEEE.centerY (bounds (Fin <$> gs)) = Fin 0 /\
    IEEE.centerZ (bounds (Fin <$> gs)) = Fin 0.
Proof.
  intros Hflat Hne Hv Hsum Hdeg HS HSv.
  destruct (ieee_axis qs 0 Hflat Hne ltac:(lia) Hv (Hsum 0 ltac:(lia)))
    as (lo0 & hi0 & c0 & e0 & L0 & H0 & I0 & J0 & B0 & C0 & Ec0 & X0 & V0 & P0 & R0).
  destruct (ieee_axis qs 1 Hflat Hne ltac:(lia) Hv (Hsum 1 ltac:(lia)))
    as (lo1 & hi1 & c1 & e1 & L1 & H1 & I1 & J1 & B1 & C1 & Ec1 & X1 & V1 & P1 & R1).
  destruct (ieee_axis qs 2 Hflat Hne ltac:(lia) Hv (Hsum 2 ltac:(lia)))
    as (lo2 & hi2 & c2 & e2 & L2 & H2 & I2 & J2 & B2 & C2 & Ec2 & X2 & V2 & P2 & R2).
  cbn [axis_min axis_max] in L0, H0, L1, H1, L2, H2.
  set (pos := Fin <$> qs) in *.
  set (s := Qmax (Qmax e0 e1) e2).
  destruct (Qmax3_bounds e0 e1 e2) as (M0 & M1 & M2). fold s in M0, M1, M2.
  assert (Hs : IEEE.bbox_scale (bounds pos) = Fin s).
  { unfold IEEE.bbox_scale, IEEE.extentX, IEEE.extentY, IEEE.extentZ.
    by rewrite L0, H0, L1, H1, L2, H2, X0, X1, X2. }
  assert (Hpos : (0 < s)%Q).
  { unfold IEEE.extentX, IEEE.extentY, IEEE.extentZ in Hdeg.
    rewrite L0, H0, L1, H1, L2, H2, X0, X1, X2 in Hdeg.
    destruct Hdeg as [D|[D|D]]; apply nltb_zero_fin in D; lra. }
  assert (Vs : is_value binary64 s).
  { unfold s. destruct (Qmax_cases (Qmax e0 e1) e2) as [-> | ->]; [|done].
    by destruct (Qmax_cases e0 e1) as [-> | ->]. }
  assert (Htop : s = e0 \/ s = e1 \/ s = e2).
  { unfold s. destruct (Qmax_cases (Qmax e0 e1) e2) as [-> | ->]; [|auto].
    destruct (Qmax_cases e0 e1) as [-> | ->]; auto. }
  set (c := by_axis c0 c1 c2).
  assert (D0 : forall p, p ∈ qcolumn qs 0 ->
                 (Qabs (rnd binary64 (p - c0)) <= s * (1 # 2))%Q).
  { intros p Hp. destruct (B0 p Hp). by apply (ieee_distance lo0 hi0 c0 e0). }
  assert (D1 : forall p, p ∈ qcolumn qs 1 ->
                 (Qabs (rnd binary64 (p - c1)) <= s * (1 # 2))%Q).
  { intros p Hp. destruct (B1 p Hp). by apply (ieee_distance lo1 hi1 c1 e1). }
  assert (D2 : forall p, p ∈ qcolumn qs 2 ->
                 (Qabs (rnd binary64 (p - c2)) <= s * (1 # 2))%Q).
  { intros p Hp. destruct (B2 p Hp). by apply (ieee_distance lo2 hi2 c2 e2). }
  assert (Helem : forall k, k < length qs ->
            IEEE.normalized_at pos (Fin S) k
            = Fin (elemQ (c (k mod 3)) s S (default 0%Q (qs !! k))) /\
            (Qabs (elemQ (c (k mod 3)) s S (default 0%Q (qs !! k))) <= S / 2)%Q).
  { intros k Hk. unfold IEEE.normalized_at. rewrite Hs.
    unfold pos at 1. rewrite get_fin by done.
    pose proof (qcolumn_elem qs k Hflat Hk) as Ip.
    pose proof (Nat.mod_upper_bound k 3 ltac:(lia)) as Hm.
    destruct (k mod 3) as [|[|[|j]]]; [| | |lia].
    - rewrite C0. apply ieee_element; auto.
    - rewrite C1. apply ieee_element; auto.
    - rewrite C2. apply ieee_element; auto. }
  set (gs := normalizedQ c s S qs).
  assert (Hout : IEEE.normalizeGeometry pos (Fin S) = Fin <$> gs).
  { rewrite ieee_normalizeGeometry_values. unfold gs, normalizedQ.
    rewrite <- list_fmap_compose. unfold pos at 2. rewrite length_fmap.
    apply fmap_seq_ext. intros k Hk. unfold compose. apply Helem. lia. }
  assert (Hall : Forall (fun y => is_value binary32 y
                                  /\ (Qabs y <= S / 2)%Q) gs).
  { apply Forall_forall. intros y Hy. unfold gs, normalizedQ in Hy.
    apply list_elem_of_fmap in Hy as (k & -> & Hk).
    apply elem_of_seq in Hk. destruct (Helem k) as [_ Hb]; [lia|].
    split; [by apply elemQ_value|done]. }
  assert (VS : is_value binary64 S) by (by apply value32_double).
  assert (T : forall lo hi cc e : Q,
            (lo <= hi)%Q -> (cc == (lo + hi) * (1 # 2))%Q ->
            (rnd binary64 ((hi - lo) * (1 # 2)) == e * (1 # 2))%Q ->
            (e <= s)%Q ->
            (0 <= scaled s S ((hi - lo) * (1 # 2)))%Q /\
            (scaled s S ((hi - lo) * (1 # 2)) <= S / 2)%Q /\
            (s = e -> (scaled s S ((hi - lo) * (1 # 2)) == S / 2)%Q)).
  { intros lo hi cc e Hle Hc Hr He. split; [|split].
    - rewrite <- (scaled_0 s S). apply scaled_mono; [done..|lra].
    - destruct (ieee_element cc s S hi Hpos Vs HS HSv) as [_ Hb].
      { apply (ieee_distance lo hi cc e); (done || lra). }
      rewrite elemQ_scaled in Hb.
      assert (E : (hi - cc == (hi - lo) * (1 # 2))%Q) by (rewrite Hc; ring).
      rewrite E in Hb.
      pose proof (Qle_Qabs (scaled s S ((hi - lo) * (1 # 2)))). lra.
    - intros ->. by apply scaled_top. }
  destruct (B0 lo0 I0) as [_ O0]. destruct (B1 lo1 I1) as [_ O1].
  destruct (B2 lo2 I2) as [_ O2].
  destruct (T lo0 hi0 c0 e0 O0 Ec0 R0 M0) as (T0a & T0b & T0c).
  destruct (T lo1 hi1 c1 e1 O1 Ec1 R1 M1) as (T1a & T1b & T1c).
  destruct (T lo2 hi2 c2 e2 O2 Ec2 R2 M2) as (T2a & T2b & T2c).
  destruct (ieee_axis_normalized c qs 0 lo0 hi0 s S Hflat Hne ltac:(lia)
              I0 J0 B0 Ec0 Hpos HS) as (lo0' & hi0' & L0' & H0' & El0 & Eh0).
  destruct (ieee_axis_normalized c qs 1 lo1 hi1 s S Hflat Hne ltac:(lia)
              I1 J1 B1 Ec1 Hpos HS) as (lo1' & hi1' & L1' & H1' & El1 & Eh1).
  destruct (ieee_axis_normalized c qs 2 lo2 hi2 s S Hflat Hne ltac:(lia)
              I2 J2 B2 Ec2 Hpos HS) as (lo2' & hi2' & L2' & H2' & El2 & Eh2).
  fold gs in L0', H0', L1', H1', L2', H2'.
  cbn [axis_min axis_max] in L0', H0', L1', H1', L2', H2'.
  destruct (ieee_extent_symmetric lo0' hi0' _ S El0 Eh0 T0a T0b VS)
    as (e0' & X0' & U0 & Q0).
  destruct (ieee_extent_symmetric lo1' hi1' _ S El1 Eh1 T1a T1b VS)
    as (e1' & X1' & U1 & Q1).
  destruct (ieee_extent_symmetric lo2' hi2' _ S El2 Eh2 T2a T2b VS)
    as (e2' & X2' & U2 & Q2).
  exists gs, e0', e1', e2'.
  split; [done|]. split; [apply normalizedQ_length|]. split; [done|].
  unfold IEEE.extentX, IEEE.extentY, IEEE.extentZ,
    IEEE.centerX, IEEE.centerY, IEEE.centerZ.
  rewrite L0', H0', L1', H1', L2', H2'.
  do 3 (split; [done|]). split; [done|].
  split.
  { destruct Htop as [E|[E|E]]; [left|right; left|right; right]; auto. }
  split; [by eapply ieee_center_symmetric|].
  split; by eapply ieee_center_symmetric.
Qed.




(** X8.  Under the same conditions every number of the result is a finite
    binary32 number of absolute value at most [S / 2]: the normalized mesh
    lies in the cube of side [S] centred at the origin, also after
    rounding. *)
Theorem normalizeGeometry_range (qs : list Q) (S : Q) :
  flat_triples (Fin <$> qs) -> qs <> [] ->
  Forall (is_value binary32) qs ->
  (forall j, j < 3 ->
     IEEE.add (axis_min (bounds (Fin <$> qs)) j) (axis_max (bounds (Fin <$> qs)) j)
     =n= (axis_min (bounds (Fin <$> qs)) j
          + axis_max (bounds (Fin <$> qs)) j)%num) ->
  (nltb zero (IEEE.extentX (bounds (Fin <$> qs))) = true
   \/ nltb zero (IEEE.extentY (bounds (Fin <$> qs))) = true
   \/ nltb zero (IEEE.extentZ (bounds (Fin <$> qs))) = true) ->
  (0 < S)%Q -> is_value binary32 (S / 2) ->
  forall k, k < length qs ->
    exists y : Q,
      IEEE.normalizeGeometry (Fin <$> qs) (Fin S) !! k = Some (Fin y) /\
      is_value binary32 y /\ (Qabs y <= S / 2)%Q.
Proof.
  intros Hflat Hne Hv Hsum Hdeg HS HSv k Hk.
  destruct (ieee_normalized qs S Hflat Hne Hv Hsum Hdeg HS HSv)
    as (gs & e0 & e1 & e2 & Hout & Hlen & Hall & _).
  destruct (lookup_lt_is_Some_2 gs k) as [y Hy]; [lia|].
  exists y. rewrite Hout, list_lookup_fmap, Hy. split; [done|].
  by apply (Forall_lookup_1 _ _ _ _ Hall Hy).
Qed.

Lemma normalizeGeometry_range_witness :
  exists y : Q,
    IEEE.normalizeGeometry (Fin <$> wedge) (Fin (7 # 2)) !! 8 = Some (Fin y) /\
    is_value binary32 y /\ (Qabs y <= (7 # 2) / 2)%Q.
Proof.
  apply (normalizeGeometry_range wedge (7 # 2)).
  - reflexivity.
  - discriminate.
  - repeat constructor; apply (value_round binary32 _ prec32);
      vm_compute; reflexivity.
  - intros j Hj. destruct j as [|[|[|j]]]; [vm_compute; reflexivity..|lia].
  - left. vm_compute. reflexivity.
  - reflexivity.
  - apply (value_round binary32 _ prec32). vm_compute. reflexivity.
  - simpl. lia.
Defined.

(** * The morph in IEEE arithmetic *)

Lemma ieee_interpolate_values (pos orig target : list num) (e : num) :
  IEEE.interpolate pos orig target e
  = interpolated orig target e <$> seq 0 (length pos).
Proof. exact (fill3_stride3 (interpolated orig target e) pos). Qed.

Lemma ieee_interpolate_length (pos orig target : list num) (e : num) :
  length (IEEE.interpolate pos orig target e) = length pos.
Proof. by rewrite ieee_interpolate_values, length_fmap, length_seq. Qed.

(** ** The ripple loop *)

Lemma rippled_local (Math_sin Math_sqrt : num -> num) (phase progress : num)
    (a b : list num) (k : nat) :
  (forall j, 3 * (k / 3) <= j < 3 * (k / 3) + 3 -> a !! j = b !! j) ->
  rippled Math_sin Math_sqrt phase progress a k
  = rippled Math_sin Math_sqrt phase progress b k.
Proof.
  intros H. unfold rippled, get.
  pose proof (Nat.div_mod_eq k 3) as E.
  pose proof (Nat.mod_upper_bound k 3 ltac:(lia)) as Hm.
  rewrite (H k), (H (3 * (k / 3))), (H (3 * (k / 3) + 1)),
    (H (3 * (k / 3) + 2)) by lia.
  done.
Qed.

Lemma ripple_step_write3 (Math_sin Math_sqrt : num -> num)
    (phase progress : num) (a : list num) (v : nat) :
  IEEE.ripple_step Math_sin Math_sqrt phase progress a (3 * v)
  = write3 (rippled Math_sin Math_sqrt phase progress a) a (3 * v).
Proof.
  unfold IEEE.ripple_step, write3, rippled.
  destruct (div3 v 0) as [D0 _]; [lia|].
  destruct (div3 v 1) as [D1 _]; [lia|].
  destruct (div3 v 2) as [D2 _]; [lia|].
  rewrite Nat.add_0_r in D0. by rewrite D0, D1, D2.
Qed.

Lemma ripple_loop_lookup (Math_sin Math_sqrt : num -> num)
    (phase progress : num) (n a0 : nat) (dst : list num) (k : nat) :
  foldl (IEEE.ripple_step Math_sin Math_sqrt phase progress) dst
    ((fun j => 3 * j) <$> seq a0 n) !! k =
  if decide (3 * a0 <= k < 3 * (a0 + n) /\ k < length dst)
  then Some (rippled Math_sin Math_sqrt phase progress dst k)
  else dst !! k.
Proof.
  revert a0 dst. induction n as [|n IH]; intros a0 dst.
  - simpl. rewrite decide_False by lia. done.
  - cbn [seq]. rewrite fmap_cons. cbn [foldl].
    rewrite IH, ripple_step_write3, write3_length.
    destruct (decide (3 * S a0 <= k < 3 * (S a0 + n) /\ k < length dst))
      as [Hk|Hk].
    + rewrite decide_True by lia. f_equal.
      apply rippled_local. intros j Hj. rewrite write3_lookup.
      pose proof (Nat.div_mod_eq k 3) as E.
      pose proof (Nat.mod_upper_bound k 3 ltac:(lia)) as Hm.
      rewrite decide_False; [done|]. lia.
    + rewrite write3_lookup. repeat case_decide; try done; lia.
Qed.

(** The ripple loop moves every coordinate by the ripple of its vertex,
    taken from the positions before the loop. *)
Lemma ripple_loop_values (Math_sin Math_sqrt : num -> num)
    (phase progress : num) (pos : list num) :
  foldl (IEEE.ripple_step Math_sin Math_sqrt phase progress) pos
    (stride3 (length pos))
  = rippled Math_sin Math_sqrt phase progress pos <$> seq 0 (length pos).
Proof.
  apply list_eq. intros k. unfold stride3. rewrite ripple_loop_lookup.
  rewrite list_lookup_fmap.
  destruct (decide (k < length pos)) as [Hk|Hk].
  - rewrite decide_True by (pose proof (stride3_covers _ _ Hk); lia).
    by rewrite lookup_seq_lt.
  - rewrite decide_False by lia.
    rewrite lookup_seq_ge by lia. simpl. apply lookup_ge_None. lia.
Qed.

Lemma ieee_rippleStep_idle (Math_sin Math_sqrt : num -> num) (s : sched) :
  rippleActive s = false ->
  position_array (IEEE.rippleStep Math_sin Math_sqrt s) = position_array s.
Proof. intros H. unfold IEEE.rippleStep. by rewrite H. Qed.

Lemma ieee_rippleStep_active (Math_sin Math_sqrt : num -> num) (s : sched) :
  rippleActive s = true ->
  position_array (IEEE.rippleStep Math_sin Math_sqrt s)
  = rippled Math_sin Math_sqrt (IEEE.add (ripplePhase s) (IEEE.lit (5 # 100)))
      (activeProgress s) (position_array s)
    <$> seq 0 (length (position_array s)).
Proof.
  intros H. unfold IEEE.rippleStep. rewrite H. cbn [position_array].
  apply ripple_loop_values.
Qed.

(** What the ripple block leaves as it is. *)
Lemma ieee_rippleStep_keeps (Math_sin Math_sqrt : num -> num) (s : sched) :
  isMorphing (IEEE.rippleStep Math_sin Math_sqrt s) = isMorphing s /\
  isViewMorphing (IEEE.rippleStep Math_sin Math_sqrt s) = isViewMorphing s /\
  morphProgress (IEEE.rippleStep Math_sin Math_sqrt s) = morphProgress s /\
  originalPosition_array (IEEE.rippleStep Math_sin Math_sqrt s)
  = originalPosition_array s /\
  targetPosition_array (IEEE.rippleStep Math_sin Math_sqrt s)
  = targetPosition_array s /\
  length (position_array (IEEE.rippleStep Math_sin Math_sqrt s))
  = length (position_array s).
Proof.
  destruct (rippleActive s) eqn:H.
  - rewrite ieee_rippleStep_active by done.
    unfold IEEE.rippleStep. rewrite H. cbn.
    by rewrite length_fmap, length_seq.
  - rewrite ieee_rippleStep_idle by done.
    unfold IEEE.rippleStep. by rewrite H.
Qed.

(** ** The morph block *)

Lemma ieee_morphStep_on (s : sched) :
  isMorphing s = true -> isViewMorphing s = false ->
  nltb (morphProgress s) one = true ->
  IEEE.morphStep s =
  Sched (interpolated (originalPosition_array s) (targetPosition_array s)
           (IEEE.eased (IEEE.advance (morphProgress s)))
           <$> seq 0 (length (position_array s)))
        (targetPosition_array s) (originalPosition_array s) true
        (IEEE.advance (morphProgress s)) (ripplePhase s) (frameCount s)
        (localCurrentShape s)
        (negb (ngeb (IEEE.advance (morphProgress s)) one))
        (lastViewMode s) (viewMorphProgress s) false (currentShape s).
Proof.
  intros Hm Hv Hp. unfold IEEE.morphStep. rewrite Hm, Hv, Hp.
  cbn [andb negb]. rewrite ieee_interpolate_values.
  by destruct (ngeb _ _).
Qed.

Lemma ieee_morphStep_off (s : sched) :
  isMorphing s = false -> IEEE.morphStep s = s.
Proof. intros H. unfold IEEE.morphStep. by rewrite H. Qed.

(** ** The progress of a morph *)

Lemma progress_S (k : nat) :
  IEEE.advance (progress_after k) = progress_after (S k).
Proof. reflexivity. Qed.

Lemma progress_from (k : nat) (p : num) :
  Nat.iter k IEEE.advance (IEEE.advance p) = IEEE.advance (Nat.iter k IEEE.advance p).
Proof. induction k as [|k IH]; [done|]. by rewrite !Nat.iter_succ, IH. Qed.

Lemma between_spec (n : nat) (p : num) (k : nat) :
  between n p = true -> k < n ->
  ngtb (Nat.iter k IEEE.advance (IEEE.advance p)) zero = true /\
  nltb (Nat.iter k IEEE.advance p) one = true /\
  ngeb (Nat.iter k IEEE.advance p) one = false.
Proof.
  revert p k. induction n as [|n IH]; intros p k H Hk; [lia|].
  cbn [between] in H.
  apply andb_true_iff in H as [H H4]. apply andb_true_iff in H as [H H3].
  apply andb_true_iff in H as [H1 H2]. apply negb_true_iff in H3.
  destruct k as [|k]; [done|].
  rewrite !Nat.iter_succ, <- !progress_from.
  apply IH; [done|lia].
Qed.

Lemma between_120 : between 121 zero = true.
Proof. vm_compute. reflexivity. Qed.

Lemma progress_below_one (k : nat) :
  k <= 120 ->
  nltb (progress_after k) one = true /\ ngeb (progress_after k) one = false.
Proof.
  intros Hk. destruct (between_spec 121 zero k between_120) as (_ & H1 & H2);
    [lia|done].
Qed.

Lemma progress_positive (k : nat) :
  1 <= k <= 121 -> ngtb (progress_after k) zero = true.
Proof.
  intros Hk. destruct k as [|k]; [lia|].
  destruct (between_spec 121 zero k between_120) as (H & _); [lia|].
  unfold progress_after. by rewrite Nat.iter_succ, <- progress_from.
Qed.

Lemma progress_120 : progress_after 120 = Fin (4503599627370491 # 4503599627370496).
Proof. vm_compute. reflexivity. Qed.

Lemma progress_121 : progress_after 121 = Fin (4541129624265245 # 4503599627370496).
Proof. vm_compute. reflexivity. Qed.

Lemma progress_above_one :
  nltb (progress_after 121) one = false /\ ngeb (progress_after 121) one = true.
Proof. rewrite progress_121. split; reflexivity. Qed.

Lemma eased_120 : IEEE.eased (progress_after 120) = one.
Proof. rewrite progress_120. vm_compute. reflexivity. Qed.

Lemma eased_121 :
  IEEE.eased (progress_after 121) = Fin (9005948254844501 # 9007199254740992).
Proof. rewrite progress_121. vm_compute. reflexivity. Qed.

(** ** The frames of a morph *)

Lemma ticks_S (Math_sin Math_sqrt : num -> num) (k : nat) (s : sched) :
  ticks Math_sin Math_sqrt (S k) s
  = IEEE.morphFrame Math_sin Math_sqrt (ticks Math_sin Math_sqrt k s).
Proof. reflexivity. Qed.

Section Course.

Variables Math_sin Math_sqrt : num -> num.
Variable s : sched.
Variable n : nat.

Hypothesis Hstarted : started s.
Hypothesis Hbelow : forall k, k <= n ->
  nltb (progress_after k) one = true /\ ngeb (progress_after k) one = false.
Hypothesis Habove :
  nltb (progress_after (S n)) one = false /\
  ngeb (progress_after (S n)) one = true.

(** While the progress is less than 1 the morph goes on. *)
Lemma course_running (k : nat) :
  k <= n ->
  isMorphing (ticks Math_sin Math_sqrt k s) = true /\
  isViewMorphing (ticks Math_sin Math_sqrt k s) = false /\
  morphProgress (ticks Math_sin Math_sqrt k s) = progress_after k /\
  originalPosition_array (ticks Math_sin Math_sqrt k s)
  = originalPosition_array s /\
  targetPosition_array (ticks Math_sin Math_sqrt k s)
  = targetPosition_array s /\
  length (position_array (ticks Math_sin Math_sqrt k s))
  = length (position_array s).
Proof.
  destruct Hstarted as (Hm & Hv & Hp). induction k as [|k IH]; intros Hk.
  - done.
  - destruct IH as (Im & Iv & Ip & Io & It & Il); [lia|].
    rewrite ticks_S. set (s' := ticks Math_sin Math_sqrt k s) in *.
    destruct (Hbelow k) as [B1 _]; [lia|].
    destruct (Hbelow (S k)) as [_ B2]; [lia|].
    assert (Hlt : nltb (morphProgress s') one = true) by (rewrite Ip; exact B1).
    assert (E := ieee_morphStep_on s' Im Iv Hlt).
    destruct (ieee_rippleStep_keeps Math_sin Math_sqrt (IEEE.morphStep s'))
      as (K1 & K2 & K3 & K4 & K5 & K6).
    unfold IEEE.morphFrame. rewrite K1, K2, K3, K4, K5, K6, E.
    cbn [isMorphing isViewMorphing morphProgress originalPosition_array
         targetPosition_array position_array].
    rewrite Ip, progress_S, B2, length_fmap, length_seq. done.
Qed.

(** The frame that brings the progress to 1 or more ends the morph, at
    the eased fraction of the progress it reaches, and the ripple is not
    applied. *)
Lemma course_last :
  isMorphing (ticks Math_sin Math_sqrt (S n) s) = false /\
  isViewMorphing (ticks Math_sin Math_sqrt (S n) s) = false /\
  morphProgress (ticks Math_sin Math_sqrt (S n) s) = progress_after (S n) /\
  position_array (ticks Math_sin Math_sqrt (S n) s)
  = interpolated (originalPosition_array s) (targetPosition_array s)
      (IEEE.eased (progress_after (S n)))
    <$> seq 0 (length (position_array s)).
Proof.
  destruct (course_running n) as (Im & Iv & Ip & Io & It & Il); [lia|].
  rewrite ticks_S. set (s' := ticks Math_sin Math_sqrt n s) in *.
  destruct (Hbelow n) as [B1 _]; [lia|].
  destruct Habove as [A1 A2].
  assert (Hlt : nltb (morphProgress s') one = true) by (rewrite Ip; exact B1).
  assert (E := ieee_morphStep_on s' Im Iv Hlt).
  rewrite Ip, progress_S, A2, Io, It, Il in E. cbn [negb] in E.
  assert (Hidle : rippleActive (IEEE.morphStep s') = false).
  { rewrite E. unfold rippleActive.
    cbn [morphProgress isViewMorphing viewMorphProgress].
    rewrite A1. by destruct (ngtb _ _). }
  destruct (ieee_rippleStep_keeps Math_sin Math_sqrt (IEEE.morphStep s'))
    as (K1 & K2 & K3 & _).
  unfold IEEE.morphFrame.
  rewrite K1, K2, K3, (ieee_rippleStep_idle _ _ _ Hidle), E. done.
Qed.

(** Every later frame leaves the positions as they are. *)
Lemma course_rest (j : nat) :
  isMorphing (ticks Math_sin Math_sqrt (S n + j) s) = false /\
  isViewMorphing (ticks Math_sin Math_sqrt (S n + j) s) = false /\
  morphProgress (ticks Math_sin Math_sqrt (S n + j) s) = progress_after (S n) /\
  position_array (ticks Math_sin Math_sqrt (S n + j) s)
  = interpolated (originalPosition_array s) (targetPosition_array s)
      (IEEE.eased (progress_after (S n)))
    <$> seq 0 (length (position_array s)).
Proof.
  induction j as [|j IH].
  - rewrite Nat.add_0_r. apply course_last.
  - destruct IH as (Im & Iv & Ip & Ipos).
    rewrite Nat.add_succ_r, ticks_S.
    set (s' := ticks Math_sin Math_sqrt (S n + j) s) in *.
    destruct Habove as [A1 _].
    unfold IEEE.morphFrame. rewrite (ieee_morphStep_off s' Im).
    assert (Hidle : rippleActive s' = false).
    { unfold rippleActive. rewrite Ip, A1, Iv. by destruct (ngtb _ _). }
    destruct (ieee_rippleStep_keeps Math_sin Math_sqrt s') as (K1 & K2 & K3 & _).
    by rewrite K1, K2, K3, (ieee_rippleStep_idle _ _ _ Hidle).
Qed.

End Course.

(** A frame in a view other than [objects], in which no view morph is
    under way and the view is the one of the last trigger, is the morph
    block followed by the ripple block. *)
Lemma ieee_animate_settled (Math_sin Math_sqrt : num -> num) (r : refs)
    (s : sched) :
  viewModeRef r <> objects -> viewModeRef r = lastViewMode s ->
  isViewMorphing s = false ->
  IEEE.animate Math_sin Math_sqrt r s
  = (IEEE.rippleStep Math_sin Math_sqrt (IEEE.morphStep (countFrame s)), None).
Proof.
  intros Hmode Hlast Hv. unfold IEEE.animate.
  assert (E : IEEE.viewMorphStep (countFrame s) = countFrame s).
  { unfold IEEE.viewMorphStep. cbn [countFrame isViewMorphing]. by rewrite Hv. }
  by rewrite E, (triggerStep_settled r (countFrame s) Hmode Hlast).
Qed.

(** ** The ends of the interpolation *)

Lemma round_eq (f : format) (q q' : Q) :
  (0 < prec f)%Z -> (q == q')%Q -> is_value f q' ->
  exists r, round f q = Fin r /\ (r == q')%Q.
Proof.
  intros Hp E Hv.
  assert (Hq : is_value f q) by (apply (is_value_comp f q'); [by symmetry|done]).
  pose proof (rnd_value f Hp q Hq) as R.
  exists (Qred (rnd f q)). split.
  - apply round_fin. rewrite R. by apply value_lt_max.
  - by rewrite Qred_correct, R.
Qed.

Lemma get_fin_lookup (qs : list Q) (k : nat) (x : Q) :
  qs !! k = Some x -> get (Fin <$> qs) k = Fin x.
Proof. intros H. unfold get. by rewrite list_lookup_fmap, H. Qed.

Lemma interpolated_zero (os ts : list Q) (e : num) (k : nat) (o t : Q) :
  os !! k = Some o -> ts !! k = Some t ->
  is_value binary32 o -> is_value binary32 t -> e =n= zero ->
  interpolated (Fin <$> os) (Fin <$> ts) e k =n= Fin o.
Proof.
  intros Ho Ht Vo Vt He. apply num_eq_fin in He as (b & -> & Hb).
  unfold interpolated. rewrite (get_fin_lookup _ _ _ Ho), (get_fin_lookup _ _ _ Ht).
  unfold IEEE.sub, nsub, nneg, nadd, fl.
  rewrite round_fin by (apply sum32_bound; [done|by apply is_value_opp]).
  unfold IEEE.mul, nmul, fl. rewrite round_zero by (rewrite Hb; ring).
  unfold IEEE.add, nadd, fl.
  destruct (round_eq binary64 (o + 0) o prec64 ltac:(ring) (value32_64 _ Vo))
    as (r & -> & Er).
  unfold IEEE.store, fl.
  destruct (round_eq binary32 r o prec32 Er Vo) as (r' & -> & Er').
  done.
Qed.

Lemma interpolated_one (os ts : list Q) (e : num) (k : nat) (o t : Q) :
  os !! k = Some o -> ts !! k = Some t ->
  is_value binary32 o -> is_value binary32 t ->
  is_value binary64 (t - o) -> e =n= one ->
  interpolated (Fin <$> os) (Fin <$> ts) e k =n= Fin t.
Proof.
  intros Ho Ht Vo Vt Vd He. apply num_eq_fin in He as (b & -> & Hb).
  unfold interpolated. rewrite (get_fin_lookup _ _ _ Ho), (get_fin_lookup _ _ _ Ht).
  unfold IEEE.sub, nsub, nneg, nadd, fl.
  destruct (round_eq binary64 (t + - o) (t - o) prec64 ltac:(reflexivity) Vd)
    as (d & -> & Ed).
  unfold IEEE.mul, nmul, fl.
  destruct (round_eq binary64 (d * b) (t - o) prec64
              ltac:(rewrite Hb, Ed; ring) Vd) as (r1 & -> & E1).
  unfold IEEE.add, nadd, fl.
  destruct (round_eq binary64 (o + r1) t prec64
              ltac:(rewrite E1; ring) (value32_64 _ Vt)) as (r2 & -> & E2).
  unfold IEEE.store, fl.
  destruct (round_eq binary32 r2 t prec32 E2 Vt) as (r3 & -> & E3).
  done.
Qed.

(** With the eased fraction 0 the morph block stores the original buffer;
    with the eased fraction 1 it stores the target buffer when every
    difference [target - original] is a binary64 number. *)
Lemma interpolate_fin_ends (pos : list num) (os ts : list Q) (e : num) :
  length os = length pos -> length ts = length pos ->
  Forall (is_value binary32) os -> Forall (is_value binary32) ts ->
  (e =n= zero ->
   IEEE.interpolate pos (Fin <$> os) (Fin <$> ts) e =b= Fin <$> os) /\
  (e =n= one -> Forall2 (fun o t => is_value binary64 (t - o)) os ts ->
   IEEE.interpolate pos (Fin <$> os) (Fin <$> ts) e =b= Fin <$> ts).
Proof.
  intros Hos Hts Vos Vts.
  assert (Hrow : forall k (xs : list Q) x y,
            IEEE.interpolate pos (Fin <$> os) (Fin <$> ts) e !! k = Some x ->
            (Fin <$> xs) !! k = Some y ->
            exists o t x', os !! k = Some o /\ ts !! k = Some t
                           /\ xs !! k = Some x'
                           /\ x = interpolated (Fin <$> os) (Fin <$> ts) e k
                           /\ y = Fin x').
  { intros k xs x y Hx Hy. rewrite list_lookup_fmap in Hy.
    destruct (xs !! k) as [x'|] eqn:Hx'; [|done]. injection Hy as <-.
    assert (Hk : k < length pos).
    { rewrite <- (ieee_interpolate_length pos (Fin <$> os) (Fin <$> ts) e).
      by eapply lookup_lt_Some. }
    destruct (lookup_lt_is_Some_2 os k) as [o Ho]; [lia|].
    destruct (lookup_lt_is_Some_2 ts k) as [t Ht]; [lia|].
    rewrite ieee_interpolate_values, list_lookup_fmap, lookup_seq_lt in Hx
      by done.
    injection Hx as <-. exists o, t, x'. done. }
  split.
  - intros He. apply Forall2_same_length_lookup_2;
      [by rewrite ieee_interpolate_length, length_fmap|].
    intros k x y Hx Hy.
    destruct (Hrow k os x y Hx Hy) as (o & t & o' & Ho & Ht & Ho' & -> & ->).
    assert (o' = o) by congruence. subst o'.
    apply (interpolated_zero os ts e k o t); try done.
    + by apply (Forall_lookup_1 _ _ _ _ Vos Ho).
    + by apply (Forall_lookup_1 _ _ _ _ Vts Ht).
  - intros He Hd. apply Forall2_same_length_lookup_2;
      [by rewrite ieee_interpolate_length, length_fmap|].
    intros k x y Hx Hy.
    destruct (Hrow k ts x y Hx Hy) as (o & t & t' & Ho & Ht & Ht' & -> & ->).
    assert (t' = t) by congruence. subst t'.
    apply (interpolated_one os ts e k o t); try done.
    + by apply (Forall_lookup_1 _ _ _ _ Vos Ho).
    + by apply (Forall_lookup_1 _ _ _ _ Vts Ht).
    + by apply (Forall2_lookup_lr _ _ _ _ _ _ Hd Ho Ht).
Qed.

Lemma nltb_one_ne (x : num) : nltb x one = true -> ~ x =n= one.
Proof.
  destruct x as [| |a|]; try (by intros ? ?).
  unfold nltb, one, num_eq. intros H E. apply negb_true_iff in H.
  assert (Hle : Qle_bool 1 a = true) by (apply Qle_bool_iff; rewrite E; lra).
  congruence.
Qed.

Lemma progress_121_ne : ~ progress_after 121 =n= one.
Proof.
  rewrite progress_121. unfold num_eq, one, Qeq. simpl. lia.
Qed.

Lemma started_unit_morph : started unit_morph.
Proof. by repeat split. Qed.



